(** * PAA Miner: question-tree extraction, consensus and change tracking

    A shallow embedding of the extraction engine ([runSingle],
    [runConsensus], [normalize]) and of the tracker ([hashQuestion],
    [diffPAALists], [checkKeyword]), followed by the properties the
    specification states about them.

    The worker's helpers are embedded with them: the type and the
    priority of a question, the escaping functions, the slugs and the
    CSV export, the tiers, the fetch from SerpAPI and the notifications.
    The properties of Part II that no claim of the specification states
    are read off the code.

    JavaScript strings are sequences of code points ([jsstring]); a lone
    surrogate is a code point of its own.  The numbers the engine computes
    with are integers ([Z]) except for the confidence score, which is an
    IEEE 754 binary64 value ([float]) as in the source. *)

From Stdlib Require Import ZArith Floats String Ascii Uint63 Sorted DecimalString.
From stdpp Require Import gmap strings list fin_maps.

Open Scope Z_scope.

(* ===================================================================== *)
(** * Part I: the program *)
(* ===================================================================== *)

(** ** Strings *)

Abbreviation jsstring := (list N).

(** An ASCII literal as a JavaScript string. *)
Definition js (s : string) : jsstring :=
  N_of_ascii <$> list_ascii_of_string s.

(** The platform's Unicode services: they are built into the JavaScript
    engine, not part of this repository, so the program is embedded over
    any implementation of them. *)
Class Unicode := {
  (** [String.prototype.normalize('NFKC')] *)
  nfkc : jsstring → jsstring;
  (** [String.prototype.toLowerCase] *)
  toLowerCase : jsstring → jsstring;
  (** the regular expression class [\p{L}] *)
  isLetter : N → bool;
  (** the regular expression class [\p{N}] *)
  isNumber : N → bool;
  (** [String.prototype.localeCompare] *)
  localeCompare : jsstring → jsstring → Z
}.

(** The regular expression class [\s], which is also the set
    [String.prototype.trim] strips: WhiteSpace and LineTerminator. *)
Definition isWhiteSpace (c : N) : bool :=
  ((9 <=? c) && (c <=? 13) || (c =? 32) || (c =? 160) || (c =? 0x1680)
   || (0x2000 <=? c) && (c <=? 0x200A) || (c =? 0x2028) || (c =? 0x2029)
   || (c =? 0x202F) || (c =? 0x205F) || (c =? 0x3000) || (c =? 0xFEFF))%N.

(** The regular expression class [\w] (no [i] or [u] flag): [[A-Za-z0-9_]]. *)
Definition isWordChar (c : N) : bool :=
  ((65 <=? c) && (c <=? 90) || (97 <=? c) && (c <=? 122)
   || (48 <=? c) && (c <=? 57) || (c =? 95))%N.

Fixpoint trimStart (s : jsstring) : jsstring :=
  match s with
  | c :: r => if isWhiteSpace c then trimStart r else s
  | [] => []
  end.

Definition trimEnd (s : jsstring) : jsstring := rev (trimStart (rev s)).

Definition trim (s : jsstring) : jsstring := trimEnd (trimStart s).

(** [s.replace(/\s+/g, ' ')]: [inRun] tells that the previous character was
    white space, whose run has already been replaced by one space. *)
Fixpoint collapseFrom (inRun : bool) (s : jsstring) : jsstring :=
  match s with
  | [] => []
  | c :: r =>
      if isWhiteSpace c
      then (if inRun then collapseFrom true r else 32%N :: collapseFrom true r)
      else c :: collapseFrom false r
  end.

Definition collapseWhiteSpace (s : jsstring) : jsstring := collapseFrom false s.

(** ** lib/normalize.ts *)

(** The character class of the first [replace]: its members are the
    quotation mark (U+0022), the two guillemets (U+00AB, U+00BB), the low
    double quote (U+201E) and the apostrophe (U+0027). *)
Definition isQuote (c : N) : bool :=
  ((c =? 0x22) || (c =? 0xAB) || (c =? 0xBB) || (c =? 0x201E) || (c =? 0x27))%N.

(** The first [replace]: every member of the class becomes a quotation
    mark. *)
Definition foldQuotes (s : jsstring) : jsstring :=
  (λ c, if isQuote c then 0x22%N else c) <$> s.

(** The class [[\p{L}\p{N}\s?]]. *)
Definition isNormalChar `{Unicode} (c : N) : bool :=
  isLetter c || isNumber c || isWhiteSpace c || (c =? 63)%N.

(** [s.replace(/[^\p{L}\p{N}\s?]/gu, ' ')] *)
Definition blankOthers `{Unicode} (s : jsstring) : jsstring :=
  (λ c, if isNormalChar c then c else 32%N) <$> s.

Definition normalize `{Unicode} (s : jsstring) : jsstring :=
  trim (collapseWhiteSpace (blankOthers (foldQuotes
    (toLowerCase (nfkc s))))).

(** ** worker/src/utils/questions.ts *)

(** [s.replace(/[^\w\s']/g, '')]: the characters of the class
    [[\w\s']] are kept. *)
Definition isKept (c : N) : bool :=
  isWordChar c || isWhiteSpace c || (c =? 39)%N.

Definition stripPunctuation (s : jsstring) : jsstring :=
  List.filter isKept s.

(** The assertion [\b] between two neighbouring positions: exactly one side
    is a word character ([None] is the start or the end of the string). *)
Definition isWordAt (c : option N) : bool :=
  match c with Some c => isWordChar c | None => false end.

Definition wordBoundary (before after : option N) : bool :=
  xorb (isWordAt before) (isWordAt after).

Fixpoint startsWith (pat s : jsstring) : bool :=
  match pat, s with
  | [], _ => true
  | p :: pat', c :: s' => (p =? c)%N && startsWith pat' s'
  | _ :: _, [] => false
  end.

(** Does [\b word \b] match at the head of [s], whose left neighbour is
    [prev]? *)
Definition wordAt (prev : option N) (word s : jsstring) : bool :=
  wordBoundary prev (head s)
  && startsWith word s
  && wordBoundary (last word) (head (drop (length word) s)).

(** The alternation [(the|a|an)] tried in its order at the head of [s]; the
    length of the match. *)
Definition articleAt (prev : option N) (s : jsstring) : option nat :=
  if wordAt prev (js "the") s then Some 3%nat
  else if wordAt prev (js "a") s then Some 1%nat
  else if wordAt prev (js "an") s then Some 2%nat
  else None.

(** [s.replace(/\b(the|a|an)\b/g, '')], scanning from the left; [skip]
    counts the characters of the current match still to drop and [prev] is
    the character before the head of [s] in the scanned string. *)
Fixpoint removeArticlesFrom (skip : nat) (prev : option N) (s : jsstring)
  : jsstring :=
  match s with
  | [] => []
  | c :: r =>
      match skip with
      | S k => removeArticlesFrom k (Some c) r
      | O =>
          match articleAt prev s with
          | Some n => removeArticlesFrom (pred n) (Some c) r
          | None => c :: removeArticlesFrom 0 (Some c) r
          end
      end
  end.

Definition removeArticles (s : jsstring) : jsstring :=
  removeArticlesFrom 0 None s.

Definition normalizeQuestion `{Unicode} (question : jsstring) : jsstring :=
  trim (removeArticles (collapseWhiteSpace (stripPunctuation
    (trim (toLowerCase question))))).

(** [encodeURIComponent]: the unreserved characters stay, every other code
    point becomes the percent-escaped bytes of its UTF-8 encoding, and a
    lone surrogate raises URIError ([None]). *)
Definition isUriUnreserved (c : N) : bool :=
  ((65 <=? c) && (c <=? 90) || (97 <=? c) && (c <=? 122)
   || (48 <=? c) && (c <=? 57)
   || (c =? 45) || (c =? 95) || (c =? 46) || (c =? 33) || (c =? 126)
   || (c =? 42) || (c =? 39) || (c =? 40) || (c =? 41))%N.

Definition utf8 (c : N) : list N :=
  (if c <? 0x80 then [c]
   else if c <? 0x800 then [0xC0 + c / 64; 0x80 + c mod 64]
   else if c <? 0x10000
     then [0xE0 + c / 4096; 0x80 + (c / 64) mod 64; 0x80 + c mod 64]
   else [0xF0 + c / 262144; 0x80 + (c / 4096) mod 64;
         0x80 + (c / 64) mod 64; 0x80 + c mod 64])%N.

Definition hexDigit (d : N) : N :=
  (if d <? 10 then 48 + d else 55 + d)%N.

Definition percentEscape (b : N) : jsstring :=
  [37%N; hexDigit (b / 16); hexDigit (b mod 16)].

Definition isSurrogate (c : N) : bool := ((0xD800 <=? c) && (c <=? 0xDFFF))%N.

Definition encodeURIChar (c : N) : option jsstring :=
  if isUriUnreserved c then Some [c]
  else if isSurrogate c then None
  else Some (utf8 c ≫= percentEscape).

Fixpoint encodeURIComponent (s : jsstring) : option jsstring :=
  match s with
  | [] => Some []
  | c :: r =>
      e ← encodeURIChar c; t ← encodeURIComponent r; Some (e ++ t)
  end.

(** [btoa]: base64 of a string of bytes; a character above 0xFF raises
    InvalidCharacterError ([None]). *)
Definition base64Digit (d : N) : N :=
  (if d <? 26 then 65 + d
   else if d <? 52 then 71 + d
   else if d <? 62 then d - 4
   else if d =? 62 then 43 else 47)%N.

Fixpoint base64 (s : list N) : jsstring :=
  match s with
  | [] => []
  | [a] =>
      [base64Digit (a / 4); base64Digit ((a mod 4) * 16); 61; 61]%N
  | [a; b] =>
      [base64Digit (a / 4); base64Digit ((a mod 4) * 16 + b / 16);
       base64Digit ((b mod 16) * 4); 61]%N
  | a :: b :: c :: r =>
      ([base64Digit (a / 4); base64Digit ((a mod 4) * 16 + b / 16);
        base64Digit ((b mod 16) * 4 + c / 64); base64Digit (c mod 64)]
       ++ base64 r)%N
  end.

Definition btoa (s : jsstring) : option jsstring :=
  if forallb (λ c, c <=? 0xFF)%N s then Some (base64 s) else None.

(** [hashQuestion]: [None] is an exception thrown by [encodeURIComponent]
    or [btoa]. *)
Definition hashQuestion `{Unicode} (question : jsstring) : option jsstring :=
  let normalized := normalizeQuestion question in
  e ← encodeURIComponent normalized; b ← btoa e; Some (take 32 b).

(** A platform for ASCII texts, to run the examples on: NFKC is the
    identity on them, only [A-Z] have a lower case, the letters are
    [A-Za-z] and the numbers [0-9]; its collation is the comparison of the
    code points. *)
Definition asciiLowerChar (c : N) : N :=
  (if (65 <=? c) && (c <=? 90) then c + 32 else c)%N.

Fixpoint compareCodePoints (a b : jsstring) : Z :=
  match a, b with
  | [], [] => 0
  | [], _ :: _ => -1
  | _ :: _, [] => 1
  | x :: a', y :: b' =>
      if (x <? y)%N then -1 else if (y <? x)%N then 1
      else compareCodePoints a' b'
  end.

Definition asciiUnicode : Unicode := {|
  nfkc := λ s, s;
  toLowerCase := λ s, asciiLowerChar <$> s;
  isLetter := λ c, ((65 <=? c) && (c <=? 90) || (97 <=? c) && (c <=? 122))%N;
  isNumber := λ c, ((48 <=? c) && (c <=? 57))%N;
  localeCompare := compareCodePoints
|}.

(** A platform whose collation is not the order of the code points.  On
    the characters of a normalized ASCII text it orders as the root
    collation of ICU does, which [localeCompare] uses in Node and in the
    browsers: the space, then the question mark, then the digits, then the
    letters; the first difference decides, and a text comes before the
    texts it begins.  The other characters follow in the order of their
    code points.  Apart from the collation it is [asciiUnicode]. *)
Definition collationKey (c : N) : N :=
  (if c =? 32 then 0
   else if c =? 63 then 1
   else if (48 <=? c) && (c <=? 57) then 2 + (c - 48)
   else if (97 <=? c) && (c <=? 122) then 12 + (c - 97)
   else 38 + c)%N.

Definition compareCollated (a b : jsstring) : Z :=
  compareCodePoints (collationKey <$> a) (collationKey <$> b).

Definition collatingUnicode : Unicode := {|
  nfkc := λ s, s;
  toLowerCase := λ s, asciiLowerChar <$> s;
  isLetter := λ c, ((65 <=? c) && (c <=? 90) || (97 <=? c) && (c <=? 122))%N;
  isNumber := λ c, ((48 <=? c) && (c <=? 57))%N;
  localeCompare := compareCollated
|}.

(** ** The change tracker: [diffPAALists] and [checkKeyword] *)

(** A previous question, as [checkKeyword] hands it to the diff. *)
Record PrevQuestion := {
  pq_question : jsstring;
  pq_hash : jsstring
}.

Record CurrQuestion := {
  cq_question : jsstring;
  cq_hash : jsstring;
  cq_position : Z;
  cq_type : option jsstring
}.

Record PositionChange := {
  pc_question : jsstring;
  pc_hash : jsstring;
  oldPosition : Z;
  newPosition : Z
}.

Record DiffResult := {
  added : list CurrQuestion;
  removed : list PrevQuestion;
  positionChanges : list PositionChange
}.

(** [new Map(entries)]: later entries overwrite earlier ones. *)
Definition mapOf {V} (entries : list (jsstring * V)) : gmap jsstring V :=
  fold_left (λ m kv, <[kv.1 := kv.2]> m) entries ∅.

(** [map.has(key)] *)
Definition has {V} (m : gmap jsstring V) (key : jsstring) : bool :=
  bool_decide (is_Some (m !! key)).

(** [array.findIndex(pred)]: the first index, or -1. *)
Fixpoint findIndexFrom {A} (pred : A → bool) (i : Z) (l : list A) : Z :=
  match l with
  | [] => -1
  | x :: r => if pred x then i else findIndexFrom pred (i + 1) r
  end.

Definition findIndex {A} (pred : A → bool) (l : list A) : Z :=
  findIndexFrom pred 0 l.

Definition sameString (a b : jsstring) : bool := bool_decide (a = b).

(** The body of the loop over [current] in [diffPAALists]: the entries it
    pushes to [positionChanges] for [curr]. *)
Definition positionChangeOf (previous : list PrevQuestion)
    (prevMap : gmap jsstring PrevQuestion) (curr : CurrQuestion)
  : list PositionChange :=
  if has prevMap (cq_hash curr) then
    let prevIndex :=
      findIndex (λ p, sameString (pq_hash p) (cq_hash curr)) previous in
    if bool_decide (prevIndex ≠ cq_position curr) then
      [ {| pc_question := cq_question curr;
           pc_hash := cq_hash curr;
           oldPosition := prevIndex;
           newPosition := cq_position curr |} ]
    else []
  else [].

Definition diffPAALists (previous : list PrevQuestion)
    (current : list CurrQuestion) : DiffResult :=
  let prevMap := mapOf ((λ q, (pq_hash q, q)) <$> previous) in
  let currMap := mapOf ((λ q, (cq_hash q, q)) <$> current) in
  {| added := List.filter (λ q, negb (has prevMap (cq_hash q))) current;
     removed := List.filter (λ q, negb (has currMap (pq_hash q))) previous;
     positionChanges := current ≫= positionChangeOf previous prevMap |}.











(** ** lib/paaScraper.ts: the data *)

Inductive Device := mobile | desktop.

Record PAAParams := {
  keyword : jsstring;
  gl : jsstring;
  hl : jsstring;
  device : Device;
  p_depth : Z;
  p_k : Z;
  uule : option jsstring;
  p_strict : bool
}.

Record PAAItem := {
  raw : jsstring;
  norm : jsstring;
  depth : Z;
  parent : option jsstring;
  domPath : jsstring;
  orderIdx : Z
}.

Record Evidence := {
  fullScreenshotB64 : option jsstring;
  paaHtml : option jsstring;
  paaCropsB64 : option (list jsstring)
}.

Record PAARunResult := {
  items : list PAAItem;
  evidence : Evidence;
  serpHash : jsstring
}.

Record ConsensusPAAResult := {
  cr_question : jsstring;
  cr_norm : jsstring;
  cr_depth : Z;
  cr_parent : option jsstring;
  appearances : Z;
  confidence : float
}.

(** The configuration [runSingle] reads from the process environment: the
    proxy [pickProxy] draws from [PROXY_POOL], [MAX_NODES] (220 when unset)
    and [MAX_RUNTIME_MS] (45000 when unset). *)
Record Config := {
  proxy : option jsstring;
  maxNodes : Z;
  maxMs : Z
}.

(** An entry of the list [getAccordionItems] evaluates in the page. *)
Record AccordionItem := {
  acc_question : jsstring;
  acc_orderIdx : Z;
  acc_path : jsstring
}.

(** ** The browser session *)

Definition Error := jsstring.

(** How an asynchronous computation ends; [OutOfFuel] is a run of the
    model cut short, which no run of the program corresponds to. *)
Inductive outcome (A : Type) : Type :=
| Return (a : A)
| Throw (e : Error)
| OutOfFuel.
Arguments Return {A} a.
Arguments Throw {A} e.
Arguments OutOfFuel {A}.

(** What [runSingle] awaits, as operations on the state [W] of the outside
    world (the browser, the page and the clock); each of them returns or
    throws.  The helpers of the source that only drive the page (the digest
    of [hashSERP], [findPAAContainer], [getAccordionItems],
    [waitForChildrenInjected]) are operations of the world too: [runSingle]
    depends on them through their result or their exception alone.
    [findPAAContainer] tells whether it has found a container, which the
    world then holds. *)
Class Playwright (W : Type) := {
  launch : option jsstring → W → outcome unit * W;
  newContext : PAAParams → W → outcome unit * W;
  newPage : W → outcome unit * W;
  goto : PAAParams → W → outcome unit * W;
  waitForLoadState : W → outcome unit * W;
  querySelector : jsstring → W → outcome bool * W;
  click : jsstring → W → outcome unit * W;
  waitForTimeout : Z → W → outcome unit * W;
  serpDigest : W → outcome jsstring * W;
  findPAAContainer : W → outcome bool * W;
  outerHTML : W → outcome jsstring * W;
  screenshotContainer : W → outcome jsstring * W;
  screenshotPage : W → outcome jsstring * W;
  getAccordionItems : W → outcome (list AccordionItem) * W;
  findButton : jsstring → W → outcome bool * W;
  waitForChildrenInjected : jsstring → W → outcome unit * W;
  dateNow : W → Z * W;
  close : W → outcome unit * W
}.

(** What a run records as it goes: the calls on the browser itself, with
    whether they threw, and the size of every accordion listing read. *)
Inductive Call := call_launch | call_close.

Inductive Event :=
| browser_call (c : Call) (threw : bool)
| listing_read (size : nat).

(** A computation of the engine: it ends in an [outcome] and changes the
    world and the record of the run. *)
Definition M (W A : Type) : Type :=
  W * list Event → outcome A * (W * list Event).

Definition ret {W A} (a : A) : M W A := λ s, (Return a, s).

Definition bind {W A B} (m : M W A) (f : A → M W B) : M W B :=
  λ s, match m s with
       | (Return a, s') => f a s'
       | (Throw e, s') => (Throw e, s')
       | (OutOfFuel, s') => (OutOfFuel, s')
       end.

Definition throw {W A} (e : Error) : M W A := λ s, (Throw e, s).

(** [try { m } catch (e) { handler e }] *)
Definition tryCatch {W A} (m : M W A) (handler : Error → M W A) : M W A :=
  λ s, match m s with
       | (Throw e, s') => handler e s'
       | r => r
       end.

(** [m.catch(() => fallback)] *)
Definition orElse {W A} (m : M W A) (fallback : A) : M W A :=
  tryCatch m (λ _, ret fallback).

(** An operation of the world that the record does not keep. *)
Definition await {W A} (op : W → outcome A * W) : M W A :=
  λ '(w, log), let '(r, w') := op w in (r, (w', log)).

Definition readClock {W} `{Playwright W} : M W Z :=
  λ '(w, log), let '(t, w') := dateNow w in (Return t, (w', log)).

(** A call on the browser, recorded. *)
Definition awaitCall {W A} (c : Call) (op : W → outcome A * W) : M W A :=
  λ '(w, log),
    let '(r, w') := op w in
    (r, (w', log ++ [ browser_call c
                        match r with Throw _ => true | _ => false end ])).

(** [getAccordionItems(page, paa)], the size of its listing recorded. *)
Definition awaitListing {W} `{Playwright W} : M W (list AccordionItem) :=
  λ '(w, log),
    let '(r, w') := getAccordionItems w in
    (r, (w', log ++ match r with
                    | Return acc => [ listing_read (length acc) ]
                    | _ => []
                    end)).

#[global] Instance M_ret {W} : MRet (M W) := λ A a, ret a.
#[global] Instance M_bind {W} : MBind (M W) := λ A B f m, bind m f.

(** ** lib/paaScraper.ts: [runSingle] *)

Section RunSingle.
Context {W : Type} `{Playwright W} `{Unicode}.

(** [hashSERP]: whatever fails inside gives the hash [nohash]. *)
Definition hashSERP : M W jsstring :=
  tryCatch (await serpDigest) (λ _, ret (js "nohash")).

(** The selectors of the consent buttons, their labels written without the
    quotation marks of the source. *)
Definition consentSelectors : list jsstring :=
  [ js "button:has-text(I agree)"; js "button:has-text(Accept all)";
    js "button:has-text(accept)"; js "button:has-text(Accept)" ].

(** The loop over [consentSelectors]: the first button found is clicked
    and ends the loop. *)
Fixpoint dismissConsent (selectors : list jsstring) : M W unit :=
  match selectors with
  | [] => ret ()
  | selector :: rest =>
      consentBtn ← await (querySelector selector);
      if (consentBtn : bool) then
        orElse (await (click selector)) ();;
        await (waitForTimeout 1000)
      else dismissConsent rest
  end.

(** An entry of the queue of the traversal. *)
Record QNode := {
  q_path : jsstring;
  q_depth : Z;
  q_parent : option jsstring
}.

(** The variables the traversal updates. *)
Record Walk := {
  queue : list QNode;
  w_items : list PAAItem;
  seen : gset jsstring;
  crops : list jsstring
}.

(** [if (!seen.has(norm)) { seen.add(norm); items.push({...}) }] *)
Definition recordItem (node : QNode) (it : AccordionItem) (st : Walk)
  : Walk :=
  let raw := trim (acc_question it) in
  let norm := normalize raw in
  if bool_decide (norm ∈ seen st) then st
  else {| queue := queue st;
          w_items := w_items st
            ++ [ {| raw := raw; norm := norm; depth := q_depth node;
                    parent := q_parent node; domPath := acc_path it;
                    orderIdx := acc_orderIdx it |} ];
          seen := seen st ∪ {[ norm ]};
          crops := crops st |}.

(** [crops.push(crop2); queue.push({ path, depth: node.depth + 1,
    parent: norm })] *)
Definition enqueueChild (node : QNode) (it : AccordionItem)
    (crop2 : jsstring) (st : Walk) : Walk :=
  {| queue := queue st
       ++ [ {| q_path := acc_path it; q_depth := q_depth node + 1;
               q_parent := Some (normalize (trim (acc_question it))) |} ];
     w_items := w_items st;
     seen := seen st;
     crops := crops st ++ [crop2] |}.

(** The body of [for (const it of acc)], for the accordion entry [it] met
    while the queue entry [node] is being processed. *)
Definition visit (params : PAAParams) (cfg : Config) (node : QNode)
    (it : AccordionItem) (st : Walk) : M W Walk :=
  let raw := trim (acc_question it) in
  let st := recordItem node it st in
  if (q_depth node <? p_depth params)
     && (Z.of_nat (length (w_items st)) <? maxNodes cfg) then
    btn ← orElse (await (findButton raw)) false;
    if (btn : bool) then
      orElse (await (click raw)) ();;
      await (waitForChildrenInjected (acc_path it));;
      crop2 ← await screenshotContainer;
      ret (enqueueChild node it crop2 st)
    else ret st
  else ret st.

Fixpoint visitAll (params : PAAParams) (cfg : Config) (node : QNode)
    (acc : list AccordionItem) (st : Walk) : M W Walk :=
  match acc with
  | [] => ret st
  | it :: rest =>
      st' ← visit params cfg node it st;
      visitAll params cfg node rest st'
  end.

(** [while (queue.length)]: one unit of [fuel] for each turn of the loop. *)
Fixpoint traverse (fuel : nat) (params : PAAParams) (cfg : Config)
    (started : Z) (st : Walk) : M W Walk :=
  match fuel with
  | O => λ s, (OutOfFuel, s)
  | S fuel' =>
      match queue st with
      | [] => ret st
      | node :: rest =>
          t ← readClock;
          if maxMs cfg <? t - started then ret st
          else
            acc ← awaitListing;
            st' ← visitAll params cfg node acc
                    {| queue := rest; w_items := w_items st;
                       seen := seen st; crops := crops st |};
            if maxNodes cfg <=? Z.of_nat (length (w_items st')) then ret st'
            else traverse fuel' params cfg started st'
      end
  end.

(** What [runSingle] does once the browser is launched, inside its [try]. *)
Definition scrape (fuel : nat) (params : PAAParams) (cfg : Config)
  : M W PAARunResult :=
  await (newContext params);;
  await newPage;;
  started ← readClock;
  await (goto params);;
  orElse (await waitForLoadState) ();;
  dismissConsent consentSelectors;;
  serpHash ← hashSERP;
  paa ← await findPAAContainer;
  if negb (paa : bool) then
    fullScreenshotB64 ← await screenshotPage;
    awaitCall call_close close;;
    ret {| items := [];
           evidence := {| fullScreenshotB64 := Some fullScreenshotB64;
                          paaHtml := None; paaCropsB64 := None |};
           serpHash := serpHash |}
  else
    evidenceHtml ← await outerHTML;
    cropB64 ← await screenshotContainer;
    st ← traverse fuel params cfg started
           {| queue := [ {| q_path := []; q_depth := 0; q_parent := None |} ];
              w_items := []; seen := ∅; crops := [cropB64] |};
    fullScreenshotB64 ← await screenshotPage;
    awaitCall call_close close;;
    ret {| items := w_items st;
           evidence := {| fullScreenshotB64 := Some fullScreenshotB64;
                          paaHtml := Some evidenceHtml;
                          paaCropsB64 := Some (crops st) |};
           serpHash := serpHash |}.

(** [runSingle].  The variable [browser] of the source is set exactly when
    [chromium.launch] has returned, so its [catch] block closes the browser
    for an exception of [scrape] and only rethrows one of the launch. *)
Definition runSingle (fuel : nat) (params : PAAParams) (cfg : Config)
  : M W PAARunResult :=
  awaitCall call_launch (launch (proxy cfg));;
  tryCatch (scrape fuel params cfg)
    (λ error, orElse (awaitCall call_close close) () ;; throw error).

End RunSingle.

(** ** lib/paaScraper.ts: [runConsensus] *)

(** A [Map] with string keys: its entries, in the order of insertion. *)
Definition JsMap (V : Type) : Type := list (jsstring * V).

Fixpoint mapGet {V} (m : JsMap V) (key : jsstring) : option V :=
  match m with
  | [] => None
  | (k, v) :: r => if sameString k key then Some v else mapGet r key
  end.

Fixpoint mapSet {V} (m : JsMap V) (key : jsstring) (v : V) : JsMap V :=
  match m with
  | [] => [(key, v)]
  | (k, v0) :: r =>
      if sameString k key then (k, v) :: r else (k, v0) :: mapSet r key v
  end.

(** [array.sort(cmp)] for a comparison that orders consistently: the sort
    is stable, and the stable arrangement is the one an insertion from the
    right builds. *)
Fixpoint insertBy {A} (cmp : A → A → Z) (x : A) (l : list A) : list A :=
  match l with
  | [] => [x]
  | y :: r => if cmp x y <=? 0 then x :: y :: r else y :: insertBy cmp x r
  end.

Definition sortBy {A} (cmp : A → A → Z) (l : list A) : list A :=
  foldr (insertBy cmp) [] l.

(** [topString]: the most common string, the first met among equals. *)
Definition countStrings (arr : list jsstring) : JsMap Z :=
  fold_left (λ counts s, mapSet counts s (default 0 (mapGet counts s) + 1))
    arr [].

Definition topString (arr : list jsstring) : jsstring :=
  match arr with
  | [] => []
  | _ :: _ =>
      match sortBy (λ a b, b.2 - a.2) (countStrings arr) with
      | e :: _ => e.1
      | [] => []
      end
  end.

(** What the map of [runConsensus] holds for a normalized text. *)
Record Samples := {
  rawSamples : list jsstring;
  depths : list Z;
  parents : list (option jsstring);
  orderIdxs : list Z
}.

Definition addItem (map : JsMap Samples) (it : PAAItem) : JsMap Samples :=
  let v := default {| rawSamples := []; depths := []; parents := [];
                      orderIdxs := [] |} (mapGet map (norm it)) in
  mapSet map (norm it)
    {| rawSamples := rawSamples v ++ [raw it];
       depths := depths v ++ [depth it];
       parents := parents v ++ [parent it];
       orderIdxs := orderIdxs v ++ [orderIdx it] |}.

Definition buildMap (runs : list PAARunResult) : JsMap Samples :=
  fold_left (λ map r, fold_left addItem (items r) map) runs [].

(** [Math.min(...l)] of a list that is never empty here. *)
Definition minOf (l : list Z) : Z :=
  match l with
  | [] => 0
  | x :: r => fold_left Z.min r x
  end.

(** [l.filter(Boolean)] on optional strings: the defined, non-empty ones. *)
Definition truthyStrings (l : list (option jsstring)) : list jsstring :=
  omap (λ p, match p with
             | Some (c :: r) => Some (c :: r)
             | _ => None
             end) l.

Record Aggregate := {
  ag_norm : jsstring;
  ag_raw : jsstring;
  ag_depth : Z;
  ag_orderIdx : Z;
  ag_parent : option jsstring;
  ag_appearances : Z
}.

Definition aggregate (entry : jsstring * Samples) : Aggregate :=
  let '(norm, v) := entry in
  {| ag_norm := norm;
     ag_raw := topString (rawSamples v);
     ag_depth := minOf (depths v);
     ag_orderIdx := minOf (orderIdxs v);
     ag_parent := match topString (truthyStrings (parents v)) with
                  | [] => None
                  | p => Some p
                  end;
     ag_appearances := Z.of_nat (length (rawSamples v)) |}.

(** The integers the score is computed from, as binary64 numbers. *)
Definition floatOfZ (z : Z) : float :=
  match z with
  | Z0 => 0%float
  | Zpos _ => PrimFloat.of_uint63 (Uint63.of_Z z)
  | Zneg p => PrimFloat.opp (PrimFloat.of_uint63 (Uint63.of_Z (Zpos p)))
  end.

(** [toFixed(3)] of [m * 2 ^ e]: the integer [n] for which [n / 1000] is
    nearest, the larger one of two. *)
Definition thousandths (m : positive) (e : Z) : Z :=
  if 0 <=? e then Zpos m * 2 ^ e * 1000
  else (2000 * Zpos m + 2 ^ (- e)) / (2 * 2 ^ (- e)).

(** [Number(x.toFixed(3))]: the decimal [n / 1000] read back is the
    binary64 number nearest to it, which the division of [n] by 1000 is.
    From 1e21 on, and for an infinity or NaN, [toFixed] prints the number
    itself. *)
Definition fixed3 (x : float) : float :=
  match Prim2SF x with
  | S754_zero _ => 0%float
  | S754_finite s m e =>
      if PrimFloat.leb 1e21%float (PrimFloat.abs x) then x
      else
        let v := (floatOfZ (thousandths m e) / 1000)%float in
        if s then PrimFloat.opp v else v
  | _ => x
  end.

(** [0.6 * (x.appearances / k) + 0.4 * (1 / (1 + x.depth))], where 0.6
    and 0.4 are the binary64 numbers nearest to them. *)
Definition scoreOf (appearances k depth : Z) : float :=
  (0x1.3333333333333p-1 * (floatOfZ appearances / floatOfZ k)
   + 0x1.999999999999ap-2 * (1 / (1 + floatOfZ depth)))%float.

Definition confidenceOf (appearances k depth : Z) : float :=
  fixed3 (scoreOf appearances k depth).

(** [Math.min(Math.max(params.k || 1, 1), 3)] *)
Definition clampK (k : Z) : Z :=
  Z.min (Z.max (if k =? 0 then 1 else k) 1) 3.

Section Consensus.
Context `{Unicode}.

(** The comparison [runConsensus] sorts its results with. *)
Definition compareResults (a b : ConsensusPAAResult) : Z :=
  if bool_decide (appearances b ≠ appearances a)
  then appearances b - appearances a
  else if bool_decide (cr_depth a ≠ cr_depth b)
  then cr_depth a - cr_depth b
  else localeCompare (cr_norm a) (cr_norm b).

(** What [runConsensus] computes from the [k] runs. *)
Definition consensusOf (k : Z) (strict : bool) (runs : list PAARunResult)
  : list ConsensusPAAResult :=
  let map := buildMap runs in
  let consensus := aggregate <$> map in
  let threshold := if strict then Z.min k 2 else 1 in
  let filtered :=
    List.filter (λ x, threshold <=? ag_appearances x) consensus in
  sortBy compareResults
    ((λ x, {| cr_question := ag_raw x;
              cr_norm := ag_norm x;
              cr_depth := ag_depth x;
              cr_parent := ag_parent x;
              appearances := ag_appearances x;
              confidence :=
                confidenceOf (ag_appearances x) k (ag_depth x) |})
       <$> filtered).

Context {W : Type} `{Playwright W}.

(** [for (let i = 0; i < k; i++) runs.push(await runSingle(params))] *)
Fixpoint runAll (n : nat) (run : M W PAARunResult)
  : M W (list PAARunResult) :=
  match n with
  | O => ret []
  | S n' => r ← run; rs ← runAll n' run; ret (r :: rs)
  end.

Definition runConsensus (fuel : nat) (params : PAAParams) (cfg : Config)
  : M W (list ConsensusPAAResult * list (jsstring * Evidence)) :=
  let k := clampK (p_k params) in
  runs ← runAll (Z.to_nat k) (runSingle fuel params cfg);
  ret (consensusOf k (p_strict params) runs,
       (λ r, (serpHash r, evidence r)) <$> runs).

End Consensus.

(** ** A scripted page

    A world to run the engine in: the page answers [getAccordionItems]
    with the listings of the script one after the other (and with the empty
    listing after the last), the clock advances by [sc_tick] at every
    reading, and [close] throws as many times as [sc_closeFailures] says. *)

Record Script := {
  sc_listings : list (list AccordionItem);
  sc_container : bool;
  sc_buttons : bool;
  sc_clock : Z;
  sc_tick : Z;
  sc_closeFailures : nat;
  sc_pageFails : bool
}.

Definition scriptedListing (w : Script)
  : outcome (list AccordionItem) * Script :=
  (Return (hd [] (sc_listings w)),
   {| sc_listings := tl (sc_listings w); sc_container := sc_container w;
      sc_buttons := sc_buttons w; sc_clock := sc_clock w;
      sc_tick := sc_tick w; sc_closeFailures := sc_closeFailures w;
      sc_pageFails := sc_pageFails w |}).

Definition scriptedClock (w : Script) : Z * Script :=
  (sc_clock w,
   {| sc_listings := sc_listings w; sc_container := sc_container w;
      sc_buttons := sc_buttons w; sc_clock := sc_clock w + sc_tick w;
      sc_tick := sc_tick w; sc_closeFailures := sc_closeFailures w;
      sc_pageFails := sc_pageFails w |}).

Definition scriptedClose (w : Script) : outcome unit * Script :=
  match sc_closeFailures w with
  | O => (Return (), w)
  | S n =>
      (Throw (js "close failed"),
       {| sc_listings := sc_listings w; sc_container := sc_container w;
          sc_buttons := sc_buttons w; sc_clock := sc_clock w;
          sc_tick := sc_tick w; sc_closeFailures := n;
          sc_pageFails := sc_pageFails w |})
  end.

#[global] Instance scriptedPage : Playwright Script := {|
  launch := λ _ w, (Return (), w);
  newContext := λ _ w, (Return (), w);
  newPage := λ w, (Return (), w);
  goto := λ _ w, (Return (), w);
  waitForLoadState := λ w, (Return (), w);
  querySelector := λ _ w, (Return false, w);
  click := λ _ w, (Return (), w);
  waitForTimeout := λ _ w, (Return (), w);
  serpDigest := λ w, (Return (js "0123456789abcdef"), w);
  findPAAContainer := λ w, (Return (sc_container w), w);
  outerHTML := λ w, (Return (js "<div>"), w);
  screenshotContainer := λ w, (Return (js "crop"), w);
  screenshotPage := λ w,
    (if sc_pageFails w then Throw (js "page crashed")
     else Return (js "page"), w);
  getAccordionItems := scriptedListing;
  findButton := λ _ w, (Return (sc_buttons w), w);
  waitForChildrenInjected := λ _ w, (Return (), w);
  dateNow := scriptedClock;
  close := scriptedClose
|}.

(** A page with three questions, for the examples. *)
Definition threeQuestions : list AccordionItem :=
  [ {| acc_question := js "What is SEO?"; acc_orderIdx := 0;
       acc_path := js ">DIV:nth-child(1)" |};
    {| acc_question := js "How does SEO work?"; acc_orderIdx := 1;
       acc_path := js ">DIV:nth-child(2)" |};
    {| acc_question := js "Is SEO free?"; acc_orderIdx := 2;
       acc_path := js ">DIV:nth-child(3)" |} ].

Definition examplePage (closeFailures : nat) : Script :=
  {| sc_listings := [threeQuestions; threeQuestions; threeQuestions];
     sc_container := true; sc_buttons := true; sc_clock := 0; sc_tick := 1;
     sc_closeFailures := closeFailures; sc_pageFails := false |}.

(** A page that shows its third question to the first run only. *)
Definition fadingPage : Script :=
  {| sc_listings := [threeQuestions; take 2 threeQuestions];
     sc_container := true; sc_buttons := true; sc_clock := 0; sc_tick := 1;
     sc_closeFailures := 0; sc_pageFails := false |}.

(** A page with two questions that differ where one has a digit and the
    other the question mark. *)
Definition digitsPage : Script :=
  {| sc_listings :=
       [ [ {| acc_question := js "Top 10?"; acc_orderIdx := 0;
              acc_path := js ">DIV:nth-child(1)" |};
           {| acc_question := js "Top 1?"; acc_orderIdx := 1;
              acc_path := js ">DIV:nth-child(2)" |} ] ];
     sc_container := true; sc_buttons := true; sc_clock := 0; sc_tick := 1;
     sc_closeFailures := 0; sc_pageFails := false |}.

Definition exampleParams (depth k : Z) (strict : bool) : PAAParams :=
  {| keyword := js "seo"; gl := js "US"; hl := js "en"; device := mobile;
     p_depth := depth; p_k := k; uule := None; p_strict := strict |}.

Definition exampleConfig (maxNodes : Z) : Config :=
  {| proxy := None; maxNodes := maxNodes; maxMs := 45000 |}.

(** ** worker/src/utils/questions.ts: the type and the priority of a
    question *)

(** The type [QuestionType]: ['definition'], ['steps'], ['list'],
    ['comparison'], ['explanation'], ['yesno'] and ['paragraph']. *)
Inductive QuestionType :=
| QDefinition | QSteps | QList | QComparison | QExplanation | QYesNo
| QParagraph.

(** [s.includes(pat)] *)
Fixpoint includes (s pat : jsstring) : bool :=
  startsWith pat s
  || match s with
     | [] => false
     | _ :: r => includes r pat
     end.

Definition detectQuestionType `{Unicode} (question : jsstring)
  : QuestionType :=
  let q := trim (toLowerCase question) in
  if startsWith (js "what is") q || startsWith (js "what are") q
     || startsWith (js "what does") q || startsWith (js "what's") q
  then QDefinition
  else if startsWith (js "how to") q || startsWith (js "how do") q
          || startsWith (js "how can") q || startsWith (js "how does") q
  then QSteps
  else if includes q (js " vs ") || includes q (js " vs. ")
          || includes q (js " versus ")
          || includes q (js "difference between")
          || includes q (js "compared to") || includes q (js "comparison")
  then QComparison
  else if startsWith (js "best ") q || startsWith (js "top ") q
          || startsWith (js "most ") q || includes q (js "best ")
          || includes q (js "examples of") || includes q (js "types of")
          || includes q (js "list of")
  then QList
  else if startsWith (js "why ") q || startsWith (js "why do") q
          || startsWith (js "why does") q
  then QExplanation
  else if startsWith (js "can ") q || startsWith (js "is ") q
          || startsWith (js "are ") q || startsWith (js "does ") q
          || startsWith (js "do ") q || startsWith (js "will ") q
          || startsWith (js "should ") q || startsWith (js "could ") q
          || startsWith (js "would ") q
  then QYesNo
  else QParagraph.

(** [calculatePriorityScore].  [timesSeen] is the integer of the column
    [times_seen]; [now] is [Date.now()] and [firstSeenAt] the time value
    of the date, in milliseconds, [None] for an invalid date, whose time
    value is NaN; [questionType] is [None] for a null column.  The hours
    since the first sighting are a binary64 quotient, as in the source;
    the comparison with a NaN is false. *)
Definition hoursSince (now : Z) (firstSeenAt : option Z) : float :=
  match firstSeenAt with
  | Some t => (floatOfZ (now - t) / floatOfZ (1000 * 60 * 60))%float
  | None => PrimFloat.nan
  end.

Definition calculatePriorityScore (timesSeen : Z) (now : Z)
    (firstSeenAt : option Z) (questionType : option QuestionType) : Z :=
  let score := 50 in
  let score := score + Z.min (timesSeen * 10) 30 in
  let hoursSinceFirstSeen := hoursSince now firstSeenAt in
  let score :=
    if PrimFloat.leb hoursSinceFirstSeen 48 then score + 20 else score in
  let score :=
    match questionType with
    | Some QSteps | Some QList => score + 10
    | _ => score
    end in
  Z.min score 100.

(** ** worker/src/utils/questions.ts: [encodeUULE] *)

(** [Buffer.from(s, 'utf8')]: the bytes of the UTF-8 encoding of [s],
    where a lone surrogate is encoded as U+FFFD. *)
Definition bufferFromUtf8 (s : jsstring) : list N :=
  s ≫= (λ c, utf8 (if isSurrogate c then 0xFFFD%N else c)).

(** [`w+CAIQICI${b}`], with [b] the base64 text of the bytes of the
    place. *)
Definition encodeUULE (place : jsstring) : jsstring :=
  js "w+CAIQICI" ++ base64 (bufferFromUtf8 place).

(** ** worker/src/utils/html.ts, services/claude.ts and
    tracker/notifications.ts: escaping *)

(** [s.replace(/c/g, by)] for a pattern of one character. *)
Definition replaceChar (c : N) (replacement : jsstring) (s : jsstring)
  : jsstring :=
  s ≫= (λ x, if (x =? c)%N then replacement else [x]).

(** [escapeHTML], the same function in html.ts and in claude.ts. *)
Definition escapeHTML (text : jsstring) : jsstring :=
  replaceChar 39 (js "&#039;")
    (replaceChar 34 (js "&quot;")
       (replaceChar 62 (js "&gt;")
          (replaceChar 60 (js "&lt;")
             (replaceChar 38 (js "&amp;") text)))).

(** [escapeHtml] of notifications.ts, which has no rule for the
    apostrophe. *)
Definition escapeHtml (text : jsstring) : jsstring :=
  replaceChar 34 (js "&quot;")
    (replaceChar 62 (js "&gt;")
       (replaceChar 60 (js "&lt;")
          (replaceChar 38 (js "&amp;") text))).

(** [s.replace(/[class]+/g, by)]: every run of characters of the class
    becomes one [by]; [inRun] tells that the previous character was of
    the class. *)
Fixpoint replaceRunsFrom (inClass : N → bool) (replacement : N)
    (inRun : bool) (s : jsstring) : jsstring :=
  match s with
  | [] => []
  | c :: r =>
      if inClass c
      then (if inRun then replaceRunsFrom inClass replacement true r
            else replacement :: replaceRunsFrom inClass replacement true r)
      else c :: replaceRunsFrom inClass replacement false r
  end.

Definition replaceRuns (inClass : N → bool) (replacement : N)
    (s : jsstring) : jsstring :=
  replaceRunsFrom inClass replacement false s.

(** [slugify]: the class [[\w\s-]] is kept, runs of white space and then
    runs of hyphens become one hyphen, and the first 100 characters are
    taken. *)
Definition slugify `{Unicode} (text : jsstring) : jsstring :=
  take 100
    (replaceRuns (λ c, (c =? 45)%N) 45
       (replaceRuns isWhiteSpace 45
          (List.filter (λ c, isWordChar c || isWhiteSpace c || (c =? 45)%N)
             (toLowerCase text)))).

(** [escapeCSV] *)
Definition escapeCSV (text : jsstring) : jsstring :=
  if includes text [44%N] || includes text [34%N] || includes text [10%N]
  then [34%N] ++ replaceChar 34 [34%N; 34%N] text ++ [34%N]
  else text.

(** [array.join(sep)] *)
Fixpoint join (sep : jsstring) (l : list jsstring) : jsstring :=
  match l with
  | [] => []
  | [x] => x
  | x :: r => x ++ sep ++ join sep r
  end.

(** [String(n)] for an integer below 1e21 in size: its decimal digits. *)
Definition numberToString (n : Z) : jsstring :=
  N_of_ascii <$> list_ascii_of_string (NilEmpty.string_of_int (Z.to_int n)).

(** An entry of the argument of [generateCSV]: [parent] and [position]
    are optional ([None] is undefined or null). *)
Record CsvQuestion := {
  csv_question : jsstring;
  csv_type : jsstring;
  csv_parent : option jsstring;
  csv_position : option Z
}.

Definition csvHeaders : list jsstring :=
  [ js "Question"; js "Type"; js "Parent Question"; js "Position" ].

(** The row of a question: [q.parent || ''] and
    [String(q.position ?? '')]. *)
Definition csvRow (q : CsvQuestion) : list jsstring :=
  [ escapeCSV (csv_question q);
    escapeCSV (csv_type q);
    escapeCSV (default [] (csv_parent q));
    match csv_position q with
    | Some p => numberToString p
    | None => []
    end ].

Definition generateCSV (questions : list CsvQuestion) : jsstring :=
  let rows := csvRow <$> questions in
  join [10%N] (join [44%N] csvHeaders :: (join [44%N] <$> rows)).

(** ** worker/src/routes/user.ts: [isValidEmail] *)

(** The patterns the regular expression of [isValidEmail] is written
    with: a character, one or more characters of a class, and one pattern
    followed by another. *)
Inductive Pattern :=
| literal (c : N)
| oneOrMore (inClass : N → bool)
| andThen (p q : Pattern).

(** [/^p$/.test(s)]: the whole of [s] matches [p].  A text matches
    [p] followed by [q] when it can be cut in two so that the first part
    matches [p] and the second [q]. *)
Fixpoint testPattern (p : Pattern) (s : jsstring) : bool :=
  match p with
  | literal c => match s with [x] => (x =? c)%N | _ => false end
  | oneOrMore inClass =>
      match s with [] => false | _ :: _ => forallb inClass s end
  | andThen p q =>
      existsb (λ i, testPattern p (take i s) && testPattern q (drop i s))
        (seq 0 (S (length s)))
  end.

(** The class [[^\s@]].  A character outside the Basic Multilingual Plane
    is two code units for the expression, both of the class. *)
Definition notSpaceOrAt (c : N) : bool :=
  negb (isWhiteSpace c || (c =? 64)%N).

(** [/^[^\s@]+@[^\s@]+\.[^\s@]+$/.test(email)] *)
Definition isValidEmail (email : jsstring) : bool :=
  testPattern
    (andThen (oneOrMore notSpaceOrAt)
       (andThen (literal 64)
          (andThen (oneOrMore notSpaceOrAt)
             (andThen (literal 46) (oneOrMore notSpaceOrAt)))))
    email.

(** ** worker/src/middleware/auth.ts: tiers *)

Inductive Tier := free | pro | agency.

Record PlanConnection := {
  planId : jsstring;
  planName : jsstring
}.

Definition determineTierFromPlan `{Unicode}
    (planConnections : list PlanConnection) : Tier :=
  let planNames := (λ p, toLowerCase (planName p)) <$> planConnections in
  if existsb (λ name, includes name (js "agency")) planNames then agency
  else if existsb (λ name, includes name (js "pro")) planNames then pro
  else free.

Record TierLimits := {
  keywords : Z;
  api_calls : Z
}.

Definition getTierLimits (tier : Tier) : TierLimits :=
  match tier with
  | free => {| keywords := 3; api_calls := 50 |}
  | pro => {| keywords := 25; api_calls := 3000 |}
  | agency => {| keywords := 100; api_calls := 15000 |}
  end.

(** ** worker/src/tracker/notifications.ts: [groupChanges] *)

(** A row of the query of [sendChangeNotifications], with the columns
    [groupChanges] reads and the [user_id] of the project. *)
Record ChangeRow := {
  row_id : jsstring;
  row_keyword : jsstring;
  row_project_id : jsstring;
  row_project_name : jsstring;
  row_change_type : jsstring;
  row_question : jsstring;
  row_new_position : option Z;
  row_user_id : jsstring
}.

Record NotifiedChange := {
  nc_type : jsstring;
  nc_question : jsstring;
  nc_position : option Z
}.

Record ChangeNotification := {
  projectId : jsstring;
  projectName : jsstring;
  cn_keyword : jsstring;
  cn_changes : list NotifiedChange
}.

(** The key of the map of [groupChanges]:
    [`${change.project_id}:${change.keyword}`]. *)
Definition groupKeyOf (change : ChangeRow) : jsstring :=
  row_project_id change ++ js ":" ++ row_keyword change.

Definition notifiedChange (change : ChangeRow) : NotifiedChange :=
  {| nc_type := row_change_type change;
     nc_question := row_question change;
     nc_position := row_new_position change |}.

(** The body of the loop of [groupChanges]: the group of the key is
    created when the map has none, and the change is pushed to it. *)
Definition groupChange (grouped : JsMap ChangeNotification)
    (change : ChangeRow) : JsMap ChangeNotification :=
  let key := groupKeyOf change in
  let grouped :=
    match mapGet grouped key with
    | Some _ => grouped
    | None =>
        mapSet grouped key
          {| projectId := row_project_id change;
             projectName := row_project_name change;
             cn_keyword := row_keyword change;
             cn_changes := [] |}
    end in
  match mapGet grouped key with
  | Some group =>
      mapSet grouped key
        {| projectId := projectId group;
           projectName := projectName group;
           cn_keyword := cn_keyword group;
           cn_changes := cn_changes group ++ [notifiedChange change] |}
  | None => grouped
  end.

Definition groupChanges (changes : list ChangeRow)
  : list ChangeNotification :=
  (fold_left groupChange changes []).*2.

(** ** The tasks of the worker

    A task of the worker ends in an [outcome] too; it changes the world
    [W] it runs in (the network and the database) and leaves a record of
    what it has asked of it. *)

Inductive Effect :=
| search_request (keyword region : jsstring)
| settings_read (userId : jsstring) (found : bool)
| email_post (to subject : jsstring) (threw : bool)
| webhook_post (url : jsstring) (threw : bool)
| marked_notified (ids : list jsstring).

Definition Task (W A : Type) : Type :=
  W * list Effect → outcome A * (W * list Effect).

Definition taskRet {W A} (a : A) : Task W A := λ s, (Return a, s).

Definition taskBind {W A B} (m : Task W A) (f : A → Task W B) : Task W B :=
  λ s, match m s with
       | (Return a, s') => f a s'
       | (Throw e, s') => (Throw e, s')
       | (OutOfFuel, s') => (OutOfFuel, s')
       end.

Definition taskThrow {W A} (e : Error) : Task W A := λ s, (Throw e, s).

(** [try { m } catch (e) { handler e }] *)
Definition taskTry {W A} (m : Task W A) (handler : Error → Task W A)
  : Task W A :=
  λ s, match m s with
       | (Throw e, s') => handler e s'
       | r => r
       end.

(** An operation of the world, with the entries [effect] gives for its
    outcome added to the record. *)
Definition perform {W A} (effect : outcome A → list Effect)
    (op : W → outcome A * W) : Task W A :=
  λ '(w, log), let '(r, w') := op w in (r, (w', log ++ effect r)).

#[global] Instance Task_ret {W} : MRet (Task W) := λ A a, taskRet a.
#[global] Instance Task_bind {W} : MBind (Task W) :=
  λ A B f m, taskBind m f.

(** [for (const [i, x] of l.entries()) out.push(await f(i, x))], counting
    from [i]. *)
Fixpoint forEachFrom {W A B} (f : Z → A → Task W B) (i : Z) (l : list A)
  : Task W (list B) :=
  match l with
  | [] => taskRet []
  | x :: r => y ← f i x; ys ← forEachFrom f (i + 1) r; taskRet (y :: ys)
  end.

(** [l.map((x, i) => f(x, i))], counting from [i]. *)
Fixpoint mapFrom {A B} (f : A → Z → B) (i : Z) (l : list A) : list B :=
  match l with
  | [] => []
  | x :: r => f x i :: mapFrom f (i + 1) r
  end.

(** ** worker/src/tracker/notifications.ts: [sendChangeNotifications] *)

(** The columns of [user_settings] the notifications read. *)
Record UserSettings := {
  email : option jsstring;
  email_notifications : bool;
  webhook_url : option jsstring
}.

(** The database and the network of the notifications: the query for the
    changes not notified yet ([results] may be undefined), the settings of
    a user, the request to the mail service with the subject and the
    groups the body is written from, the request to the webhook, and the
    statement that marks the changes of the given ids.  A query or a
    request may throw. *)
Class Notifier (W : Type) := {
  selectUnnotified : W → outcome (option (list ChangeRow)) * W;
  selectUserSettings : jsstring → W → outcome (option UserSettings) * W;
  postEmail :
    jsstring → jsstring → list ChangeNotification → W → outcome unit * W;
  postWebhook : jsstring → list ChangeNotification → W → outcome unit * W;
  updateNotified : list jsstring → W → outcome unit * W
}.

(** The body of the loop that fills [changesByUser]. *)
Definition addChange (changesByUser : JsMap (list ChangeRow))
    (change : ChangeRow) : JsMap (list ChangeRow) :=
  let userId := row_user_id change in
  let changesByUser :=
    match mapGet changesByUser userId with
    | Some _ => changesByUser
    | None => mapSet changesByUser userId []
    end in
  match mapGet changesByUser userId with
  | Some changes => mapSet changesByUser userId (changes ++ [change])
  | None => changesByUser
  end.

(** [`PAA Tracker: ${totalChanges} change${totalChanges > 1 ? 's' : ''}
    detected`] *)
Definition emailSubject (totalChanges : Z) : jsstring :=
  js "PAA Tracker: " ++ numberToString totalChanges ++ js " change"
  ++ (if 1 <? totalChanges then js "s" else []) ++ js " detected".

Section Notifications.
Context {W : Type} `{Notifier W}.

Definition sendEmailNotification (to : jsstring)
    (notifications : list ChangeNotification) : Task W unit :=
  let totalChanges :=
    fold_left (λ sum n, sum + Z.of_nat (length (cn_changes n)))
      notifications 0 in
  perform (λ r, match r with
                | Return _ => [email_post to (emailSubject totalChanges) false]
                | Throw _ => [email_post to (emailSubject totalChanges) true]
                | OutOfFuel => []
                end)
    (postEmail to (emailSubject totalChanges) notifications).

Definition sendWebhookNotification (webhookUrl : jsstring)
    (notifications : list ChangeNotification) : Task W unit :=
  perform (λ r, match r with
                | Return _ => [webhook_post webhookUrl false]
                | Throw _ => [webhook_post webhookUrl true]
                | OutOfFuel => []
                end)
    (postWebhook webhookUrl notifications).

(** The body of the loop over the users: [entry] is the user and the
    changes of the user, [notificationsSent] the counter, which the body
    gives back. *)
Definition notifyUser (notificationsSent : Z)
    (entry : jsstring * list ChangeRow) : Task W Z :=
  let '(userId, changes) := entry in
  userSettings ←
    perform (λ r, match r with
                  | Return (Some _) => [settings_read userId true]
                  | Return None => [settings_read userId false]
                  | _ => []
                  end)
      (selectUserSettings userId);
  match userSettings with
  | None => taskRet notificationsSent
  | Some userSettings =>
      let groupedChanges := groupChanges changes in
      notificationsSent ←
        match email_notifications userSettings, email userSettings with
        | true, Some (c :: to) =>
            taskTry
              (_ ← sendEmailNotification (c :: to) groupedChanges;
               taskRet (notificationsSent + 1))
              (λ _, taskRet notificationsSent)
        | _, _ => taskRet notificationsSent
        end;
      _ ← match webhook_url userSettings with
          | Some (c :: url) =>
              taskTry (sendWebhookNotification (c :: url) groupedChanges)
                (λ _, taskRet ())
          | _ => taskRet ()
          end;
      let changeIds := row_id <$> changes in
      _ ← match changeIds with
          | _ :: _ =>
              perform (λ r, match r with
                            | Return _ => [marked_notified changeIds]
                            | _ => []
                            end)
                (updateNotified changeIds)
          | [] => taskRet ()
          end;
      taskRet notificationsSent
  end.

Fixpoint notifyUsers (notificationsSent : Z)
    (entries : list (jsstring * list ChangeRow)) : Task W Z :=
  match entries with
  | [] => taskRet notificationsSent
  | entry :: rest =>
      notificationsSent ← notifyUser notificationsSent entry;
      notifyUsers notificationsSent rest
  end.

Definition sendChangeNotifications : Task W Z :=
  unnotifiedChanges ← perform (λ _, []) selectUnnotified;
  match unnotifiedChanges with
  | None | Some [] => taskRet 0
  | Some results =>
      let changesByUser := fold_left addChange results [] in
      notifyUsers 0 changesByUser
  end.

End Notifications.

(** ** worker/src/services/serpapi.ts *)

(** An entry of [related_questions] in the answer of SerpAPI. *)
Record RelatedQuestion := {
  rq_question : jsstring;
  rq_snippet : option jsstring;
  rq_link : option jsstring;
  rq_title : option jsstring
}.

Record SerpAPIResponse := {
  related_questions : option (list RelatedQuestion);
  sr_error : option jsstring
}.

(** What [fetch] resolves to, as far as [fetchSingleLevel] reads it:
    [json] is what [response.json()] gives, which may throw. *)
Record Response := {
  ok : bool;
  status : Z;
  statusText : jsstring;
  json : outcome SerpAPIResponse
}.

(** The network: the request of [fetchSingleLevel] for a keyword and a
    region (the other parameters of the query are constants and the key
    of the environment).  [fetch] resolves to a response or rejects. *)
Class SerpApi (W : Type) := {
  fetchSearch : jsstring → jsstring → W → outcome Response * W
}.

(** The type [PAAFetchResult] with all its fields, the children
    included. *)
#[local] Unset Elimination Schemes.
Inductive PAAFetchTree := {
  ft_question : jsstring;
  ft_type : QuestionType;
  ft_snippet : option jsstring;
  ft_source_url : option jsstring;
  ft_position : Z;
  ft_children : list PAAFetchTree
}.
#[local] Set Elimination Schemes.

(** [{ ...q, position: index, children }] *)
Definition withChildren (q : PAAFetchTree) (index : Z)
    (children : list PAAFetchTree) : PAAFetchTree :=
  {| ft_question := ft_question q;
     ft_type := ft_type q;
     ft_snippet := ft_snippet q;
     ft_source_url := ft_source_url q;
     ft_position := index;
     ft_children := children |}.

Section SerpApiCalls.
Context {W : Type} `{SerpApi W} `{Unicode}.

Definition fetchSingleLevel (keyword region : jsstring)
  : Task W (list PAAFetchTree) :=
  response ← perform (λ _, [search_request keyword region])
                (fetchSearch keyword region);
  if negb (ok response) then
    taskThrow (js "SerpAPI error: " ++ numberToString (status response)
               ++ js " " ++ statusText response)
  else
    data ← (λ s, (json response, s));
    match sr_error data with
    | Some (c :: e) => taskThrow (js "SerpAPI error: " ++ c :: e)
    | _ =>
        let relatedQuestions := default [] (related_questions data) in
        taskRet
          (mapFrom (λ q index,
                      {| ft_question := rq_question q;
                         ft_type := detectQuestionType (rq_question q);
                         ft_snippet := rq_snippet q;
                         ft_source_url := rq_link q;
                         ft_position := index;
                         ft_children := [] |})
             0 relatedQuestions)
    end.

(** The function [fetchPAAFromSerp] maps over the questions to expand:
    the children are fetched and the first three are kept; a failure
    leaves the question without children. *)
Definition expandQuestion
    (fetchChildren : jsstring → Task W (list PAAFetchTree))
    (index : Z) (q : PAAFetchTree) : Task W PAAFetchTree :=
  taskTry
    (children ← fetchChildren (ft_question q);
     taskRet (withChildren q index (take 3 children)))
    (λ _, taskRet (withChildren q index [])).

(** [fetchPAAFromSerp] for a depth that is a natural number.  The
    expansions of [Promise.all] are run one after the other, in the order
    of the array. *)
Fixpoint fetchToDepth (depth : nat) (keyword region : jsstring)
  : Task W (list PAAFetchTree) :=
  questions ← fetchSingleLevel keyword region;
  match depth with
  | O => taskRet questions
  | S depth' =>
      match questions with
      | [] => taskRet questions
      | _ :: _ =>
          let toExpand := take 5 questions in
          expanded ←
            forEachFrom
              (expandQuestion
                 (match depth' with
                  | O => λ question, fetchSingleLevel question region
                  | S _ => λ question, fetchToDepth depth' question region
                  end))
              0 toExpand;
          let remaining :=
            mapFrom (λ q i, withChildren q (i + 5) []) 0
              (drop 5 questions) in
          taskRet (expanded ++ remaining)
      end
  end.

(** [fetchPAAFromSerp], for an integer [depth]: a depth of 0 or less
    stops at the first level. *)
Definition fetchPAAFromSerp (keyword region : jsstring) (depth : Z)
  : Task W (list PAAFetchTree) :=
  fetchToDepth (Z.to_nat depth) keyword region.

End SerpApiCalls.

Definition calculateAPICalls (depth : Z) : Z :=
  if depth =? 0 then 1
  else if depth =? 1 then 6
  else if depth =? 2 then 21
  else 1.

(** ** worker/src/routes/paa.ts: [countQuestions] *)

(** What the loop of [countQuestions] adds for the question [q]: the
    count of its children, when it has some. *)
Fixpoint countBelow (q : PAAFetchTree) : Z :=
  match ft_children q with
  | [] => 0
  | children =>
      Z.of_nat (length children) + foldr Z.add 0 (countBelow <$> children)
  end.

Definition countQuestions (questions : list PAAFetchTree) : Z :=
  Z.of_nat (length questions) + foldr Z.add 0 (countBelow <$> questions).

(** A network for the examples, where every search finds the same five
    questions. *)
Inductive SteadyNet := steadyNet.

Definition fiveQuestions : list RelatedQuestion :=
  (λ q, {| rq_question := js q; rq_snippet := None; rq_link := None;
           rq_title := None |})
  <$> [ "what is seo"; "how does seo work"; "is seo free";
        "why is seo important"; "best seo tools" ]%string.

#[global] Instance steadySerp : SerpApi SteadyNet := {|
  fetchSearch := λ _ _ w,
    (Return {| ok := true; status := 200; statusText := js "OK";
               json := Return {| related_questions := Some fiveQuestions;
                                 sr_error := None |} |}, w)
|}.

(** A page for the examples whose listing grows when a question is
    expanded: the second listing holds a fourth question. *)
Definition answeredPage : Script :=
  {| sc_listings :=
       [ threeQuestions;
         threeQuestions
         ++ [ {| acc_question := js " Why is SEO important? ";
                 acc_orderIdx := 3;
                 acc_path := js ">DIV:nth-child(4)" |} ] ];
     sc_container := true; sc_buttons := true; sc_clock := 0; sc_tick := 1;
     sc_closeFailures := 0; sc_pageFails := false |}.

(** A database and a network for the examples: the rows of the query, the
    settings of the users that have some, and whether the mail service can
    be reached. *)
Record Mailbox := {
  mb_rows : list ChangeRow;
  mb_settings : JsMap UserSettings;
  mb_mailFails : bool
}.

#[global] Instance mailboxNotifier : Notifier Mailbox := {|
  selectUnnotified := λ w, (Return (Some (mb_rows w)), w);
  selectUserSettings := λ userId w, (Return (mapGet (mb_settings w) userId), w);
  postEmail := λ _ _ _ w,
    (if mb_mailFails w then Throw (js "fetch failed") else Return (), w);
  postWebhook := λ _ _ w, (Return (), w);
  updateNotified := λ _ w, (Return (), w)
|}.

Definition exampleChange (id userId question : string) : ChangeRow :=
  {| row_id := js id; row_keyword := js "seo"; row_project_id := js "p1";
     row_project_name := js "Site"; row_change_type := js "added";
     row_question := js question; row_new_position := Some 0;
     row_user_id := js userId |}.

(** Three changes of two users; only the first user has settings, and the
    mail service cannot be reached. *)
Definition exampleMailbox : Mailbox :=
  {| mb_rows := [ exampleChange "c1" "ann" "what is seo";
                  exampleChange "c2" "bob" "is seo free";
                  exampleChange "c3" "ann" "how does seo work" ];
     mb_settings :=
       [ (js "ann", {| email := Some (js "ann@example.com");
                       email_notifications := true;
                       webhook_url := None |}) ];
     mb_mailFails := true |}.

(** ** Vocabulary of the properties *)


(** The ASCII punctuation characters, from [!] to [~]. *)
Definition isPunctuation (c : N) : bool :=
  ((33 <=? c) && (c <=? 47) || (58 <=? c) && (c <=? 64)
   || (91 <=? c) && (c <=? 96) || (123 <=? c) && (c <=? 126))%N.

(** The characters [normalizeQuestion] erases: those outside the class
    [[\w\s']]. *)
Definition isErased (c : N) : bool := negb (isKept c).

(** Among them is all the ASCII punctuation except the apostrophe, which
    the expression keeps for contractions, and the underscore, which is a
    word character. *)
Definition isErasedPunctuation (c : N) : bool :=
  isPunctuation c && negb (c =? 39)%N && negb (c =? 95)%N.

Definition isWhiteSpaceAt (c : option N) : bool :=
  match c with Some c => isWhiteSpace c | None => true end.

(** A character of a normalized question: a word character, an apostrophe
    or a space. *)
Definition isPlain (c : N) : bool :=
  isWordChar c || (c =? 39)%N || (c =? 32)%N.

(** The result of [collapseFrom]: every white space character is a space,
    and no two of them are neighbours. *)
Fixpoint singleSpaced (inRun : bool) (s : jsstring) : Prop :=
  match s with
  | [] => True
  | c :: r =>
      if isWhiteSpace c
      then c = 32%N ∧ inRun = false ∧ singleSpaced true r
      else singleSpaced false r
  end.

(** Is the scanner of [collapseFrom] inside a run of white space after
    [s]? *)
Definition endsInRun (inRun : bool) (s : jsstring) : bool :=
  match last s with Some c => isWhiteSpace c | None => inRun end.

Definition isArticle (w : jsstring) : Prop :=
  w = js "the" ∨ w = js "a" ∨ w = js "an".

(** One difference between two texts: a punctuation character, a white
    space character next to another one or at either end (extra white
    space), or, when [articles] is set, an article standing as a word. *)
Inductive differsBy (punct : N → bool) (articles : bool)
  : jsstring → jsstring → Prop :=
| extra_punctuation a p b :
    punct p = true → differsBy punct articles (a ++ b) (a ++ p :: b)
| extra_space a w b :
    isWhiteSpace w = true →
    isWhiteSpaceAt (last a) || isWhiteSpaceAt (head b) = true →
    differsBy punct articles (a ++ b) (a ++ w :: b)
| extra_article a w b :
    articles = true → isArticle w →
    wordBoundary (last a) (head w) = true →
    wordBoundary (last w) (head b) = true →
    differsBy punct articles (a ++ b) (a ++ w ++ b).

(** Two texts differ only in letter case and in differences of the kinds
    above: their lower-case forms are linked by a chain of such
    differences, added or taken away. *)
Definition differOnlyIn `{Unicode} (punct : N → bool) (articles : bool)
    (t1 t2 : jsstring) : Prop :=
  rtsc (differsBy punct articles) (toLowerCase t1) (toLowerCase t2).

(** The size of the last accordion listing a run has read, 0 when it has
    read none. *)
Definition lastListing (log : list Event) : nat :=
  fold_left (λ n e, match e with
                    | listing_read size => size
                    | _ => n
                    end) log 0%nat.

(** What the traversal maintains about its variables, for the requested
    depth [D]: no two items share a normalized text, every one of them is
    in [seen], and the depths of the items and of the queue entries lie
    between 0 and [D]. *)
Definition walkInv (D : Z) (st : Walk) : Prop :=
  NoDup (norm <$> w_items st)
  ∧ (∀ it, it ∈ w_items st → norm it ∈ seen st)
  ∧ Forall (λ it, 0 ≤ depth it ≤ Z.max 0 D) (w_items st)
  ∧ Forall (λ n, 0 ≤ q_depth n ≤ Z.max 0 D) (queue st).

(** The same about the items of a finished run. *)
Definition runInv (D : Z) (r : PAARunResult) : Prop :=
  NoDup (norm <$> items r)
  ∧ Forall (λ it, 0 ≤ depth it ≤ Z.max 0 D) (items r).

(** The items of all the runs, in the order [runConsensus] goes through
    them. *)
Definition allItems (runs : list PAARunResult) : list PAAItem :=
  concat (items <$> runs).

(** The items with a given normalized text. *)
Definition itemsOf (key : jsstring) (l : list PAAItem) : list PAAItem :=
  List.filter (λ it, sameString (norm it) key) l.

(** What the map of [runConsensus] holds for [key] once it has gone
    through the items [l]. *)
Definition samplesOf (key : jsstring) (l : list PAAItem) : Samples :=
  {| rawSamples := raw <$> itemsOf key l;
     depths := depth <$> itemsOf key l;
     parents := parent <$> itemsOf key l;
     orderIdxs := orderIdx <$> itemsOf key l |}.

(** The number of times a normalized text appears in the runs. *)
Definition appearanceCount (key : jsstring) (runs : list PAARunResult) : Z :=
  Z.of_nat (length (itemsOf key (allItems runs))).

(** The runs that hold an item of the normalized text [key]. *)
Definition runsHolding (key : jsstring) (runs : list PAARunResult)
  : list PAARunResult :=
  List.filter (λ run, bool_decide (key ∈ norm <$> items run)) runs.

(** The order of the results: more appearances first, then the smaller
    depth, then the normalized text as [localeCompare] orders it. *)
Definition resultOrder `{Unicode} (a b : ConsensusPAAResult) : Prop :=
  appearances b < appearances a
  ∨ (appearances a = appearances b
     ∧ (cr_depth a < cr_depth b
        ∨ (cr_depth a = cr_depth b
           ∧ localeCompare (cr_norm a) (cr_norm b) ≤ 0))).

(** [n / 1000] is a decimal of three places nearest to
    [0.6 * (a / K) + 0.4 * (1 / (1 + d))], as a relation between integers:
    a thousand times the score is
    [(600 * a * (1 + d) + 400 * K) / (K * (1 + d))]. *)
Definition isRounded3 (a K d n : Z) : Prop :=
  Z.abs (2 * (600 * a * (1 + d) + 400 * K) - 2 * n * (K * (1 + d)))
  ≤ K * (1 + d).

(** The map [m] is the one [runConsensus] has built when it is through the
    items [l]: one entry for each normalized text met, holding what the
    items of that text have brought. *)
Definition represents (m : JsMap Samples) (l : list PAAItem) : Prop :=
  NoDup m.*1
  ∧ (∀ it, it ∈ l → norm it ∈ m.*1)
  ∧ (∀ key v, (key, v) ∈ m → v = samplesOf key l ∧ itemsOf key l ≠ []).

(** A check, by computation, of what the confidence of [a] appearances in
    [K] runs at depth [d] is: a number of thousandths between 1 and 1000
    that is nearest to the exact score, and a value in (0, 1]. *)
Definition confidenceChecked (a K d : Z) : bool :=
  match Prim2SF (scoreOf a K d) with
  | S754_finite false m e =>
      negb (PrimFloat.leb 1e21%float (PrimFloat.abs (scoreOf a K d)))
      && (Z.abs (2 * (600 * a * (1 + d) + 400 * K)
                 - 2 * thousandths m e * (K * (1 + d)))
          <=? K * (1 + d))
      && (0 <? thousandths m e) && (thousandths m e <=? 1000)
      && PrimFloat.ltb 0%float (confidenceOf a K d)
      && PrimFloat.leb (confidenceOf a K d) 1%float
  | _ => false
  end.

(** ** More vocabulary *)

(** The number of times [s] occurs in [arr]. *)
Definition occurrences (s : jsstring) (arr : list jsstring) : Z :=
  Z.of_nat (length (List.filter (sameString s) arr)).

(** The entries of [countStrings]: one for each string of the array, in
    the order of the first occurrences, with the number of occurrences. *)
Definition counted (m : JsMap Z) (arr : list jsstring) : Prop :=
  NoDup m.*1
  ∧ (∀ k v, (k, v) ∈ m ↔ k ∈ arr ∧ v = occurrences k arr)
  ∧ (∀ l1 a l2 b, m = l1 ++ a :: l2 → b ∈ l2 →
       findIndex (sameString a.1) arr < findIndex (sameString b.1) arr).

(** The parent of an item or of a queue entry at depth [d] is in order when
    the normalized texts [known] have been recorded: none at depth 0, one
    of [known] below. *)
Definition parentOk (known : list jsstring) (d : Z) (p : option jsstring)
  : Prop :=
  match p with
  | None => d = 0
  | Some x => 0 < d ∧ x ∈ known
  end.

(** Every item of [l] comes after the item its parent names, [known] being
    the normalized texts recorded before [l]. *)
Fixpoint parentsFirst (known : list jsstring) (l : list PAAItem) : Prop :=
  match l with
  | [] => True
  | it :: r =>
      parentOk known (depth it) (parent it)
      ∧ parentsFirst (known ++ [norm it]) r
  end.

(** What the traversal maintains about the texts and the parents: an item
    holds the trimmed text of its accordion entry and the normalization of
    it, [seen] holds the normalized texts of the items, and the parents of
    the items and of the queue entries have been recorded. *)
Definition walkTree `{Unicode} (st : Walk) : Prop :=
  Forall (λ it, norm it = normalize (raw it) ∧ trim (raw it) = raw it)
    (w_items st)
  ∧ (∀ x, x ∈ seen st ↔ x ∈ norm <$> w_items st)
  ∧ parentsFirst [] (w_items st)
  ∧ Forall (λ n, parentOk (norm <$> w_items st) (q_depth n) (q_parent n))
      (queue st).


(** The number of calls of [c] on the browser that a run has recorded. *)
Definition countCalls (c : Call) (log : list Event) : nat :=
  length (List.filter (λ e, match e, c with
                            | browser_call call_launch _, call_launch => true
                            | browser_call call_close _, call_close => true
                            | _, _ => false
                            end) log).

(** Three runs that have met one question under two spellings and at three
    depths, and a second question once. *)
Definition mixedRuns : list PAARunResult :=
  let item r n d p :=
    {| raw := js r; norm := js n; depth := d; parent := p;
       domPath := []; orderIdx := 0 |} in
  let run l :=
    {| items := l;
       evidence := {| fullScreenshotB64 := None; paaHtml := None;
                      paaCropsB64 := None |};
       serpHash := js "nohash" |} in
  [ run [ item "Is SEO free?" "is seo free?" 0 None;
          item "What is SEO?" "what is seo?" 1 (Some (js "is seo free?")) ];
    run [ item "what is seo?" "what is seo?" 0 None ];
    run [ item "What is SEO?" "what is seo?" 2 (Some (js "is seo free?")) ] ].

(** A character of the base64 alphabet, or the padding [=]. *)
Definition isBase64Char (c : N) : bool :=
  ((65 <=? c) && (c <=? 90) || (97 <=? c) && (c <=? 122)
   || (48 <=? c) && (c <=? 57) || (c =? 43) || (c =? 47) || (c =? 61))%N.

(** [j] is the index of the first entry of [previous] with the hash [h]. *)
Definition firstIndexOf (h : jsstring) (previous : list PrevQuestion) (j : Z)
  : Prop :=
  ∃ n : nat, j = Z.of_nat n
    ∧ (pq_hash <$> previous) !! n = Some h
    ∧ h ∉ take n (pq_hash <$> previous).

(** The openers and the markers [detectQuestionType] looks for. *)
Definition definitionOpeners : list string :=
  [ "what is"; "what are"; "what does"; "what's" ]%string.

Definition stepsOpeners : list string :=
  [ "how to"; "how do"; "how can"; "how does" ]%string.

Definition comparisonMarkers : list string :=
  [ " vs "; " vs. "; " versus "; "difference between"; "compared to";
    "comparison" ]%string.

Definition listOpeners : list string := [ "top "; "most " ]%string.

Definition listMarkers : list string :=
  [ "best "; "examples of"; "types of"; "list of" ]%string.

Definition yesnoOpeners : list string :=
  [ "can "; "is "; "are "; "does "; "do "; "will "; "should "; "could ";
    "would " ]%string.

(** The text [q] opens with one of [openers]. *)
Definition opensWith (openers : list string) (q : jsstring) : bool :=
  existsb (λ p, startsWith (js p) q) openers.

(** The text [q] holds one of [markers] somewhere. *)
Definition holdsOneOf (markers : list string) (q : jsstring) : bool :=
  existsb (λ p, includes q (js p)) markers.

(** No text opens with one of [l1] and with one of [l2]: none of them is
    the beginning of one of the others. *)
Definition apart (l1 l2 : list string) : bool :=
  forallb (λ a, forallb (λ b, negb (startsWith (js a) (js b)
                                    || startsWith (js b) (js a))) l2) l1.

(** What [escapeHTML] writes for one character. *)
Definition htmlEntityOf (c : N) : jsstring :=
  if (c =? 38)%N then js "&amp;"
  else if (c =? 60)%N then js "&lt;"
  else if (c =? 62)%N then js "&gt;"
  else if (c =? 34)%N then js "&quot;"
  else if (c =? 39)%N then js "&#039;"
  else [c].

(** No two characters of the class are neighbours in [s]; [prevIn] tells
    that the character before [s] is of the class. *)
Fixpoint runFree (inClass : N → bool) (prevIn : bool) (s : jsstring)
  : Prop :=
  match s with
  | [] => True
  | c :: r =>
      if inClass c then prevIn = false ∧ runFree inClass true r
      else runFree inClass false r
  end.

(** The higher of two tiers. *)
Definition maxTier (s t : Tier) : Tier :=
  match s, t with
  | agency, _ | _, agency => agency
  | pro, _ | _, pro => pro
  | free, free => free
  end.

(** The key a group of [groupChanges] stands for. *)
Definition groupKey (g : ChangeNotification) : jsstring :=
  projectId g ++ js ":" ++ cn_keyword g.

(** The changes of [l] that go to the group of [key]. *)
Definition changesOf (key : jsstring) (l : list ChangeRow)
  : list NotifiedChange :=
  notifiedChange <$> List.filter (λ c, sameString (groupKeyOf c) key) l.

(** The map [m] is the one [groupChanges] has built when it is through the
    changes [l]. *)
Definition grouped (m : JsMap ChangeNotification) (l : list ChangeRow)
  : Prop :=
  NoDup m.*1
  ∧ (∀ c, c ∈ l → groupKeyOf c ∈ m.*1)
  ∧ (∀ key g, (key, g) ∈ m →
       groupKey g = key ∧ cn_changes g = changesOf key l
       ∧ cn_changes g ≠ []).

(** Reading a CSV text by the rules of RFC 4180, with the line feed as
    the end of a record: commas part the fields, a field that opens with a
    quotation mark runs to the closing one, and a doubled quotation mark
    inside it stands for one.  [mode] tells where the reader is: at the
    start of a field, inside a plain one, inside the quotation marks, or
    behind a quotation mark met inside them. *)
Inductive CsvMode := csv_start | csv_plain | csv_quoted | csv_closed.

Fixpoint readCSVFrom (mode : CsvMode) (field : jsstring)
    (record : list jsstring) (s : jsstring) : list (list jsstring) :=
  match s with
  | [] => [record ++ [field]]
  | c :: r =>
      match mode with
      | csv_quoted =>
          if (c =? 34)%N then readCSVFrom csv_closed field record r
          else readCSVFrom csv_quoted (field ++ [c]) record r
      | _ =>
          if (c =? 34)%N then
            match mode with
            | csv_start => readCSVFrom csv_quoted field record r
            | csv_closed => readCSVFrom csv_quoted (field ++ [c]) record r
            | _ => readCSVFrom csv_plain (field ++ [c]) record r
            end
          else if (c =? 44)%N then
            readCSVFrom csv_start [] (record ++ [field]) r
          else if (c =? 10)%N then
            (record ++ [field]) :: readCSVFrom csv_start [] [] r
          else readCSVFrom csv_plain (field ++ [c]) record r
      end
  end.

Definition readCSV (s : jsstring) : list (list jsstring) :=
  readCSVFrom csv_start [] [] s.

(** The four values [generateCSV] writes for a question. *)
Definition csvValues (q : CsvQuestion) : list jsstring :=
  [ csv_question q;
    csv_type q;
    default [] (csv_parent q);
    match csv_position q with
    | Some p => numberToString p
    | None => []
    end ].

(** A character that needs no quotation marks in a CSV field. *)
Definition isCsvPlain (c : N) : bool :=
  negb ((c =? 44) || (c =? 34) || (c =? 10))%N.

(** A text the reader has a field to end at: it is over, or a comma or
    a line feed comes next. *)
Definition atBreak (rest : jsstring) : Prop :=
  match rest with
  | [] => True
  | c :: _ => c = 44%N ∨ c = 10%N
  end.

(** The number of searches a task has asked of SerpAPI. *)
Definition requests (log : list Effect) : nat :=
  length (List.filter (λ e, match e with
                            | search_request _ _ => true
                            | _ => false
                            end) log).

(** The most searches a fetch to the depth [d] can ask for: one, and for
    each of five questions those of a fetch to the depth before. *)
Fixpoint requestBound (d : nat) : nat :=
  match d with
  | O => 1
  | S d' => 1 + 5 * requestBound d'
  end.

(** A question as a fetch to the depth [d] returns it: with no more than
    three children, and those as a fetch to the depth before returns
    them; without children at depth 0. *)
Fixpoint shaped (d : nat) (q : PAAFetchTree) : Prop :=
  match d with
  | O => ft_children q = []
  | S d' =>
      (length (ft_children q) ≤ 3)%nat ∧ Forall (shaped d') (ft_children q)
  end.

(** The most questions below one question of a fetch to the depth [d]. *)
Fixpoint belowBound (d : nat) : Z :=
  match d with
  | O => 0
  | S d' => 3 + 3 * belowBound d'
  end.

(** What [fetchToDepth] asks of the function that fetches the children,
    for the bound [b] on its searches and the depth [d] of its results. *)
Definition fetcherOk {W} (b d : nat)
    (fetchChildren : jsstring → Task W (list PAAFetchTree)) : Prop :=
  ∀ question s r s',
    fetchChildren question s = (r, s') →
    (requests s'.2 ≤ requests s.2 + b)%nat
    ∧ ∀ children, r = Return children → Forall (shaped d) children.

(** The users whose settings a task has asked for, with whether it found
    them; the lists of ids it has marked as notified; the mails it has
    posted, with the address, the subject and whether the request
    threw. *)
Definition settingsRead (log : list Effect) : list (jsstring * bool) :=
  omap (λ e, match e with
             | settings_read userId found => Some (userId, found)
             | _ => None
             end) log.

Definition markedLists (log : list Effect) : list (list jsstring) :=
  omap (λ e, match e with
             | marked_notified ids => Some ids
             | _ => None
             end) log.

Definition emailPosts (log : list Effect)
  : list (jsstring * jsstring * bool) :=
  omap (λ e, match e with
             | email_post to subject threw => Some (to, subject, threw)
             | _ => None
             end) log.

(** The changes of the user among the rows, in their order. *)
Definition changesOfUser (userId : jsstring) (rows : list ChangeRow)
  : list ChangeRow :=
  List.filter (λ c, sameString (row_user_id c) userId) rows.

(** The map [m] is [changesByUser] when the loop is through the rows
    [l]. *)
Definition byUser (m : JsMap (list ChangeRow)) (l : list ChangeRow)
  : Prop :=
  NoDup m.*1
  ∧ (∀ c, c ∈ l → row_user_id c ∈ m.*1)
  ∧ (∀ userId changes, (userId, changes) ∈ m →
       changes = changesOfUser userId l ∧ changes ≠ []).

(** What the loop over the users has done when it is through [entries]
    with the effects [eff], the counter going from [sent] to [sent']. *)
Definition notified (entries : JsMap (list ChangeRow)) (eff : list Effect)
    (sent sent' : Z) : Prop :=
  (settingsRead eff).*1 = entries.*1
  ∧ markedLists eff
    = (λ r, row_id <$> default [] (mapGet entries r.1))
      <$> List.filter snd (settingsRead eff)
  ∧ sent' = sent + Z.of_nat (length (List.filter (λ m, negb m.2)
                                       (emailPosts eff)))
  ∧ (length (emailPosts eff)
     ≤ length (List.filter snd (settingsRead eff)))%nat
  ∧ Forall (λ m, ∃ userId,
                (userId, true) ∈ settingsRead eff
                ∧ m.1.2 = emailSubject
                            (Z.of_nat (length (default []
                                                 (mapGet entries userId)))))
      (emailPosts eff).

(** A text of Unicode scalar values: code points up to U+10FFFF, none of
    them a surrogate. *)
Definition wellFormed (s : jsstring) : Prop :=
  Forall (λ c, isSurrogate c = false ∧ (c < 0x110000)%N) s.

(* ===================================================================== *)
(** * Part II: the properties *)
(* ===================================================================== *)

(** ** Trimming and collapsing *)

Section StringFacts.

Lemma trimStart_idempotent (s : jsstring) :
  trimStart (trimStart s) = trimStart s.
Proof.
  induction s as [|c r IH]; [done|]. simpl.
  destruct (isWhiteSpace c) eqn:Hc; [done|]. simpl. by rewrite Hc.
Qed.

Lemma trimStart_space (w : N) (s : jsstring) :
  isWhiteSpace w = true → trimStart (w :: s) = trimStart s.
Proof. intros Hw. simpl. by rewrite Hw. Qed.

Lemma trimStart_snoc (w : N) (s : jsstring) :
  isWhiteSpace w = true →
  (trimStart s = [] ∧ trimStart (s ++ [w]) = [])
  ∨ (trimStart s ≠ [] ∧ trimStart (s ++ [w]) = trimStart s ++ [w]).
Proof.
  intros Hw. induction s as [|c r IH]; simpl.
  - rewrite Hw. by left.
  - destruct (isWhiteSpace c); [done|by right].
Qed.

Lemma trimStart_app_solid (l m : jsstring) (c : N) :
  isWhiteSpace c = false →
  trimStart (l ++ c :: m) = trimStart l ++ c :: m.
Proof.
  intros Hc. induction l as [|x l IH]; simpl; [by rewrite Hc|].
  by destruct (isWhiteSpace x).
Qed.

Lemma trimEnd_snoc (w : N) (s : jsstring) :
  isWhiteSpace w = true → trimEnd (s ++ [w]) = trimEnd s.
Proof.
  intros Hw. unfold trimEnd. rewrite rev_unit. by rewrite trimStart_space.
Qed.

Lemma trimEnd_cons_solid (c : N) (s : jsstring) :
  isWhiteSpace c = false → trimEnd (c :: s) = c :: trimEnd s.
Proof.
  intros Hc. unfold trimEnd. simpl.
  rewrite (trimStart_app_solid (rev s) [] c Hc), rev_unit. done.
Qed.

Lemma trimEnd_cons_space (w : N) (s : jsstring) :
  isWhiteSpace w = true →
  trimEnd (w :: s) = match trimEnd s with [] => [] | _ => w :: trimEnd s end.
Proof.
  intros Hw. unfold trimEnd. simpl.
  destruct (trimStart_snoc w (rev s) Hw) as [[-> ->]|[Hne ->]]; [done|].
  rewrite rev_unit. destruct (trimStart (rev s)) as [|x l] eqn:E; [done|].
  destruct (rev (x :: l)) eqn:E'; [|done].
  apply (f_equal (@length N)) in E'. rewrite length_rev in E'. done.
Qed.

Lemma trimEnd_idempotent (s : jsstring) : trimEnd (trimEnd s) = trimEnd s.
Proof.
  unfold trimEnd. by rewrite rev_involutive, trimStart_idempotent.
Qed.

Lemma trim_idempotent (s : jsstring) : trim (trim s) = trim s.
Proof.
  unfold trim. destruct (trimStart s) as [|c r] eqn:E; [done|].
  assert (Hc : isWhiteSpace c = false).
  { destruct s as [|x s]; [done|]. clear -E.
    revert E. generalize (x :: s). intros l. induction l as [|y l IH];
      simpl; [done|].
    destruct (isWhiteSpace y) eqn:Hy; [done|]. by intros [= <- _]. }
  rewrite (trimEnd_cons_solid c r Hc). simpl. rewrite Hc.
  rewrite <- (trimEnd_cons_solid c r Hc). apply trimEnd_idempotent.
Qed.

Lemma trim_space (w : N) (s : jsstring) :
  isWhiteSpace w = true → trim (w :: s) = trim s.
Proof. intros Hw. unfold trim. by rewrite trimStart_space. Qed.

Lemma trim_snoc (w : N) (s : jsstring) :
  isWhiteSpace w = true → trim (s ++ [w]) = trim s.
Proof.
  intros Hw. unfold trim.
  destruct (trimStart_snoc w s Hw) as [[-> ->]|[_ ->]]; [done|].
  by apply trimEnd_snoc.
Qed.

Lemma trimStart_Forall (P : N → Prop) (s : jsstring) :
  Forall P s → Forall P (trimStart s).
Proof.
  induction 1 as [|c r Hc Hr IH]; simpl; [done|].
  destruct (isWhiteSpace c); [done|by constructor].
Qed.

Lemma trim_Forall (P : N → Prop) (s : jsstring) :
  Forall P s → Forall P (trim s).
Proof.
  intros Hs. unfold trim, trimEnd.
  by apply List.Forall_rev, trimStart_Forall, List.Forall_rev,
    trimStart_Forall.
Qed.

Lemma collapseFrom_Forall (P : N → Prop) (inRun : bool) (s : jsstring) :
  P 32%N → Forall P s → Forall P (collapseFrom inRun s).
Proof.
  intros Hsp Hs. revert inRun.
  induction Hs as [|c r Hc _ IH]; intros inRun; simpl; [done|].
  destruct (isWhiteSpace c); [destruct inRun|]; try constructor; auto.
Qed.

Lemma collapseFrom_singleSpaced (inRun : bool) (s : jsstring) :
  singleSpaced inRun (collapseFrom inRun s).
Proof.
  revert inRun. induction s as [|c r IH]; intros inRun; simpl; [done|].
  destruct (isWhiteSpace c) eqn:Hc.
  - destruct inRun; [apply IH|]. simpl. split; [done|]. split; [done|apply IH].
  - simpl. rewrite Hc. apply IH.
Qed.

Lemma singleSpaced_collapseFrom (inRun : bool) (s : jsstring) :
  singleSpaced inRun s → collapseFrom inRun s = s.
Proof.
  revert inRun. induction s as [|c r IH]; intros inRun; simpl; [done|].
  destruct (isWhiteSpace c).
  - intros (-> & -> & Hr). by rewrite (IH true Hr).
  - intros Hr. by rewrite (IH false Hr).
Qed.

Lemma singleSpaced_trimStart (inRun : bool) (s : jsstring) :
  singleSpaced inRun s → singleSpaced false (trimStart s).
Proof.
  revert inRun. induction s as [|c r IH]; intros inRun; simpl; [done|].
  destruct (isWhiteSpace c) eqn:Hc.
  - intros (_ & _ & Hr). by apply (IH true).
  - intros Hr. simpl. by rewrite Hc.
Qed.

Lemma singleSpaced_trimEnd (inRun : bool) (s : jsstring) :
  singleSpaced inRun s → singleSpaced inRun (trimEnd s).
Proof.
  revert inRun. induction s as [|c r IH]; intros inRun; [done|]. simpl.
  destruct (isWhiteSpace c) eqn:Hc.
  - intros (-> & -> & Hr). rewrite trimEnd_cons_space by done.
    specialize (IH true Hr). destruct (trimEnd r); [done|].
    by split.
  - intros Hr. rewrite trimEnd_cons_solid by done. simpl. rewrite Hc.
    by apply IH.
Qed.

End StringFacts.

(** ** [normalize] *)

Section NormalizeFacts.
Context `{Unicode}.

Lemma fmap_fixed {A} (f : A → A) (l : list A) :
  Forall (λ x, f x = x) l → f <$> l = l.
Proof.
  induction 1 as [|x l Hx _ IH]; [done|]. by rewrite fmap_cons, Hx, IH.
Qed.

Lemma isNormalChar_space : isNormalChar 32%N = true.
Proof. unfold isNormalChar. simpl. by rewrite orb_true_r. Qed.

(** What the two character replacements leave is left alone by both. *)
Lemma blankOthers_foldQuotes_fixed (x : jsstring) :
  Forall (λ c, (if isQuote c then 0x22%N else c) = c
               ∧ (if isNormalChar c then c else 32%N) = c)
    (blankOthers (foldQuotes x)).
Proof.
  unfold blankOthers, foldQuotes. rewrite <- list_fmap_compose.
  apply Forall_fmap, Forall_true. intros c. simpl.
  destruct (isQuote c) eqn:Hq.
  - destruct (isNormalChar 34%N) eqn:Hn; [by rewrite Hn|].
    by rewrite isNormalChar_space.
  - destruct (isNormalChar c) eqn:Hn; [by rewrite Hq, Hn|].
    by rewrite isNormalChar_space.
Qed.

(** A normalized text is a fixed point of the four replacements that follow
    the Unicode normalization and the lower-casing. *)
Lemma normalize_fixed (s : jsstring) :
  trim (collapseWhiteSpace (blankOthers (foldQuotes (normalize s))))
  = normalize s.
Proof.
  set (x := toLowerCase (nfkc s)).
  assert (Hy : Forall (λ c, (if isQuote c then 0x22%N else c) = c
                            ∧ (if isNormalChar c then c else 32%N) = c)
                 (normalize s)).
  { unfold normalize. fold x. apply trim_Forall, collapseFrom_Forall.
    - split; [done|]. by rewrite isNormalChar_space.
    - apply blankOthers_foldQuotes_fixed. }
  unfold foldQuotes at 1. rewrite fmap_fixed
    by (eapply Forall_impl; [exact Hy|]; by intros c [? ?]).
  unfold blankOthers at 1. rewrite fmap_fixed
    by (eapply Forall_impl; [exact Hy|]; by intros c [? ?]).
  assert (Hss : singleSpaced false (normalize s)).
  { unfold normalize, trim. apply singleSpaced_trimEnd.
    eapply singleSpaced_trimStart, collapseFrom_singleSpaced. }
  unfold collapseWhiteSpace at 1.
  rewrite (singleSpaced_collapseFrom false _ Hss).
  unfold normalize. apply trim_idempotent.
Qed.

End NormalizeFacts.


(** On ASCII texts the platform does leave every normalized form unchanged,
    so that [normalize] is idempotent on all of them. *)
Lemma normalize_ascii_front (s : jsstring) :
  toLowerCase (Unicode:=asciiUnicode)
    (nfkc (Unicode:=asciiUnicode) (normalize (H:=asciiUnicode) s))
  = normalize (H:=asciiUnicode) s.
Proof.
  simpl. apply fmap_fixed. unfold normalize.
  apply trim_Forall, collapseFrom_Forall; [done|].
  unfold blankOthers, foldQuotes. simpl. rewrite <- !list_fmap_compose.
  apply Forall_fmap, Forall_true. intros c. simpl.
  destruct (isQuote (asciiLowerChar c)).
  - by destruct (isNormalChar (H:=asciiUnicode) 34%N).
  - destruct (isNormalChar (H:=asciiUnicode) (asciiLowerChar c)); [|done].
    unfold asciiLowerChar.
    destruct ((65 <=? c)%N && (c <=? 90)%N) eqn:Hc; [|by rewrite Hc].
    apply andb_true_iff in Hc as [H1%N.leb_le H2%N.leb_le].
    destruct (N.leb_spec 65 (c + 32)), (N.leb_spec (c + 32) 90); simpl;
      try done; lia.
Qed.

Lemma normalize_idempotent_ascii (s : jsstring) :
  normalize (H:=asciiUnicode) (normalize (H:=asciiUnicode) s)
  = normalize (H:=asciiUnicode) s.
Proof.
  unfold normalize at 1. rewrite normalize_ascii_front.
  apply normalize_fixed.
Qed.


(** ** [normalizeQuestion] and [hashQuestion] *)

Section QuestionFacts.

(** How [collapseFrom] starts and how it splits. *)
Lemma collapseFrom_false (s : jsstring) :
  collapseFrom false s
  = (if isWhiteSpaceAt (head s) then
       match s with [] => [] | _ => [32%N] end
     else []) ++ collapseFrom true s.
Proof. destruct s as [|c r]; simpl; [done|]. by destruct (isWhiteSpace c). Qed.

Lemma collapseFrom_app (inRun : bool) (a b : jsstring) :
  collapseFrom inRun (a ++ b)
  = collapseFrom inRun a ++ collapseFrom (endsInRun inRun a) b.
Proof.
  revert inRun. induction a as [|c a IH]; intros inRun; [done|].
  assert (E : ∀ i, endsInRun inRun (c :: a) = endsInRun i a
                   ∨ a = []).
  { intros i. destruct a as [|c' a]; [by right|left].
    unfold endsInRun. rewrite last_cons_cons.
    destruct (last (c' :: a)) eqn:El; [done|].
    by apply last_None in El. }
  simpl. destruct (isWhiteSpace c) eqn:Hc.
  - destruct inRun.
    + rewrite IH. f_equal. destruct (E true) as [->| ->]; [done|].
      unfold endsInRun. simpl. by rewrite Hc.
    + rewrite IH. simpl. do 2 f_equal. destruct (E true) as [->| ->]; [done|].
      unfold endsInRun. simpl. by rewrite Hc.
  - rewrite IH. simpl. do 2 f_equal. destruct (E false) as [->| ->]; [done|].
    unfold endsInRun. simpl. by rewrite Hc.
Qed.

(** A white space character next to another one, or in a run already
    open, does not show after collapsing. *)
Lemma collapseFrom_extra_space (inRun : bool) (a b : jsstring) (w : N) :
  isWhiteSpace w = true →
  endsInRun inRun a || isWhiteSpaceAt (head b) && negb (bool_decide (b = []))
    = true →
  collapseFrom inRun (a ++ w :: b) = collapseFrom inRun (a ++ b).
Proof.
  intros Hw Hadj. rewrite !collapseFrom_app. f_equal. simpl. rewrite Hw.
  destruct (endsInRun inRun a); simpl in *.
  - destruct b as [|y b]; simpl; [done|]. by destruct (isWhiteSpace y).
  - destruct b as [|y b]; simpl in *; [done|].
    rewrite andb_true_r in Hadj. by rewrite Hadj.
Qed.

Lemma collapseFrom_snoc (inRun : bool) (a : jsstring) (w : N) :
  isWhiteSpace w = true →
  collapseFrom inRun (a ++ [w])
  = collapseFrom inRun a ++ (if endsInRun inRun a then [] else [32%N]).
Proof.
  intros Hw. rewrite collapseFrom_app. simpl. rewrite Hw.
  by destruct (endsInRun inRun a).
Qed.

(** [removeArticlesFrom] looks at the previous character only to tell
    whether it is a word character. *)
Lemma articleAt_prev (p p' : option N) (s : jsstring) :
  isWordAt p = isWordAt p' → articleAt p s = articleAt p' s.
Proof.
  intros E. unfold articleAt, wordAt, wordBoundary. by rewrite E.
Qed.

Lemma removeArticlesFrom_prev (k : nat) (p p' : option N) (s : jsstring) :
  isWordAt p = isWordAt p' →
  removeArticlesFrom k p s = removeArticlesFrom k p' s.
Proof.
  intros E. destruct s as [|c r]; [done|]. simpl.
  destruct k; [|done]. by rewrite (articleAt_prev p p' _ E).
Qed.

Lemma removeArticles_space (s : jsstring) :
  removeArticles (32%N :: s) = 32%N :: removeArticles s.
Proof.
  unfold removeArticles. simpl. f_equal.
  by apply removeArticlesFrom_prev.
Qed.

Lemma startsWith_length (pat s : jsstring) :
  startsWith pat s = true → (length pat ≤ length s)%nat.
Proof.
  revert s. induction pat as [|p pat IH]; intros [|c s]; simpl; try lia;
    try done.
  intros [_ Hs]%andb_true_iff. specialize (IH s Hs). lia.
Qed.

Lemma startsWith_snoc (pat s : jsstring) (x : N) :
  x ∉ pat → startsWith pat (s ++ [x]) = startsWith pat s.
Proof.
  revert s. induction pat as [|p pat IH]; intros s Hx; [by destruct s|].
  apply not_elem_of_cons in Hx as [Hne Hx].
  destruct s as [|c s]; simpl.
  - destruct (N.eqb_spec p x); [congruence|done].
  - by rewrite IH.
Qed.

Lemma wordAt_snoc (p : option N) (word s : jsstring) (x : N) :
  x ∉ word → isWordChar x = false → s ≠ [] →
  wordAt p word (s ++ [x]) = wordAt p word s.
Proof.
  intros Hx Hnw Hs. unfold wordAt.
  destruct s as [|c s]; [done|]. simpl head.
  rewrite (startsWith_snoc word (c :: s) x Hx).
  destruct (startsWith word (c :: s)) eqn:Hsw;
    [|by rewrite !andb_false_r].
  apply startsWith_length in Hsw.
  assert (E : isWordAt (head (drop (length word) ((c :: s) ++ [x])))
              = isWordAt (head (drop (length word) (c :: s)))).
  { rewrite drop_app.
    destruct (drop (length word) (c :: s)) as [|d t] eqn:Hd; [|done].
    apply (f_equal length) in Hd. rewrite length_drop in Hd.
    replace (length word - length (c :: s))%nat with 0%nat by (simpl in *; lia).
    simpl. by rewrite Hnw. }
  unfold wordBoundary. by rewrite E.
Qed.

Lemma articleAt_snoc (p : option N) (s : jsstring) :
  s ≠ [] → articleAt p (s ++ [32%N]) = articleAt p s.
Proof.
  intros Hs. unfold articleAt.
  rewrite !wordAt_snoc; try done;
    (intros Hin; vm_compute in Hin;
     repeat (inversion Hin as [|? ? ? Hin']; subst; clear Hin;
             rename Hin' into Hin); inversion Hin).
Qed.

Lemma wordAt_length (p : option N) (word s : jsstring) :
  wordAt p word s = true → (length word ≤ length s)%nat.
Proof.
  unfold wordAt. intros [[_ Hs]%andb_true_iff _]%andb_true_iff.
  by apply startsWith_length.
Qed.

Lemma articleAt_length (p : option N) (s : jsstring) (n : nat) :
  articleAt p s = Some n → (1 ≤ n ≤ length s)%nat.
Proof.
  unfold articleAt. intros Hn.
  destruct (wordAt p (js "the") s) eqn:E1;
    [apply wordAt_length in E1; injection Hn as <-; simpl in E1; lia|].
  destruct (wordAt p (js "a") s) eqn:E2;
    [apply wordAt_length in E2; injection Hn as <-; simpl in E2; lia|].
  destruct (wordAt p (js "an") s) eqn:E3;
    [apply wordAt_length in E3; injection Hn as <-; simpl in E3; lia|].
  done.
Qed.

Lemma removeArticlesFrom_snoc (k : nat) (p : option N) (s : jsstring) :
  (k ≤ length s)%nat →
  removeArticlesFrom k p (s ++ [32%N]) = removeArticlesFrom k p s ++ [32%N].
Proof.
  revert k p. induction s as [|c r IH]; intros k p Hk.
  - simpl in Hk. replace k with 0%nat by lia. simpl.
    unfold articleAt, wordAt. simpl. by rewrite !andb_false_r.
  - simpl. destruct k as [|k].
    + change (c :: r ++ [32%N]) with ((c :: r) ++ [32%N]).
      rewrite articleAt_snoc by done.
      destruct (articleAt p (c :: r)) as [n|] eqn:Ha.
      * apply articleAt_length in Ha. simpl in Ha. apply IH. lia.
      * simpl. f_equal. apply IH. lia.
    + apply IH. simpl in Hk. lia.
Qed.

(** What follows the removal of punctuation in [normalizeQuestion]. *)
Local Abbreviation afterStrip s :=
  (trim (removeArticles (collapseWhiteSpace s))).

Lemma afterStrip_leading (w : N) (s : jsstring) :
  isWhiteSpace w = true → afterStrip (w :: s) = afterStrip s.
Proof.
  intros Hw. unfold collapseWhiteSpace. simpl. rewrite Hw.
  rewrite removeArticles_space, trim_space by done.
  rewrite (collapseFrom_false s).
  destruct (isWhiteSpaceAt (head s)); [|done].
  destruct s as [|c r]; [done|]. simpl app.
  by rewrite removeArticles_space, trim_space.
Qed.

Lemma afterStrip_trailing (w : N) (s : jsstring) :
  isWhiteSpace w = true → afterStrip (s ++ [w]) = afterStrip s.
Proof.
  intros Hw. unfold collapseWhiteSpace. rewrite collapseFrom_snoc by done.
  destruct (endsInRun false s); [by rewrite app_nil_r|].
  unfold removeArticles. rewrite removeArticlesFrom_snoc by lia.
  by apply trim_snoc.
Qed.

Lemma afterStrip_extra_space (a b : jsstring) (w : N) :
  isWhiteSpace w = true →
  isWhiteSpaceAt (last a) || isWhiteSpaceAt (head b) = true →
  afterStrip (a ++ w :: b) = afterStrip (a ++ b).
Proof.
  intros Hw Hadj.
  destruct a as [|x a]; [by apply afterStrip_leading|].
  destruct b as [|y b].
  { rewrite app_nil_r. by apply (afterStrip_trailing w (x :: a)). }
  unfold collapseWhiteSpace.
  rewrite collapseFrom_extra_space; [done..|].
  unfold endsInRun. destruct (last (x :: a)) as [z|] eqn:El.
  - simpl in *. by rewrite andb_true_r.
  - by apply last_None in El.
Qed.

Lemma isWhiteSpace_isKept (w : N) : isWhiteSpace w = true → isKept w = true.
Proof. unfold isKept. intros ->. by rewrite orb_true_r. Qed.

Lemma filter_snoc {A} (f : A → bool) (l : list A) (x : A) :
  List.filter f (l ++ [x]) = List.filter f l ++ (if f x then [x] else []).
Proof. by rewrite List.filter_app. Qed.

Lemma isWhiteSpaceAt_last_filter (a : jsstring) :
  isWhiteSpaceAt (last a) = true →
  isWhiteSpaceAt (last (List.filter isKept a)) = true.
Proof.
  destruct a as [|x a _] using rev_ind; [done|].
  rewrite last_snoc, filter_snoc. simpl. intros Hx.
  by rewrite (isWhiteSpace_isKept x Hx), last_snoc.
Qed.

Lemma isWhiteSpaceAt_head_filter (b : jsstring) :
  isWhiteSpaceAt (head b) = true →
  isWhiteSpaceAt (head (List.filter isKept b)) = true.
Proof.
  destruct b as [|x b]; [done|]. simpl. intros Hx.
  by rewrite (isWhiteSpace_isKept x Hx).
Qed.

Lemma isErasedPunctuation_erased (c : N) :
  isErasedPunctuation c = true → isErased c = true.
Proof.
  unfold isErased, isErasedPunctuation, isPunctuation, isKept, isWordChar,
    isWhiteSpace.
  intros Hc. apply negb_true_iff, not_true_iff_false. intros Hk.
  repeat first
    [ rewrite andb_true_iff in Hc | rewrite orb_true_iff in Hc
    | rewrite negb_true_iff in Hc | rewrite N.leb_le in Hc
    | rewrite N.eqb_eq in Hc | rewrite N.eqb_neq in Hc
    | rewrite andb_true_iff in Hk | rewrite orb_true_iff in Hk
    | rewrite N.leb_le in Hk | rewrite N.eqb_eq in Hk ].
  lia.
Qed.

Lemma afterStrip_differsBy (l1 l2 : jsstring) :
  differsBy isErased false l1 l2 →
  afterStrip (stripPunctuation l1) = afterStrip (stripPunctuation l2).
Proof.
  unfold stripPunctuation.
  intros [a p b Hp|a w b Hw Hadj|a w b Hart _ _ _]; [| |done].
  - rewrite !List.filter_app. simpl.
    unfold isErased in Hp. apply negb_true_iff in Hp. by rewrite Hp.
  - rewrite !List.filter_app. simpl.
    rewrite (isWhiteSpace_isKept w Hw).
    symmetry. apply afterStrip_extra_space; [done|].
    apply orb_true_iff in Hadj as [Ha|Hb].
    + by rewrite (isWhiteSpaceAt_last_filter a Ha).
    + by rewrite (isWhiteSpaceAt_head_filter b Hb), orb_true_r.
Qed.

Lemma afterStrip_differOnly (l1 l2 : jsstring) :
  rtsc (differsBy isErased false) l1 l2 →
  afterStrip (stripPunctuation l1) = afterStrip (stripPunctuation l2).
Proof.
  induction 1 as [|x y z [Hxy|Hyx] _ IH]; [done| |].
  - by rewrite (afterStrip_differsBy x y Hxy).
  - by rewrite <- (afterStrip_differsBy y x Hyx).
Qed.

(** The first [trim] of [normalizeQuestion] is absorbed by the last. *)
Lemma afterStrip_trimStart (l : jsstring) :
  afterStrip (stripPunctuation (trimStart l))
  = afterStrip (stripPunctuation l).
Proof.
  induction l as [|w l IH]; [done|]. simpl.
  destruct (isWhiteSpace w) eqn:Hw; [|done].
  rewrite IH. unfold stripPunctuation. simpl.
  rewrite (isWhiteSpace_isKept w Hw). symmetry.
  by apply afterStrip_leading.
Qed.

Lemma afterStrip_trimEnd (l : jsstring) :
  afterStrip (stripPunctuation (trimEnd l))
  = afterStrip (stripPunctuation l).
Proof.
  induction l as [|w l IH] using rev_ind; [done|].
  destruct (isWhiteSpace w) eqn:Hw.
  - rewrite trimEnd_snoc, IH by done. unfold stripPunctuation.
    rewrite filter_snoc, (isWhiteSpace_isKept w Hw). symmetry.
    by apply afterStrip_trailing.
  - unfold trimEnd. rewrite rev_unit. simpl. rewrite Hw. simpl.
    by rewrite rev_involutive.
Qed.

Lemma normalizeQuestion_differOnly `{Unicode} (t1 t2 : jsstring) :
  differOnlyIn isErased false t1 t2 →
  normalizeQuestion t1 = normalizeQuestion t2.
Proof.
  intros Hd. unfold normalizeQuestion, trim at 2 4.
  rewrite !afterStrip_trimEnd, !afterStrip_trimStart.
  by apply afterStrip_differOnly.
Qed.

(** [hashQuestion] never throws: the normalized text is made of word
    characters, apostrophes and spaces. *)
Lemma collapseFrom_plain (inRun : bool) (s : jsstring) :
  Forall (λ c, isKept c = true) s →
  Forall (λ c, isPlain c = true) (collapseFrom inRun s).
Proof.
  intros Hs. revert inRun. induction Hs as [|c r Hc _ IH]; intros inRun;
    simpl; [done|].
  destruct (isWhiteSpace c) eqn:Hw.
  - destruct inRun; [apply IH|]. constructor; [done|apply IH].
  - constructor; [|apply IH]. unfold isKept in Hc. unfold isPlain.
    rewrite Hw, orb_false_r in Hc.
    apply orb_true_iff in Hc as [->| ->]; [done|].
    by rewrite orb_true_r.
Qed.

Lemma removeArticlesFrom_Forall (P : N → Prop) (k : nat) (p : option N)
    (s : jsstring) :
  Forall P s → Forall P (removeArticlesFrom k p s).
Proof.
  intros Hs. revert k p. induction Hs as [|c r Hc _ IH]; intros k p; simpl;
    [done|].
  destruct k; [|apply IH].
  destruct (articleAt p (c :: r)); [apply IH|].
  constructor; [done|apply IH].
Qed.

Lemma normalizeQuestion_plain `{Unicode} (t : jsstring) :
  Forall (λ c, isPlain c = true) (normalizeQuestion t).
Proof.
  unfold normalizeQuestion. apply trim_Forall, removeArticlesFrom_Forall.
  apply collapseFrom_plain. unfold stripPunctuation.
  apply Forall_forall. intros c Hc%list_elem_of_In%filter_In. tauto.
Qed.

Lemma encodeURIChar_plain (c : N) :
  isPlain c = true →
  ∃ e, encodeURIChar c = Some e ∧ Forall (λ b, (b <=? 0xFF)%N = true) e.
Proof.
  unfold isPlain. intros Hc. unfold encodeURIChar.
  destruct (isUriUnreserved c) eqn:Hu.
  - exists [c]. split; [done|]. constructor; [|done].
    unfold isUriUnreserved in Hu. apply N.leb_le.
    repeat first
      [ rewrite andb_true_iff in Hu | rewrite orb_true_iff in Hu
      | rewrite N.leb_le in Hu | rewrite N.eqb_eq in Hu ].
    lia.
  - assert (c = 32%N) as ->.
    { unfold isUriUnreserved, isWordChar in *.
      apply not_true_iff_false in Hu.
      repeat first
        [ rewrite andb_true_iff in Hu | rewrite orb_true_iff in Hu
        | rewrite N.leb_le in Hu | rewrite N.eqb_eq in Hu
        | rewrite andb_true_iff in Hc | rewrite orb_true_iff in Hc
        | rewrite N.leb_le in Hc | rewrite N.eqb_eq in Hc ].
      lia. }
    eexists. split; [reflexivity|]. by repeat constructor.
Qed.

Lemma encodeURIComponent_plain (s : jsstring) :
  Forall (λ c, isPlain c = true) s →
  ∃ e, encodeURIComponent s = Some e
       ∧ Forall (λ b, (b <=? 0xFF)%N = true) e.
Proof.
  induction 1 as [|c r Hc _ (t & Ht & Hbytes)]; simpl.
  - by exists [].
  - destruct (encodeURIChar_plain c Hc) as (e & -> & He). rewrite Ht. simpl.
    exists (e ++ t). split; [done|]. by apply Forall_app.
Qed.

Lemma hashQuestion_total `{Unicode} (t : jsstring) :
  ∃ h, hashQuestion t = Some h.
Proof.
  unfold hashQuestion.
  destruct (encodeURIComponent_plain _ (normalizeQuestion_plain t))
    as (e & -> & He).
  simpl. unfold btoa.
  assert (He' : forallb (λ c, (c <=? 0xFF)%N) e = true).
  { apply forallb_forall. intros b Hb.
    by apply (proj1 (List.Forall_forall _ e) He b). }
  rewrite He'. simpl. eauto.
Qed.

End QuestionFacts.

(** ** The diff *)

Section DiffFacts.

Lemma mapOf_lookup_from {V} (entries : list (jsstring * V))
    (m : gmap jsstring V) (k : jsstring) :
  is_Some (fold_left (λ m kv, <[kv.1 := kv.2]> m) entries m !! k)
  ↔ is_Some (m !! k) ∨ k ∈ entries.*1.
Proof.
  revert m. induction entries as [|[k' v] entries IH]; intros m; simpl.
  - rewrite elem_of_nil. tauto.
  - rewrite IH, elem_of_cons. destruct (decide (k' = k)) as [->|Hne].
    + rewrite lookup_insert_eq. split; [intros _|intros _; left]; eauto.
    + rewrite lookup_insert_ne by done. split; intros [?|?]; eauto.
      destruct H as [?|?]; eauto. congruence.
Qed.

Lemma has_mapOf {A} (key : A → jsstring) (l : list A) k :
  has (mapOf ((λ q, (key q, q)) <$> l)) k = true ↔ k ∈ key <$> l.
Proof.
  unfold has, mapOf. rewrite bool_decide_eq_true, mapOf_lookup_from.
  rewrite lookup_empty, <- list_fmap_compose.
  split; [intros [[? ?]|?]; [done|]|intros ?; right]; done.
Qed.

Lemma has_mapOf_false {A} (key : A → jsstring) (l : list A) k :
  has (mapOf ((λ q, (key q, q)) <$> l)) k = false ↔ k ∉ key <$> l.
Proof. rewrite <- has_mapOf. destruct (has _ _); split; congruence. Qed.

Lemma filter_all {A} (f : A → bool) (l : list A) :
  (∀ x, x ∈ l → f x = true) → List.filter f l = l.
Proof.
  induction l as [|x l IH]; intros Hall; [done|]. simpl.
  rewrite (Hall x) by left. f_equal. apply IH. intros y Hy. apply Hall.
  by right.
Qed.

Lemma filter_none {A} (f : A → bool) (l : list A) :
  (∀ x, x ∈ l → f x = false) → List.filter f l = [].
Proof.
  induction l as [|x l IH]; intros Hall; [done|]. simpl.
  rewrite (Hall x) by left. apply IH. intros y Hy. apply Hall. by right.
Qed.

Lemma bind_none {A B} (f : A → list B) (l : list A) :
  (∀ x, x ∈ l → f x = []) → l ≫= f = [].
Proof.
  induction l as [|x l IH]; intros Hall; [done|].
  change ((x :: l) ≫= f) with (f x ++ (l ≫= f)).
  rewrite (Hall x) by left. apply IH. intros y Hy. apply Hall. by right.
Qed.



Lemma findIndexFrom_shift {A} (pred : A → bool) (i : Z) (l : list A) :
  findIndexFrom pred i l = -1 ∧ (∀ x, x ∈ l → pred x = false)
  ∨ ∃ n : nat, findIndexFrom pred i l = i + Z.of_nat n
      ∧ (∃ x, l !! n = Some x ∧ pred x = true)
      ∧ ∀ (m : nat) y, (m < n)%nat → l !! m = Some y → pred y = false.
Proof.
  revert i. induction l as [|a l IH]; intros i; simpl.
  - left. split; [done|]. intros x Hx. by apply elem_of_nil in Hx.
  - destruct (pred a) eqn:Ha.
    + right. exists 0%nat. split; [lia|]. split; [by exists a|]. lia.
    + destruct (IH (i + 1)) as [[E Hall]|(n & E & (x & Hx & Hp) & Hlt)].
      * left. split; [done|]. intros x Hx.
        apply elem_of_cons in Hx as [->|Hx]; auto.
      * right. exists (S n). split; [lia|]. split; [by exists x|].
        intros [|m] y Hm Hy; simpl in Hy; [congruence|].
        apply (Hlt m); [lia|done].
Qed.

Section CheckKeywordFacts.
Context `{Unicode}.


End CheckKeywordFacts.

End DiffFacts.

(** C8: identical sets of hashes give no addition and no removal; disjoint
    sets make every current question an addition and every previous
    question a removal (so [N] of each for lists of [N] entries), with no
    position change. *)
Theorem diff_identical_or_disjoint (previous : list PrevQuestion)
    (current : list CurrQuestion) :
  ((∀ h, h ∈ pq_hash <$> previous ↔ h ∈ cq_hash <$> current) →
     added (diffPAALists previous current) = []
     ∧ removed (diffPAALists previous current) = [])
  ∧ ((∀ h, h ∈ pq_hash <$> previous → h ∉ cq_hash <$> current) →
     added (diffPAALists previous current) = current
     ∧ removed (diffPAALists previous current) = previous
     ∧ length (added (diffPAALists previous current)) = length current
     ∧ length (removed (diffPAALists previous current)) = length previous
     ∧ positionChanges (diffPAALists previous current) = []).
Proof.
  split.
  - intros Hsame. split; simpl.
    + apply filter_none. intros q Hq. apply negb_false_iff, has_mapOf.
      apply Hsame. by apply list_elem_of_fmap_2.
    + apply filter_none. intros q Hq. apply negb_false_iff, has_mapOf.
      apply Hsame. by apply list_elem_of_fmap_2.
  - intros Hdisj.
    assert (Hadd : added (diffPAALists previous current) = current).
    { simpl. apply filter_all. intros q Hq.
      apply negb_true_iff, has_mapOf_false. intros Hin.
      apply (Hdisj _ Hin). by apply list_elem_of_fmap_2. }
    assert (Hrem : removed (diffPAALists previous current) = previous).
    { simpl. apply filter_all. intros q Hq.
      apply negb_true_iff, has_mapOf_false. apply Hdisj.
      by apply list_elem_of_fmap_2. }
    rewrite Hadd, Hrem. repeat split; try done.
    simpl. apply bind_none. intros q Hq. unfold positionChangeOf.
    assert (Hno : has (mapOf ((λ q, (pq_hash q, q)) <$> previous)) (cq_hash q)
                  = false).
    { apply has_mapOf_false. intros Hin. apply (Hdisj _ Hin).
      by apply list_elem_of_fmap_2. }
    by rewrite Hno.
Qed.





Lemma diff_identical_or_disjoint_witness :
  let p h := {| pq_question := js h; pq_hash := js h |} in
  let c h i := {| cq_question := js h; cq_hash := js h; cq_position := i;
                  cq_type := None |} in
  (added (diffPAALists [p "q1"; p "q2"] [c "q2" 0; c "q1" 1]) = []
   ∧ removed (diffPAALists [p "q1"; p "q2"] [c "q2" 0; c "q1" 1]) = [])
  ∧ length (added (diffPAALists [p "q1"; p "q2"] [c "q3" 0; c "q4" 1]))
    = 2%nat
  ∧ length (removed (diffPAALists [p "q1"; p "q2"] [c "q3" 0; c "q4" 1]))
    = 2%nat
  ∧ positionChanges (diffPAALists [p "q1"; p "q2"] [c "q3" 0; c "q4" 1]) = [].
Proof.
  intros p c. split.
  - apply (proj1 (diff_identical_or_disjoint [p "q1"; p "q2"]
                    [c "q2" 0; c "q1" 1])).
    intros h. rewrite !fmap_cons, !fmap_nil, !elem_of_cons, !elem_of_nil.
    simpl. tauto.
  - destruct (proj2 (diff_identical_or_disjoint [p "q1"; p "q2"]
                       [c "q3" 0; c "q4" 1])) as (_ & _ & Ha & Hr & Hp).
    + intros h. rewrite !fmap_cons, !fmap_nil, !elem_of_cons, !elem_of_nil.
      simpl. intros [->|[->|[]]] [E|[E|[]]]; vm_compute in E; discriminate E.
    + exact (conj Ha (conj Hr Hp)).
Defined.

(** ** The hash of a question *)

(** C10, as amended: [hashQuestion] returns the same identifier for two
    texts that differ only in letter case, in characters outside the class
    [[\w\s']] (all punctuation but the apostrophe and the underscore), or
    in extra white space; the diff, which compares hashes, then reports the
    one neither as added nor the other as removed. *)
Theorem hashQuestion_insensitive `{Unicode} (t1 t2 : jsstring) :
  differOnlyIn isErased false t1 t2 →
  (∃ h, hashQuestion t1 = Some h ∧ hashQuestion t2 = Some h)
  ∧ ∀ previous current p c,
      p ∈ previous → c ∈ current →
      hashQuestion t1 = Some (pq_hash p) →
      hashQuestion t2 = Some (cq_hash c) →
      (c ∉ added (diffPAALists previous current))
      ∧ (p ∉ removed (diffPAALists previous current)).
Proof.
  intros Hd.
  assert (Heq : hashQuestion t1 = hashQuestion t2).
  { unfold hashQuestion. by rewrite (normalizeQuestion_differOnly t1 t2 Hd). }
  split.
  - destruct (hashQuestion_total t1) as [h Hh]. exists h.
    split; [done|congruence].
  - intros previous current p c Hp Hc H1 H2.
    assert (Hpc : pq_hash p = cq_hash c) by congruence.
    split; simpl; intros Hin%list_elem_of_In%filter_In;
      destruct Hin as [_ Hhas]; apply negb_true_iff, has_mapOf_false in Hhas;
      apply Hhas.
    + rewrite <- Hpc. by apply list_elem_of_fmap_2.
    + rewrite Hpc. by apply list_elem_of_fmap_2.
Qed.

Lemma hashQuestion_insensitive_witness :
  ∃ h, hashQuestion (H:=asciiUnicode) (js "What is SEO?") = Some h
       ∧ hashQuestion (H:=asciiUnicode) (js "what  is seo") = Some h.
Proof.
  apply (hashQuestion_insensitive (H:=asciiUnicode)).
  unfold differOnlyIn.
  apply (rtc_l _ _ (js "what is seo")).
  - right. exact (extra_punctuation _ _ (js "what is seo") 63%N [] eq_refl).
  - apply rtsc_lr.
    exact (extra_space _ _ (js "what ") 32%N (js "is seo") eq_refl eq_refl).
Defined.

(** C10, as stated, fails: the apostrophe is punctuation, and two texts
    that differ only in it have different hashes. *)
Lemma hashQuestion_apostrophe_counterexample :
  differOnlyIn (H:=asciiUnicode) isPunctuation true
    (js "what's seo") (js "whats seo")
  ∧ hashQuestion (H:=asciiUnicode) (js "what's seo")
    ≠ hashQuestion (H:=asciiUnicode) (js "whats seo").
Proof.
  split.
  - apply rtsc_rl.
    exact (extra_punctuation _ _ (js "what") 39%N (js "s seo") eq_refl).
  - vm_compute. discriminate.
Qed.

(** An article inside a text leaves both of its spaces behind, white space
    being collapsed before the articles are removed. *)
Example hashQuestion_article_residue :
  normalizeQuestion (H:=asciiUnicode) (js "what is the best seo tool")
  = js "what is  best seo tool"
  ∧ hashQuestion (H:=asciiUnicode) (js "what is the best seo tool")
    ≠ hashQuestion (H:=asciiUnicode) (js "what is best seo tool").
Proof. split; [reflexivity|]. vm_compute. discriminate. Qed.

(** ** The traversal of [runSingle] *)

Section MonadFacts.
Context {W : Type}.

Lemma bind_Return {A B} (m : M W A) (f : A → M W B) s b s' :
  (m ≫= f) s = (Return b, s') →
  ∃ a s1, m s = (Return a, s1) ∧ f a s1 = (Return b, s').
Proof.
  unfold mbind, M_bind, bind. destruct (m s) as [[a|e|] s1]; try done.
  intros Hf. by exists a, s1.
Qed.

Lemma ret_Return {A} (a b : A) (s s' : W * list Event) :
  ret a s = (Return b, s') → a = b ∧ s = s'.
Proof. unfold ret. by intros [= -> ->]. Qed.

Lemma await_log {A} (op : W → outcome A * W) (w : W) (log : list Event)
    (r : outcome A) (s' : W * list Event) :
  await op (w, log) = (r, s') → op w = (r, s'.1) ∧ s'.2 = log.
Proof.
  unfold await. destruct (op w) as [r' w']. by intros [= -> <-].
Qed.

End MonadFacts.

(** Splits a hypothesis [(x ← m; k) s = (Return b, s')] into the run of
    [m] and that of [k]. *)
Tactic Notation "bind_inv" hyp(H) "as" ident(a) ident(s1) ident(H1) :=
  apply bind_Return in H as (a & s1 & H1 & H).

Tactic Notation "bind_inv" hyp(H) :=
  let a := fresh "a" in
  let s1 := fresh "s" in
  let H1 := fresh "Hm" in
  apply bind_Return in H as (a & s1 & H1 & H).

Section WalkFacts.
Context {W : Type} `{Playwright W} `{Unicode}.

Lemma visit_Return (params : PAAParams) (cfg : Config) (node : QNode)
    (it : AccordionItem) (st st' : Walk) s s' :
  visit params cfg node it st s = (Return st', s') →
  st' = recordItem node it st
  ∨ (q_depth node < p_depth params
     ∧ Z.of_nat (length (w_items (recordItem node it st))) < maxNodes cfg
     ∧ ∃ crop2, st' = enqueueChild node it crop2 (recordItem node it st)).
Proof.
  unfold visit.
  destruct ((q_depth node <? p_depth params)
            && (Z.of_nat (length (w_items (recordItem node it st)))
                <? maxNodes cfg)) eqn:Hc.
  - apply andb_true_iff in Hc as [Hd%Z.ltb_lt Hn%Z.ltb_lt].
    intros Hv. bind_inv Hv as btn s1 Hbtn. destruct btn.
    + bind_inv Hv. bind_inv Hv. bind_inv Hv.
      apply ret_Return in Hv as [<- _]. right. eauto.
    + apply ret_Return in Hv as [<- _]. by left.
  - intros [<- _]%ret_Return. by left.
Qed.

Lemma recordItem_queue (node : QNode) (it : AccordionItem) (st : Walk) :
  queue (recordItem node it st) = queue st.
Proof. unfold recordItem. by case_bool_decide. Qed.

Lemma recordItem_items (node : QNode) (it : AccordionItem) (st : Walk) :
  w_items (recordItem node it st) = w_items st
  ∨ ((normalize (trim (acc_question it)) ∉ seen st)
     ∧ ∃ item, w_items (recordItem node it st) = w_items st ++ [item]
         ∧ norm item = normalize (trim (acc_question it))
         ∧ depth item = q_depth node
         ∧ seen (recordItem node it st) = seen st ∪ {[ norm item ]}).
Proof.
  unfold recordItem. case_bool_decide; [by left|]. right. split; [done|].
  eexists. by repeat split.
Qed.

Lemma recordItem_seen (node : QNode) (it : AccordionItem) (st : Walk) :
  seen st ⊆ seen (recordItem node it st).
Proof. unfold recordItem. case_bool_decide; simpl; set_solver. Qed.

Lemma recordItem_inv (D : Z) (node : QNode) (it : AccordionItem)
    (st : Walk) :
  0 ≤ q_depth node ≤ Z.max 0 D →
  walkInv D st → walkInv D (recordItem node it st).
Proof.
  intros Hnode (Hnd & Hseen & Hdep & Hq). unfold recordItem.
  case_bool_decide as Hin; [done|]. repeat split; simpl.
  - rewrite fmap_app, list_fmap_singleton. simpl.
    apply NoDup_app. split; [done|]. split.
    + intros n Hn ->%list_elem_of_singleton.
      apply list_elem_of_fmap in Hn as (i & Hi' & Hi). apply Hin.
      rewrite Hi'. by apply Hseen.
    + apply NoDup_singleton.
  - intros i [Hi| ->%list_elem_of_singleton]%elem_of_app.
    + apply elem_of_union_l. by apply Hseen.
    + apply elem_of_union_r. by apply elem_of_singleton.
  - apply Forall_app. split; [done|]. by apply Forall_singleton.
  - done.
Qed.

Lemma enqueueChild_inv (D : Z) (node : QNode) (it : AccordionItem)
    (crop2 : jsstring) (st : Walk) :
  0 ≤ q_depth node < D →
  walkInv D st → walkInv D (enqueueChild node it crop2 st).
Proof.
  intros Hnode (Hnd & Hseen & Hdep & Hq). repeat split; simpl; try done.
  apply Forall_app. split; [done|]. apply Forall_singleton. simpl. lia.
Qed.

Lemma visit_inv (D : Z) (cfg : Config) (params : PAAParams) (node : QNode)
    (it : AccordionItem) (st st' : Walk) s s' :
  p_depth params = D →
  0 ≤ q_depth node ≤ Z.max 0 D →
  visit params cfg node it st s = (Return st', s') →
  walkInv D st →
  walkInv D st'
  ∧ (length (w_items st') ≤ S (length (w_items st)))%nat.
Proof.
  intros HD Hnode Hv Hinv.
  assert (Hlen : (length (w_items (recordItem node it st))
                  ≤ S (length (w_items st)))%nat).
  { destruct (recordItem_items node it st) as [->|(_ & i & -> & _)];
      [lia|]. rewrite length_app. simpl. lia. }
  apply visit_Return in Hv as [->|(Hd & _ & crop2 & ->)].
  - split; [by apply recordItem_inv|done].
  - split; [|done]. apply enqueueChild_inv; [lia|by apply recordItem_inv].
Qed.

Lemma visitAll_inv (D : Z) (cfg : Config) (params : PAAParams)
    (node : QNode) (acc : list AccordionItem) (st st' : Walk) s s' :
  p_depth params = D →
  0 ≤ q_depth node ≤ Z.max 0 D →
  visitAll params cfg node acc st s = (Return st', s') →
  walkInv D st →
  walkInv D st'
  ∧ (length (w_items st') ≤ length (w_items st) + length acc)%nat.
Proof.
  intros HD Hnode. revert st s.
  induction acc as [|it rest IH]; intros st s Hv Hinv; simpl in Hv.
  - apply ret_Return in Hv as [<- _]. split; [done|lia].
  - bind_inv Hv as st1 s1 Hv1.
    destruct (visit_inv D cfg params node it st st1 s s1 HD Hnode Hv1 Hinv)
      as [Hinv1 Hlen1].
    destruct (IH st1 s1 Hv Hinv1) as [Hinv' Hlen']. split; [done|].
    simpl. lia.
Qed.

Lemma orElse_await_log {A} (op : W → outcome A * W) (fallback : A) (w : W)
    (log : list Event) (r : outcome A) (s' : W * list Event) :
  orElse (await op) fallback (w, log) = (r, s') → s'.2 = log.
Proof.
  unfold orElse, tryCatch, await, ret.
  destruct (op w) as [[a|e|] w']; by intros [= <- <-].
Qed.

Lemma readClock_log (w : W) (log : list Event) (r : outcome Z)
    (s' : W * list Event) :
  readClock (w, log) = (r, s') → s'.2 = log.
Proof. unfold readClock. destruct (dateNow w). by intros [= <- <-]. Qed.

(** A visit leaves the record as it is. *)
Lemma visit_log (params : PAAParams) (cfg : Config) (node : QNode)
    (it : AccordionItem) (st st' : Walk) s s' :
  visit params cfg node it st s = (Return st', s') → s'.2 = s.2.
Proof.
  unfold visit.
  destruct ((q_depth node <? p_depth params) && _).
  - intros Hv. bind_inv Hv as btn s1 Hbtn. destruct s as [w log].
    apply orElse_await_log in Hbtn. destruct btn.
    + bind_inv Hv as u1 s2 Hclick. destruct s1 as [w1 log1].
      apply orElse_await_log in Hclick.
      bind_inv Hv as u2 s3 Hwait. destruct s2 as [w2 log2].
      apply await_log in Hwait as [_ Hwait].
      bind_inv Hv as crop2 s4 Hcrop. destruct s3 as [w3 log3].
      apply await_log in Hcrop as [_ Hcrop].
      apply ret_Return in Hv as [_ <-]. simpl in *. congruence.
    + apply ret_Return in Hv as [_ <-]. done.
  - by intros [_ <-]%ret_Return.
Qed.

Lemma visitAll_log (params : PAAParams) (cfg : Config) (node : QNode)
    (acc : list AccordionItem) (st st' : Walk) s s' :
  visitAll params cfg node acc st s = (Return st', s') → s'.2 = s.2.
Proof.
  revert st s. induction acc as [|it rest IH]; intros st s Hv; simpl in Hv.
  - by apply ret_Return in Hv as [_ <-].
  - bind_inv Hv as st1 s1 Hv1. apply visit_log in Hv1. apply IH in Hv.
    congruence.
Qed.

Lemma lastListing_app (l1 l2 : list Event) :
  lastListing (l1 ++ l2)
  = fold_left (λ n e, match e with
                      | listing_read size => size
                      | _ => n
                      end) l2 (lastListing l1).
Proof. unfold lastListing. by rewrite fold_left_app. Qed.

(** The traversal: its invariant, and the room the budget leaves.  The
    budget is looked at when a listing has been gone through: a turn of
    the loop starts below it, or with no item at all, and the last
    listing read adds its entries at most. *)
Lemma traverse_inv (D : Z) (cfg : Config) (params : PAAParams)
    (started : Z) (fuel : nat) (st st' : Walk) s s' :
  p_depth params = D →
  traverse fuel params cfg started st s = (Return st', s') →
  walkInv D st →
  Z.of_nat (length (w_items st)) ≤ Z.max (maxNodes cfg - 1) 0 →
  walkInv D st'
  ∧ Z.of_nat (length (w_items st'))
    ≤ Z.max (maxNodes cfg - 1) 0 + Z.of_nat (lastListing s'.2).
Proof.
  intros HD. revert st s.
  induction fuel as [|fuel IH]; intros st s Ht Hinv Hlen; [done|].
  simpl in Ht. destruct (queue st) as [|node rest] eqn:Hq.
  { apply ret_Return in Ht as [<- <-]. split; [done|lia]. }
  bind_inv Ht as t s1 Hclock. destruct s as [w log].
  apply readClock_log in Hclock. destruct s1 as [w1 log1].
  simpl in Hclock. subst log1.
  destruct (maxMs cfg <? t - started).
  { apply ret_Return in Ht as [<- <-]. split; [done|lia]. }
  bind_inv Ht as acc s2 Hacc.
  assert (Hs2 : s2.2 = log ++ [listing_read (length acc)]).
  { unfold awaitListing in Hacc.
    destruct (getAccordionItems w1) as [[acc'|e|] w2]; try done.
    by injection Hacc as -> <-. }
  bind_inv Ht as st1 s3 Hvisit.
  destruct Hinv as (Hnd & Hseen & Hdep & Hqueue). rewrite Hq in Hqueue.
  apply Forall_cons in Hqueue as [Hnode Hrest].
  pose proof (visitAll_log _ _ _ _ _ _ _ _ Hvisit) as Hs3.
  eapply (visitAll_inv D) in Hvisit as [Hinv1 Hlen1]; [|done..].
  simpl in Hlen1.
  destruct (maxNodes cfg <=? Z.of_nat (length (w_items st1))) eqn:Hfull.
  - apply ret_Return in Ht as [<- <-]. split; [done|].
    rewrite Hs3, Hs2, lastListing_app. simpl. lia.
  - apply Z.leb_gt in Hfull. apply (IH st1 s3 Ht Hinv1). lia.
Qed.

Lemma scrape_Return (fuel : nat) (params : PAAParams)
    (cfg : Config) (r : PAARunResult) s s' :
  scrape fuel params cfg s = (Return r, s') →
  runInv (p_depth params) r
  ∧ Z.of_nat (length (items r))
    ≤ Z.max (maxNodes cfg - 1) 0 + Z.of_nat (lastListing s'.2).
Proof.
  intros Hs. unfold scrape in Hs.
  do 7 bind_inv Hs. bind_inv Hs as paa s8 Hpaa. destruct paa; simpl in Hs.
  - do 2 bind_inv Hs. bind_inv Hs as st s11 Htrav.
    apply (traverse_inv (p_depth params)) in Htrav
      as (Hinv & Hlen); [| done | | simpl; lia].
    + bind_inv Hs as shot s12 Hshot. destruct s11 as [w11 log11].
      apply await_log in Hshot as [_ Hshot].
      bind_inv Hs as u s13 Hclose. destruct s12 as [w12 log12].
      apply ret_Return in Hs as [<- <-]. simpl in *. subst log12.
      unfold awaitCall in Hclose. destruct (close w12) as [rc wc].
      injection Hclose as _ <-. simpl. rewrite lastListing_app. simpl.
      split; [by destruct Hinv as (? & _ & ? & _)|lia].
    + split; [apply NoDup_nil_2|]. split; [by intros ? ?%elem_of_nil|].
      split; [done|]. apply Forall_singleton. simpl. lia.
  - do 2 bind_inv Hs. apply ret_Return in Hs as [<- _]. simpl.
    split; [|lia]. split; [apply NoDup_nil_2|done].
Qed.

Lemma runSingle_Return (fuel : nat) (params : PAAParams) (cfg : Config)
    (r : PAARunResult) s s' :
  runSingle fuel params cfg s = (Return r, s') →
  ∃ s1, scrape fuel params cfg s1 = (Return r, s').
Proof.
  unfold runSingle. intros Hr. bind_inv Hr as u s1 Hlaunch. exists s1.
  unfold tryCatch in Hr.
  destruct (scrape fuel params cfg s1) as [[r'|e|] s2]; [done| |done].
  bind_inv Hr. done.
Qed.

End WalkFacts.

(** C1, as amended: a run that returns holds at most
    [max(maxNodes - 1, 0)] items more than the last accordion listing it
    has read has entries. *)
Theorem runSingle_items_bound {W} `{Playwright W} `{Unicode} (fuel : nat)
    (params : PAAParams) (cfg : Config) (r : PAARunResult) s s' :
  runSingle fuel params cfg s = (Return r, s') →
  Z.of_nat (length (items r))
  ≤ Z.max (maxNodes cfg - 1) 0 + Z.of_nat (lastListing s'.2).
Proof.
  intros [s1 Hscrape]%runSingle_Return.
  by apply scrape_Return in Hscrape as [_ Hbound].
Qed.

Lemma runSingle_items_bound_witness :
  match runSingle (H0:=asciiUnicode) 10 (exampleParams 1 2 true)
          (exampleConfig 2) (examplePage 0, []) with
  | (Return r, s') =>
      length (items r) = 3%nat
      ∧ lastListing s'.2 = 3%nat
      ∧ Z.of_nat (length (items r)) ≤ 1 + Z.of_nat (lastListing s'.2)
  | _ => False
  end.
Proof.
  destruct (runSingle 10 (exampleParams 1 2 true) (exampleConfig 2)
              (examplePage 0, [])) as [[r| |] s'] eqn:Hrun;
    [|vm_compute in Hrun; discriminate Hrun..].
  pose proof (runSingle_items_bound (H0:=asciiUnicode) 10
                (exampleParams 1 2 true) (exampleConfig 2) r
                (examplePage 0, []) s' Hrun) as Hbound.
  split; [|split; [|exact Hbound]];
    vm_compute in Hrun; by injection Hrun as <- <-.
Defined.

(** C1, as stated, fails: with a budget of two nodes, a page whose first
    listing has three questions gives a run of three items. *)
Lemma runSingle_budget_counterexample :
  match runSingle (H0:=asciiUnicode) 10 (exampleParams 0 2 true)
          (exampleConfig 2) (examplePage 0, []) with
  | (Return r, _) => maxNodes (exampleConfig 2) < Z.of_nat (length (items r))
  | _ => False
  end.
Proof. vm_compute. reflexivity. Qed.

(** ** The browser is closed *)

Section CloseFacts.
Context {W : Type} `{Playwright W} `{Unicode}.

Lemma awaitCall_log {A} (c : Call) (op : W → outcome A * W) (w : W)
    (log : list Event) (r : outcome A) (s' : W * list Event) :
  awaitCall c op (w, log) = (r, s') →
  s'.2 = log ++ [ browser_call c
                    match r with Throw _ => true | _ => false end ].
Proof. unfold awaitCall. destruct (op w). by intros [= <- <-]. Qed.

(** A run of [scrape] that returns has closed the browser last. *)
Lemma scrape_Return_closed (fuel : nat) (params : PAAParams) (cfg : Config)
    (r : PAARunResult) s s' :
  scrape fuel params cfg s = (Return r, s') →
  ∃ log, s'.2 = log ++ [ browser_call call_close false ].
Proof.
  intros Hs. unfold scrape in Hs.
  do 7 bind_inv Hs. bind_inv Hs as paa s8 Hpaa. destruct paa; simpl in Hs.
  - do 3 bind_inv Hs. bind_inv Hs as shot sA Hshot.
    bind_inv Hs as u sB Hclose. destruct sA as [wA logA].
    apply awaitCall_log in Hclose. apply ret_Return in Hs as [_ <-]. eauto.
  - bind_inv Hs as shot sA Hshot.
    bind_inv Hs as u sB Hclose. destruct sA as [wA logA].
    apply awaitCall_log in Hclose. apply ret_Return in Hs as [_ <-]. eauto.
Qed.

(** Whichever way [runSingle] ends, by a result or by an exception, it has
    called [close] on the browser it has launched. *)
Lemma runSingle_closes (fuel : nat) (params : PAAParams) (cfg : Config)
    (w w' : W) (r : outcome PAARunResult) (log' : list Event) :
  runSingle fuel params cfg (w, []) = (r, (w', log')) →
  r ≠ OutOfFuel →
  log' = [ browser_call call_launch true ]
  ∨ ∃ threw, browser_call call_close threw ∈ log'.
Proof.
  unfold runSingle, mbind, M_bind, bind. intros Hr Hfuel.
  destruct (awaitCall call_launch (launch (proxy cfg)) (w, []))
    as [[[]|e|] [w1 log1]] eqn:Hlaunch;
    apply awaitCall_log in Hlaunch; simpl in Hlaunch; subst log1.
  - right. unfold tryCatch in Hr.
    destruct (scrape fuel params cfg (w1, [browser_call call_launch false]))
      as [[r'|e|] [w2 log2]] eqn:Hscrape.
    + injection Hr as <- <- <-.
      apply scrape_Return_closed in Hscrape as [log Hlog]. simpl in Hlog.
      exists false. rewrite Hlog. apply elem_of_app. right. by left.
    + unfold orElse, tryCatch, ret, throw in Hr.
      destruct (awaitCall call_close close (w2, log2))
        as [rc [w3 log3]] eqn:Hclose.
      apply awaitCall_log in Hclose. simpl in Hclose.
      exists (match rc with Throw _ => true | _ => false end).
      destruct rc; injection Hr as <- <- <-; try done;
        rewrite Hclose; apply elem_of_app; right; by left.
    + by injection Hr as <- _ _.
  - left. by injection Hr as _ _ <-.
  - by injection Hr as <- _ _.
Qed.

End CloseFacts.

(** C9: when [close] fails after a complete traversal, [runSingle] does
    not swallow the failure as its [catch] block does: the exception
    reaches the [catch] block, which closes again and rethrows it. *)
Theorem runSingle_close_failure_propagates :
  match runSingle (H0:=asciiUnicode) 10 (exampleParams 0 2 true)
          (exampleConfig 220) (examplePage 1, []) with
  | (Throw error, (_, log)) =>
      error = js "close failed"
      ∧ log = [ browser_call call_launch false; listing_read 3;
                browser_call call_close true; browser_call call_close false ]
  | _ => False
  end.
Proof. vm_compute. split; reflexivity. Qed.

(** ** The map of [runConsensus] *)

Section MapFacts.
Context {V : Type}.
Implicit Types (m : JsMap V) (key : jsstring) (v : V).

Lemma sameString_true (a b : jsstring) : sameString a b = true ↔ a = b.
Proof. unfold sameString. apply bool_decide_eq_true. Qed.

Lemma sameString_false (a b : jsstring) : sameString a b = false ↔ a ≠ b.
Proof. unfold sameString. apply bool_decide_eq_false. Qed.

Lemma mapGet_None m key : mapGet m key = None ↔ key ∉ m.*1.
Proof.
  induction m as [|[k v] m IH]; simpl.
  - split; [intros _ Hin; by apply elem_of_nil in Hin|done].
  - rewrite not_elem_of_cons. destruct (sameString k key) eqn:E.
    + apply sameString_true in E. split; [done|]. intros [? _]. congruence.
    + apply sameString_false in E. rewrite IH. split; [|tauto].
      intros Hn. split; [congruence|done].
Qed.

Lemma mapGet_Some m key v : mapGet m key = Some v → (key, v) ∈ m.
Proof.
  induction m as [|[k v0] m IH]; simpl; [done|].
  destruct (sameString k key) eqn:E.
  - apply sameString_true in E. intros [= <-]. subst. by left.
  - intros Hm. right. by apply IH.
Qed.

Lemma elem_of_mapGet m key v :
  NoDup m.*1 → (key, v) ∈ m → mapGet m key = Some v.
Proof.
  induction m as [|[k v0] m IH]; intros Hnd Hin; simpl.
  - by apply elem_of_nil in Hin.
  - rewrite fmap_cons in Hnd. apply NoDup_cons in Hnd as [Hk Hnd].
    apply elem_of_cons in Hin as [[= <- <-]|Hin].
    + by rewrite (proj2 (sameString_true key key)).
    + destruct (sameString k key) eqn:E; [|by apply IH].
      apply sameString_true in E. subst k. exfalso. apply Hk.
      apply list_elem_of_fmap. by exists (key, v).
Qed.

Lemma mapSet_keys m key v :
  (mapSet m key v).*1 = if decide (key ∈ m.*1) then m.*1 else m.*1 ++ [key].
Proof.
  induction m as [|[k v0] m IH].
  - destruct (decide (key ∈ ([] : JsMap V).*1)) as [Hin|_]; [|done].
    by apply elem_of_nil in Hin.
  - simpl mapSet. destruct (sameString k key) eqn:E.
    + apply sameString_true in E. subst k.
      destruct (decide (key ∈ ((key, v0) :: m).*1)) as [_|Hn]; [done|].
      exfalso. apply Hn. rewrite fmap_cons. by left.
    + apply sameString_false in E. rewrite !fmap_cons, IH. simpl.
      destruct (decide (key ∈ m.*1)) as [Hin|Hn];
        destruct (decide (key ∈ k :: m.*1)) as [Hin'|Hn']; try done.
      * exfalso. apply Hn'. by right.
      * apply elem_of_cons in Hin' as [->|Hin']; done.
Qed.

Lemma mapSet_NoDup m key v : NoDup m.*1 → NoDup (mapSet m key v).*1.
Proof.
  intros Hnd. rewrite mapSet_keys. destruct (decide (key ∈ m.*1)); [done|].
  apply NoDup_app. split; [done|]. split; [|apply NoDup_singleton].
  intros k Hk ->%list_elem_of_singleton. done.
Qed.

Lemma elem_of_mapSet m key v k v' :
  NoDup m.*1 →
  (k, v') ∈ mapSet m key v →
  (k = key ∧ v' = v) ∨ (k ≠ key ∧ (k, v') ∈ m).
Proof.
  induction m as [|[k0 v0] m IH]; intros Hnd.
  - intros [= -> ->]%list_elem_of_singleton. by left.
  - rewrite fmap_cons in Hnd. apply NoDup_cons in Hnd as [Hk0 Hnd].
    simpl mapSet. simpl in Hk0.
    destruct (sameString k0 key) eqn:E.
    + apply sameString_true in E. subst k0.
      intros [[= -> ->]|Hin]%elem_of_cons; [by left|].
      right. split; [|by right]. intros ->. apply Hk0.
      apply list_elem_of_fmap. by exists (key, v').
    + apply sameString_false in E.
      intros [[= -> ->]|Hin]%elem_of_cons.
      * right. split; [done|]. by left.
      * destruct (IH Hnd Hin) as [?|[? ?]]; [by left|]. right.
        split; [done|]. by right.
Qed.

Lemma mapSet_elem_of m key v : (key, v) ∈ mapSet m key v.
Proof.
  induction m as [|[k0 v0] m IH]; simpl; [by left|].
  destruct (sameString k0 key) eqn:E.
  - apply sameString_true in E. subst. by left.
  - by right.
Qed.

End MapFacts.

Section BuildMapFacts.

Lemma itemsOf_snoc (key : jsstring) (l : list PAAItem) (it : PAAItem) :
  itemsOf key (l ++ [it])
  = itemsOf key l ++ (if sameString (norm it) key then [it] else []).
Proof. unfold itemsOf. by rewrite List.filter_app. Qed.

Lemma itemsOf_nil_iff (key : jsstring) (l : list PAAItem) :
  itemsOf key l = [] ↔ ∀ it, it ∈ l → norm it ≠ key.
Proof.
  unfold itemsOf. induction l as [|x l IH]; simpl.
  - split; [intros _ it Hit; by apply elem_of_nil in Hit|done].
  - destruct (sameString (norm x) key) eqn:E.
    + apply sameString_true in E. split; [done|]. intros Hall.
      exfalso. apply (Hall x); [by left|done].
    + apply sameString_false in E. rewrite IH. split.
      * intros Hall it [->|Hit]%elem_of_cons; auto.
      * intros Hall it Hit. apply Hall. by right.
Qed.

Lemma samplesOf_snoc_same (l : list PAAItem) (it : PAAItem) :
  samplesOf (norm it) (l ++ [it])
  = {| rawSamples := rawSamples (samplesOf (norm it) l) ++ [raw it];
       depths := depths (samplesOf (norm it) l) ++ [depth it];
       parents := parents (samplesOf (norm it) l) ++ [parent it];
       orderIdxs := orderIdxs (samplesOf (norm it) l) ++ [orderIdx it] |}.
Proof.
  unfold samplesOf. rewrite itemsOf_snoc.
  rewrite (proj2 (sameString_true (norm it) (norm it)) eq_refl).
  simpl. by rewrite !fmap_app.
Qed.

Lemma samplesOf_snoc_other (key : jsstring) (l : list PAAItem)
    (it : PAAItem) :
  norm it ≠ key → samplesOf key (l ++ [it]) = samplesOf key l.
Proof.
  intros Hne. unfold samplesOf. rewrite itemsOf_snoc.
  rewrite (proj2 (sameString_false (norm it) key) Hne).
  by rewrite app_nil_r.
Qed.

Lemma represents_addItem (m : JsMap Samples) (l : list PAAItem)
    (it : PAAItem) :
  represents m l → represents (addItem m it) (l ++ [it]).
Proof.
  intros (Hnd & Hkeys & Hent). unfold addItem.
  set (v1 := {| rawSamples := _ |}).
  assert (Hv1 : v1 = samplesOf (norm it) (l ++ [it])).
  { subst v1. rewrite samplesOf_snoc_same.
    destruct (mapGet m (norm it)) as [v0|] eqn:Hget; simpl.
    - apply mapGet_Some in Hget. by destruct (Hent _ _ Hget) as [-> _].
    - apply mapGet_None in Hget.
      assert (Hnone : itemsOf (norm it) l = []).
      { apply itemsOf_nil_iff. intros it' Hit' Heq. apply Hget.
        rewrite <- Heq. by apply Hkeys. }
      unfold samplesOf. by rewrite Hnone. }
  split; [by apply mapSet_NoDup|]. split.
  - intros it' Hit'. rewrite mapSet_keys.
    apply elem_of_app in Hit' as [Hit'| ->%list_elem_of_singleton].
    + destruct (decide (norm it ∈ m.*1)); [by apply Hkeys|].
      apply elem_of_app. left. by apply Hkeys.
    + destruct (decide (norm it ∈ m.*1)); [done|].
      apply elem_of_app. right. by left.
  - intros key v Hin.
    apply elem_of_mapSet in Hin as [[-> ->]|[Hne Hin]]; [| |done].
    + split; [done|]. rewrite itemsOf_snoc.
      rewrite (proj2 (sameString_true (norm it) (norm it)) eq_refl).
      by destruct (itemsOf (norm it) l).
    + destruct (Hent _ _ Hin) as [-> Hne'].
      rewrite samplesOf_snoc_other by done. split; [done|].
      rewrite itemsOf_snoc.
      rewrite (proj2 (sameString_false (norm it) key)) by done.
      by rewrite app_nil_r.
Qed.

Lemma represents_fold (m : JsMap Samples) (l l' : list PAAItem) :
  represents m l → represents (fold_left addItem l' m) (l ++ l').
Proof.
  revert m l. induction l' as [|it l' IH]; intros m l Hm; simpl.
  - by rewrite app_nil_r.
  - rewrite (cons_middle it l l'), app_assoc. apply IH.
    by apply represents_addItem.
Qed.

Lemma fold_left_concat {A B C} (f : A → B → A) (g : C → list B)
    (l : list C) (a : A) :
  fold_left (λ a c, fold_left f (g c) a) l a
  = fold_left f (concat (g <$> l)) a.
Proof.
  revert a. induction l as [|c l IH]; intros a; [done|].
  rewrite fmap_cons. simpl. by rewrite fold_left_app, IH.
Qed.

Lemma buildMap_represents (runs : list PAARunResult) :
  represents (buildMap runs) (allItems runs).
Proof.
  unfold buildMap, allItems. rewrite fold_left_concat.
  apply (represents_fold [] []). split; [apply NoDup_nil_2|].
  split; [by intros ? ?%elem_of_nil|by intros ? ? ?%elem_of_nil].
Qed.

End BuildMapFacts.

(** ** Sorting *)

Section SortFacts.
Context {A : Type} (cmp : A → A → Z).

Lemma elem_of_insertBy (x y : A) (l : list A) :
  y ∈ insertBy cmp x l ↔ y = x ∨ y ∈ l.
Proof.
  induction l as [|z l IH]; simpl.
  - rewrite list_elem_of_singleton, elem_of_nil. tauto.
  - destruct (cmp x z <=? 0).
    + by rewrite !elem_of_cons.
    + rewrite !elem_of_cons, IH. tauto.
Qed.

Lemma elem_of_sortBy (y : A) (l : list A) : y ∈ sortBy cmp l ↔ y ∈ l.
Proof.
  unfold sortBy. induction l as [|x l IH]; simpl; [done|].
  by rewrite elem_of_insertBy, elem_of_cons, IH.
Qed.

Hypothesis cmp_total : ∀ a b, cmp a b ≤ 0 ∨ cmp b a ≤ 0.
Hypothesis cmp_trans : ∀ a b c, cmp a b ≤ 0 → cmp b c ≤ 0 → cmp a c ≤ 0.

Lemma insertBy_sorted (x : A) (l : list A) :
  StronglySorted (λ a b, cmp a b ≤ 0) l →
  StronglySorted (λ a b, cmp a b ≤ 0) (insertBy cmp x l).
Proof.
  induction 1 as [|z l Hl IH Hz]; simpl.
  - repeat constructor.
  - destruct (cmp x z <=? 0) eqn:E.
    + apply Z.leb_le in E. constructor; [by constructor|].
      constructor; [done|].
      eapply Forall_impl; [exact Hz|]. intros b Hb. by eapply cmp_trans.
    + apply Z.leb_gt in E. constructor; [done|].
      apply Forall_forall. intros b Hb%elem_of_insertBy.
      destruct Hb as [->|Hb].
      * destruct (cmp_total z x); [done|lia].
      * by apply (proj1 (Forall_forall _ _) Hz).
Qed.

Lemma sortBy_sorted (l : list A) :
  StronglySorted (λ a b, cmp a b ≤ 0) (sortBy cmp l).
Proof.
  unfold sortBy. induction l as [|x l IH]; simpl; [constructor|].
  by apply insertBy_sorted.
Qed.

End SortFacts.

(** ** What [runConsensus] returns *)

Section ConsensusFacts.
Context `{Unicode}.

Lemma minOf_elem (l : list Z) : l ≠ [] → minOf l ∈ l.
Proof.
  destruct l as [|x l]; [done|]. intros _. simpl.
  revert x. induction l as [|y l IH]; intros x; simpl; [by left|].
  pose proof (IH (Z.min x y)) as Hm. apply elem_of_cons in Hm as [Hm|Hm].
  - rewrite Hm. destruct (Z.min_spec x y) as [[_ ->]|[_ ->]];
      [by left|right; by left].
  - right. by right.
Qed.

(** A result comes from the items of one normalized text. *)
Lemma consensusOf_elem (k : Z) (strict : bool) (runs : list PAARunResult)
    (r : ConsensusPAAResult) :
  r ∈ consensusOf k strict runs →
  let its := itemsOf (cr_norm r) (allItems runs) in
  its ≠ []
  ∧ appearances r = Z.of_nat (length its)
  ∧ cr_depth r = minOf (depth <$> its)
  ∧ confidence r = confidenceOf (appearances r) k (cr_depth r)
  ∧ (if strict then Z.min k 2 else 1) ≤ appearances r.
Proof.
  unfold consensusOf. rewrite elem_of_sortBy.
  intros (x & -> & Hx)%list_elem_of_fmap.
  apply list_elem_of_In, filter_In in Hx as [Hx Hth].
  apply list_elem_of_In, list_elem_of_fmap in Hx as ([key v] & -> & Hkv).
  destruct (buildMap_represents runs) as (_ & _ & Hent).
  destruct (Hent key v Hkv) as [-> Hne]. simpl in *.
  rewrite !length_fmap in *. apply Z.leb_le in Hth. done.
Qed.

(** Every normalized text that reaches the threshold has its result. *)
Lemma consensusOf_key (k : Z) (strict : bool) (runs : list PAARunResult)
    (key : jsstring) :
  itemsOf key (allItems runs) ≠ [] →
  (if strict then Z.min k 2 else 1)
  ≤ Z.of_nat (length (itemsOf key (allItems runs))) →
  key ∈ cr_norm <$> consensusOf k strict runs.
Proof.
  intros Hne Hth.
  destruct (buildMap_represents runs) as (Hnd & Hkeys & Hent).
  assert (Hkey : key ∈ (buildMap runs).*1).
  { destruct (itemsOf key (allItems runs)) as [|it its] eqn:E; [done|].
    assert (Hit : it ∈ itemsOf key (allItems runs)) by (rewrite E; by left).
    apply list_elem_of_In, filter_In in Hit as [Hit Hsame].
    apply sameString_true in Hsame. rewrite <- Hsame.
    by apply Hkeys, list_elem_of_In. }
  apply list_elem_of_fmap in Hkey as ([key' v] & -> & Hkv). simpl in *.
  destruct (Hent key' v Hkv) as [-> _].
  apply list_elem_of_fmap. eexists. split; [|apply elem_of_sortBy].
  2:{ apply list_elem_of_fmap_2, list_elem_of_In, filter_In. split.
      - apply list_elem_of_In.
        apply (list_elem_of_fmap_2 aggregate _ _ Hkv).
      - simpl. rewrite length_fmap. by apply Z.leb_le. }
  done.
Qed.

Lemma itemsOf_NoDup (key : jsstring) (l : list PAAItem) :
  NoDup (norm <$> l) → (length (itemsOf key l) ≤ 1)%nat.
Proof.
  unfold itemsOf. induction l as [|x l IH]; intros Hnd; [simpl; lia|].
  rewrite fmap_cons in Hnd. apply NoDup_cons in Hnd as [Hx Hnd]. simpl.
  destruct (sameString (norm x) key) eqn:E; [|by apply IH].
  apply sameString_true in E. simpl.
  assert (Hnone : List.filter (λ it, sameString (norm it) key) l = []).
  { apply (itemsOf_nil_iff key l). intros it Hit Heq. apply Hx.
    rewrite E, <- Heq. by apply list_elem_of_fmap_2. }
  rewrite Hnone. simpl. lia.
Qed.

(** Runs without duplicates bring a normalized text at most once each. *)
Lemma itemsOf_allItems_length (key : jsstring) (runs : list PAARunResult) :
  Forall (λ r, NoDup (norm <$> items r)) runs →
  (length (itemsOf key (allItems runs)) ≤ length runs)%nat.
Proof.
  unfold allItems, itemsOf. induction 1 as [|r runs Hr _ IH]; [simpl; lia|].
  rewrite fmap_cons. simpl. rewrite List.filter_app, length_app.
  pose proof (itemsOf_NoDup key (items r) Hr) as Hone.
  unfold itemsOf in Hone. lia.
Qed.

Lemma itemsOf_Forall (P : PAAItem → Prop) (key : jsstring)
    (runs : list PAARunResult) :
  Forall (λ r, Forall P (items r)) runs →
  Forall P (itemsOf key (allItems runs)).
Proof.
  intros Hruns. apply Forall_forall.
  intros it [Hit _]%list_elem_of_In%filter_In.
  unfold allItems in Hit. apply in_concat in Hit as (l & Hl & Hit).
  apply list_elem_of_In in Hit.
  apply list_elem_of_In, list_elem_of_fmap in Hl as (r & -> & Hr).
  eapply (proj1 (Forall_forall _ _)); [|exact Hit].
  by eapply (proj1 (Forall_forall _ _) Hruns).
Qed.

Context {W : Type} `{Playwright W}.

Lemma runAll_Return (fuel : nat) (params : PAAParams) (cfg : Config)
    (n : nat) (runs : list PAARunResult) s s' :
  runAll n (runSingle fuel params cfg) s = (Return runs, s') →
  length runs = n ∧ Forall (runInv (p_depth params)) runs.
Proof.
  revert runs s s'. induction n as [|n IH]; intros runs s s' Hr; simpl in Hr.
  - by apply ret_Return in Hr as [<- _].
  - bind_inv Hr as r s1 Hrun. bind_inv Hr as rs s2 Hrest.
    apply ret_Return in Hr as [<- _].
    apply IH in Hrest as [<- Hrs]. split; [done|]. constructor; [|done].
    apply runSingle_Return in Hrun as [s0 Hscrape].
    by apply scrape_Return in Hscrape as [Hinv _].
Qed.

Lemma clampK_range (k : Z) : 1 ≤ clampK k ≤ 3.
Proof. unfold clampK. lia. Qed.

Lemma runConsensus_Return (fuel : nat) (params : PAAParams) (cfg : Config)
    (results : list ConsensusPAAResult)
    (audit : list (jsstring * Evidence)) s s' :
  runConsensus fuel params cfg s = (Return (results, audit), s') →
  ∃ runs,
    Z.of_nat (length runs) = clampK (p_k params)
    ∧ Forall (runInv (p_depth params)) runs
    ∧ results = consensusOf (clampK (p_k params)) (p_strict params) runs
    ∧ audit = (λ r, (serpHash r, evidence r)) <$> runs.
Proof.
  unfold runConsensus. intros Hr. bind_inv Hr as runs s1 Hruns.
  apply ret_Return in Hr as [[= <- <-] _].
  apply runAll_Return in Hruns as [Hlen Hinv]. exists runs.
  pose proof (clampK_range (p_k params)). repeat split; try done. lia.
Qed.

(** The runs of a consensus are those of [runAll]. *)
Lemma runConsensus_runs (fuel : nat) (params : PAAParams) (cfg : Config)
    (results : list ConsensusPAAResult)
    (audit : list (jsstring * Evidence)) s s' :
  runConsensus fuel params cfg s = (Return (results, audit), s') →
  ∃ runs,
    runAll (Z.to_nat (clampK (p_k params))) (runSingle fuel params cfg) s
    = (Return runs, s')
    ∧ results = consensusOf (clampK (p_k params)) (p_strict params) runs.
Proof.
  unfold runConsensus. intros Hr. bind_inv Hr as runs s1 Hruns.
  apply ret_Return in Hr as [[= <- <-] <-]. by exists runs.
Qed.

(** A run without duplicates holds one item of a normalized text or
    none, so the items of a text are as many as the runs that hold it. *)
Lemma itemsOf_holding (key : jsstring) (l : list PAAItem) :
  NoDup (norm <$> l) →
  length (itemsOf key l)
  = if bool_decide (key ∈ norm <$> l) then 1%nat else 0%nat.
Proof.
  intros Hnd. pose proof (itemsOf_NoDup key l Hnd) as Hle.
  case_bool_decide as Hin.
  - apply list_elem_of_fmap in Hin as (it & -> & Hit).
    assert (Hit' : it ∈ itemsOf (norm it) l).
    { apply list_elem_of_In, filter_In. split; [by apply list_elem_of_In|].
      by apply sameString_true. }
    destruct (itemsOf (norm it) l) as [|x [|y r]]; simpl in *;
      [by apply elem_of_nil in Hit'|done|lia].
  - destruct (itemsOf key l) as [|it r] eqn:E; [done|]. exfalso. apply Hin.
    assert (Hit : it ∈ itemsOf key l) by (rewrite E; by left).
    apply list_elem_of_In, filter_In in Hit as [Hit Hsame].
    apply sameString_true in Hsame. rewrite <- Hsame.
    by apply list_elem_of_fmap_2, list_elem_of_In.
Qed.

Lemma appearanceCount_runs (key : jsstring) (runs : list PAARunResult) :
  Forall (λ r, NoDup (norm <$> items r)) runs →
  appearanceCount key runs = Z.of_nat (length (runsHolding key runs)).
Proof.
  intros Hruns.
  unfold appearanceCount, allItems, runsHolding, itemsOf. f_equal.
  induction Hruns as [|r runs Hr _ IH]; [done|].
  rewrite fmap_cons. cbn [concat List.filter].
  rewrite List.filter_app, length_app, IH.
  pose proof (itemsOf_holding key (items r) Hr) as Hone.
  unfold itemsOf in Hone. rewrite Hone.
  by destruct (bool_decide (key ∈ norm <$> items r)).
Qed.

End ConsensusFacts.

(** C3: the appearance count of a result of [runConsensus] lies between 1
    and the clamped number of runs, a run holding no two items of the same
    normalized text. *)
Theorem appearances_range {W} `{Playwright W} `{Unicode} :
  (∀ fuel params cfg r s s',
     runSingle fuel params cfg s = (Return r, s') →
     NoDup (norm <$> items r))
  ∧ (∀ fuel params cfg results audit s s',
       runConsensus fuel params cfg s = (Return (results, audit), s') →
       ∀ r, r ∈ results → 1 ≤ appearances r ≤ clampK (p_k params)).
Proof.
  split.
  - intros fuel params cfg r s s' [s1 Hscrape]%runSingle_Return.
    by apply scrape_Return in Hscrape as [[Hnd _] _].
  - intros fuel params cfg results audit s s' Hrun r Hr.
    apply runConsensus_Return in Hrun as (runs & Hlen & Hinv & -> & _).
    apply consensusOf_elem in Hr as (Hne & -> & _).
    split.
    + destruct (itemsOf (cr_norm r) (allItems runs)); [done|]. simpl. lia.
    + rewrite <- Hlen. apply inj_le, itemsOf_allItems_length.
      eapply Forall_impl; [exact Hinv|]. by intros run [Hnd _].
Qed.

Lemma appearances_range_witness :
  match runConsensus (H:=asciiUnicode) 10 (exampleParams 0 2 true)
          (exampleConfig 220) (examplePage 0, []) with
  | (Return (results, _), _) =>
      Forall (λ r, 1 ≤ appearances r ≤ 2) results
      ∧ appearances <$> results = [2; 2; 2]
  | _ => False
  end.
Proof.
  destruct (runConsensus 10 (exampleParams 0 2 true) (exampleConfig 220)
              (examplePage 0, [])) as [[[results audit]| |] s'] eqn:Hrun;
    [|vm_compute in Hrun; discriminate Hrun..].
  split.
  - apply Forall_forall. intros r Hr.
    exact (proj2 (appearances_range (H0:=asciiUnicode)) 10%nat
             (exampleParams 0 2 true) (exampleConfig 220) results audit
             (examplePage 0, []) s' Hrun r Hr).
  - vm_compute in Hrun. injection Hrun as Hres. by rewrite <- Hres.
Defined.

(** C6: of the normalized texts its runs have found, [runConsensus]
    keeps exactly those that appear in at least one run, or, in strict
    mode, in at least [min(K, 2)] runs, and gives each the number of the
    runs that hold it as its appearance count; for two runs, a text that
    appears in one run only is dropped in strict mode and kept
    otherwise. *)
Theorem quorum_filter {W} `{Playwright W} `{Unicode} (fuel : nat)
    (params : PAAParams) (cfg : Config)
    (results : list ConsensusPAAResult)
    (audit : list (jsstring * Evidence)) s s' :
  runConsensus fuel params cfg s = (Return (results, audit), s') →
  ∃ runs,
    runAll (Z.to_nat (clampK (p_k params))) (runSingle fuel params cfg) s
    = (Return runs, s')
    ∧ (∀ key, key ∈ cr_norm <$> results
              ↔ (if p_strict params then Z.min (clampK (p_k params)) 2
                 else 1)
                ≤ Z.of_nat (length (runsHolding key runs)))
    ∧ (∀ r, r ∈ results →
         appearances r = Z.of_nat (length (runsHolding (cr_norm r) runs)))
    ∧ (clampK (p_k params) = 2 →
       ∀ key, length (runsHolding key runs) = 1%nat →
         (key ∈ cr_norm <$> results ↔ p_strict params = false)).
Proof.
  intros Hrun.
  destruct (runConsensus_runs _ _ _ _ _ _ _ Hrun) as (runs & Hall & ->).
  pose proof (runAll_Return _ _ _ _ _ _ _ Hall) as [_ Hinv].
  assert (Hnd : Forall (λ r, NoDup (norm <$> items r)) runs).
  { eapply Forall_impl; [exact Hinv|]. by intros r [? _]. }
  assert (Hiff : ∀ key,
    key ∈ cr_norm <$> consensusOf (clampK (p_k params)) (p_strict params)
                       runs
    ↔ (if p_strict params then Z.min (clampK (p_k params)) 2 else 1)
      ≤ Z.of_nat (length (runsHolding key runs))).
  { intros key. rewrite <- (appearanceCount_runs key runs Hnd).
    unfold appearanceCount. split.
    - intros (r & -> & Hr)%list_elem_of_fmap.
      by apply consensusOf_elem in Hr as (_ & <- & _ & _ & Hth).
    - intros Hth. apply consensusOf_key; [|done].
      pose proof (clampK_range (p_k params)).
      destruct (itemsOf key (allItems runs)); [|done].
      simpl in Hth. destruct (p_strict params); lia. }
  exists runs. split; [done|]. split; [exact Hiff|]. split.
  - intros r Hr. rewrite <- (appearanceCount_runs _ runs Hnd).
    by apply consensusOf_elem in Hr as (_ & -> & _).
  - intros HK key Hone. rewrite Hiff, HK, Hone.
    destruct (p_strict params); simpl; split; (done || lia).
Qed.

Lemma quorum_filter_witness :
  match runConsensus (H:=asciiUnicode) 10 (exampleParams 0 2 true)
          (exampleConfig 220) (fadingPage, []) with
  | (Return (results, _), _) =>
      cr_norm <$> results = [js "how does seo work?"; js "what is seo?"]
      ∧ js "is seo free?" ∉ cr_norm <$> results
  | _ => False
  end.
Proof.
  destruct (runConsensus 10 (exampleParams 0 2 true) (exampleConfig 220)
              (fadingPage, [])) as [[[results audit]| |] s'] eqn:Hrun;
    [|vm_compute in Hrun; discriminate Hrun..].
  destruct (quorum_filter (H0:=asciiUnicode) 10 (exampleParams 0 2 true)
              (exampleConfig 220) results audit (fadingPage, []) s' Hrun)
    as (runs & Hall & _ & _ & Htwo).
  split.
  - vm_compute in Hrun. injection Hrun as <- _ _. reflexivity.
  - intros Hin. apply (Htwo eq_refl (js "is seo free?")) in Hin; [done|].
    vm_compute in Hall. injection Hall as <- _. reflexivity.
Defined.

Section OrderFacts.
Context `{Unicode}.
Hypothesis localeCompare_total :
  ∀ a b, localeCompare a b ≤ 0 ∨ localeCompare b a ≤ 0.
Hypothesis localeCompare_trans :
  ∀ a b c, localeCompare a b ≤ 0 → localeCompare b c ≤ 0 →
           localeCompare a c ≤ 0.

Lemma compareResults_order (a b : ConsensusPAAResult) :
  compareResults a b ≤ 0 ↔ resultOrder a b.
Proof.
  unfold compareResults, resultOrder. repeat case_bool_decide; lia.
Qed.

Lemma compareResults_total (a b : ConsensusPAAResult) :
  compareResults a b ≤ 0 ∨ compareResults b a ≤ 0.
Proof.
  rewrite !compareResults_order. unfold resultOrder.
  destruct (localeCompare_total (cr_norm a) (cr_norm b)); lia.
Qed.

Lemma compareResults_trans (a b c : ConsensusPAAResult) :
  compareResults a b ≤ 0 → compareResults b c ≤ 0 → compareResults a c ≤ 0.
Proof.
  rewrite !compareResults_order. unfold resultOrder.
  pose proof (localeCompare_trans (cr_norm a) (cr_norm b) (cr_norm c)).
  lia.
Qed.

Lemma consensusOf_sorted (k : Z) (strict : bool)
    (runs : list PAARunResult) :
  StronglySorted resultOrder (consensusOf k strict runs).
Proof.
  unfold consensusOf.
  generalize ((λ x, {| cr_question := ag_raw x; cr_norm := ag_norm x;
                       cr_depth := ag_depth x; cr_parent := ag_parent x;
                       appearances := ag_appearances x;
                       confidence := confidenceOf (ag_appearances x) k
                                       (ag_depth x) |})
              <$> List.filter
                    (λ x, (if strict then Z.min k 2 else 1)
                          <=? ag_appearances x)
                    (aggregate <$> buildMap runs)).
  intros l.
  pose proof (sortBy_sorted compareResults compareResults_total
                compareResults_trans l) as Hs.
  induction Hs as [|x l' Hl IH Hx]; constructor; [done|].
  eapply Forall_impl; [exact Hx|]. intros b. apply compareResults_order.
Qed.

End OrderFacts.

(** C7, as amended: the results of [runConsensus] are sorted by
    descending appearances, then ascending depth, then ascending
    normalized text in the order [localeCompare] gives, a comparison that
    is total and transitive. *)
Theorem results_sorted {W} `{Playwright W} `{Unicode} (fuel : nat)
    (params : PAAParams) (cfg : Config)
    (results : list ConsensusPAAResult)
    (audit : list (jsstring * Evidence)) s s' :
  (∀ a b, localeCompare a b ≤ 0 ∨ localeCompare b a ≤ 0) →
  (∀ a b c, localeCompare a b ≤ 0 → localeCompare b c ≤ 0 →
            localeCompare a c ≤ 0) →
  runConsensus fuel params cfg s = (Return (results, audit), s') →
  StronglySorted resultOrder results.
Proof.
  intros Htotal Htrans Hrun.
  apply runConsensus_Return in Hrun as (runs & _ & _ & -> & _).
  by apply consensusOf_sorted.
Qed.

Lemma compareCodePoints_total (a b : jsstring) :
  compareCodePoints a b ≤ 0 ∨ compareCodePoints b a ≤ 0.
Proof.
  revert b. induction a as [|x a IH]; intros [|y b]; simpl; try lia.
  destruct (N.ltb_spec x y), (N.ltb_spec y x); try lia. apply IH.
Qed.

Lemma compareCodePoints_trans (a b c : jsstring) :
  compareCodePoints a b ≤ 0 → compareCodePoints b c ≤ 0 →
  compareCodePoints a c ≤ 0.
Proof.
  revert b c. induction a as [|x a IH]; intros [|y b] [|z c]; simpl;
    try lia.
  destruct (N.ltb_spec x y), (N.ltb_spec y x), (N.ltb_spec y z),
    (N.ltb_spec z y), (N.ltb_spec x z), (N.ltb_spec z x); try lia.
  apply IH.
Qed.

Lemma compareCollated_total (a b : jsstring) :
  compareCollated a b ≤ 0 ∨ compareCollated b a ≤ 0.
Proof. apply compareCodePoints_total. Qed.

Lemma compareCollated_trans (a b c : jsstring) :
  compareCollated a b ≤ 0 → compareCollated b c ≤ 0 →
  compareCollated a c ≤ 0.
Proof. apply compareCodePoints_trans. Qed.

Lemma results_sorted_witness :
  match runConsensus (H:=collatingUnicode) 10 (exampleParams 0 1 true)
          (exampleConfig 220) (digitsPage, []) with
  | (Return (results, _), _) =>
      StronglySorted (resultOrder (H:=collatingUnicode)) results
      ∧ (λ r, (appearances r, cr_depth r, cr_norm r)) <$> results
        = [ (1, 0, js "top 1?"); (1, 0, js "top 10?") ]
  | _ => False
  end.
Proof.
  destruct (runConsensus 10 (exampleParams 0 1 true) (exampleConfig 220)
              (digitsPage, [])) as [[[results audit]| |] s'] eqn:Hrun;
    [|vm_compute in Hrun; discriminate Hrun..].
  split.
  - exact (results_sorted (H0:=collatingUnicode) 10 (exampleParams 0 1 true)
             (exampleConfig 220) results audit (digitsPage, []) s'
             compareCollated_total compareCollated_trans Hrun).
  - vm_compute in Hrun. injection Hrun as <- _ _. reflexivity.
Defined.

(** C7, as stated, fails: where the collation puts the question mark
    before the digits, [runConsensus] returns [top 1?] before [top 10?],
    two texts of the same appearances and depth, although [top 10?] is
    the first of the two in the lexicographic order of the code points. *)
Lemma results_lexicographic_counterexample :
  match runConsensus (H:=collatingUnicode) 10 (exampleParams 0 1 true)
          (exampleConfig 220) (digitsPage, []) with
  | (Return (results, _), _) =>
      ∃ r1 r2, results = [r1; r2]
        ∧ appearances r1 = appearances r2
        ∧ cr_depth r1 = cr_depth r2
        ∧ compareCodePoints (cr_norm r2) (cr_norm r1) < 0
  | _ => False
  end.
Proof. vm_compute. do 2 eexists. repeat split. Qed.

(** ** The confidence *)

Lemma confidenceChecked_sound (a K d : Z) :
  confidenceChecked a K d = true →
  ∃ n, confidenceOf a K d = (floatOfZ n / 1000)%float
       ∧ isRounded3 a K d n
       ∧ 0 < n ≤ 1000
       ∧ PrimFloat.ltb 0%float (confidenceOf a K d) = true
       ∧ PrimFloat.leb (confidenceOf a K d) 1%float = true.
Proof.
  unfold confidenceChecked.
  destruct (Prim2SF (scoreOf a K d)) as [| | |[] m e] eqn:E; try done.
  rewrite !andb_true_iff, negb_true_iff.
  intros (((((Hbig & Hn%Z.leb_le) & Hpos%Z.ltb_lt) & Hle%Z.leb_le) & Hlt)
          & Hone).
  exists (thousandths m e). repeat split; try done.
  unfold confidenceOf, fixed3. by rewrite E, Hbig.
Qed.

(** The check succeeds for one, two or three runs at every depth up to
    1000. *)
Lemma confidenceChecked_upto_1000 :
  forallb (λ d, confidenceChecked 1 1 d && confidenceChecked 1 2 d
                && confidenceChecked 2 2 d && confidenceChecked 1 3 d
                && confidenceChecked 2 3 d && confidenceChecked 3 3 d)
    (seqZ 0 1001) = true.
Proof. vm_compute. reflexivity. Qed.

Lemma confidenceChecked_range (a K d : Z) :
  1 ≤ K ≤ 3 → 1 ≤ a ≤ K → 0 ≤ d ≤ 1000 → confidenceChecked a K d = true.
Proof.
  intros HK Ha Hd.
  assert (Hin : In d (seqZ 0 1001)).
  { apply list_elem_of_In, elem_of_seqZ. lia. }
  pose proof (proj1 (forallb_forall _ _) confidenceChecked_upto_1000 d Hin)
    as Hall.
  cbv beta in Hall. rewrite !andb_true_iff in Hall.
  destruct Hall as (((((H11 & H12) & H22) & H13) & H23) & H33).
  assert (HaK : (a = 1 ∧ K = 1) ∨ (a = 1 ∧ K = 2) ∨ (a = 2 ∧ K = 2)
                ∨ (a = 1 ∧ K = 3) ∨ (a = 2 ∧ K = 3) ∨ (a = 3 ∧ K = 3))
    by lia.
  destruct HaK as [[-> ->]|[[-> ->]|[[-> ->]|[[-> ->]|[[-> ->]|[-> ->]]]]]];
    done.
Qed.

(** C4: the confidence of a result of [runConsensus] is the score
    [0.6 * (appearances / K) + 0.4 * (1 / (1 + depth))] printed with three
    decimals and read back: a number of thousandths nearest to the exact
    score, in (0, 1], for a requested depth up to 1000; two appearances in
    two runs at depth 0 give 1, one appearance in two runs at depth 1 gives
    0.5. *)
Theorem confidence_formula {W} `{Playwright W} `{Unicode} :
  confidenceOf 2 2 0 = 1%float
  ∧ confidenceOf 1 2 1 = 0.5%float
  ∧ ∀ fuel params cfg results audit s s',
      runConsensus fuel params cfg s = (Return (results, audit), s') →
      p_depth params ≤ 1000 →
      ∀ r, r ∈ results →
        confidence r
        = confidenceOf (appearances r) (clampK (p_k params)) (cr_depth r)
        ∧ ∃ n, confidence r = (floatOfZ n / 1000)%float
               ∧ isRounded3 (appearances r) (clampK (p_k params))
                   (cr_depth r) n
               ∧ 0 < n ≤ 1000
               ∧ PrimFloat.ltb 0%float (confidence r) = true
               ∧ PrimFloat.leb (confidence r) 1%float = true.
Proof.
  split; [reflexivity|]. split; [reflexivity|].
  intros fuel params cfg results audit s s' Hrun Hdepth r Hr.
  apply runConsensus_Return in Hrun as (runs & Hlen & Hinv & -> & _).
  apply consensusOf_elem in Hr as (Hne & Happ & Hd & Hconf & _).
  split; [done|]. rewrite Hconf.
  apply confidenceChecked_sound, confidenceChecked_range.
  - apply clampK_range.
  - rewrite Happ. split.
    + destruct (itemsOf (cr_norm r) (allItems runs)); [done|]. simpl. lia.
    + rewrite <- Hlen. apply inj_le, itemsOf_allItems_length.
      eapply Forall_impl; [exact Hinv|]. by intros run [Hnd _].
  - assert (Hin : cr_depth r ∈ depth <$> itemsOf (cr_norm r) (allItems runs)).
    { rewrite Hd. apply minOf_elem. intros Hnil.
      by apply fmap_nil_inv in Hnil. }
    apply list_elem_of_fmap in Hin as (it & -> & Hit).
    assert (Hall : Forall (λ it, 0 ≤ depth it ≤ Z.max 0 (p_depth params))
                     (itemsOf (cr_norm r) (allItems runs))).
    { apply itemsOf_Forall. eapply Forall_impl; [exact Hinv|].
      by intros run [_ Hdep]. }
    pose proof (proj1 (Forall_forall _ _) Hall it Hit) as Hrange.
    cbv beta in Hrange. lia.
Qed.

Lemma confidence_formula_witness :
  match runConsensus (H:=asciiUnicode) 10 (exampleParams 0 2 true)
          (exampleConfig 220) (examplePage 0, []) with
  | (Return (results, _), _) =>
      Forall (λ r, PrimFloat.ltb 0%float (confidence r) = true
                   ∧ PrimFloat.leb (confidence r) 1%float = true) results
      ∧ confidence <$> results = [1%float; 1%float; 1%float]
  | _ => False
  end.
Proof.
  destruct (runConsensus 10 (exampleParams 0 2 true) (exampleConfig 220)
              (examplePage 0, [])) as [[[results audit]| |] s'] eqn:Hrun;
    [|vm_compute in Hrun; discriminate Hrun..].
  split.
  - apply Forall_forall. intros r Hr.
    destruct (proj2 (proj2 (confidence_formula (H0:=asciiUnicode))) 10%nat
                (exampleParams 0 2 true) (exampleConfig 220) results audit
                (examplePage 0, []) s' Hrun ltac:(simpl; lia)
                r Hr) as (_ & n & _ & _ & _ & Hpos & Hone).
    by split.
  - vm_compute in Hrun. injection Hrun as Hres. by rewrite <- Hres.
Defined.

(** ** The most common string *)

Section TopStringFacts.

Lemma occurrences_snoc (s x : jsstring) (arr : list jsstring) :
  occurrences s (arr ++ [x])
  = occurrences s arr + (if sameString s x then 1 else 0).
Proof.
  unfold occurrences. rewrite List.filter_app, length_app. simpl.
  destruct (sameString s x); simpl; lia.
Qed.

Lemma occurrences_pos (s : jsstring) (arr : list jsstring) :
  s ∈ arr ↔ 0 < occurrences s arr.
Proof.
  unfold occurrences. induction arr as [|x arr IH]; simpl.
  - rewrite elem_of_nil. lia.
  - rewrite elem_of_cons. destruct (sameString s x) eqn:E.
    + apply sameString_true in E. simpl. split; [lia|by left].
    + apply sameString_false in E. rewrite IH. split; [|tauto].
      by intros [?|?].
Qed.

Lemma findIndexFrom_range {A} (pred : A → bool) (i : Z) (l : list A) :
  findIndexFrom pred i l = -1 ∧ Forall (λ x, pred x = false) l
  ∨ i ≤ findIndexFrom pred i l < i + Z.of_nat (length l)
    ∧ ∃ x, l !! Z.to_nat (findIndexFrom pred i l - i) = Some x
           ∧ pred x = true.
Proof.
  revert i. induction l as [|x l IH]; intros i; simpl.
  - left. by split.
  - destruct (pred x) eqn:E.
    + right. split; [lia|]. exists x. by rewrite Z.sub_diag.
    + destruct (IH (i + 1)) as [[-> Hall]|[Hr (y & Hy & Hp)]].
      * left. split; [done|]. by constructor.
      * right. split; [lia|]. exists y. split; [|done].
        replace (Z.to_nat (findIndexFrom pred (i + 1) l - i))
          with (S (Z.to_nat (findIndexFrom pred (i + 1) l - (i + 1))))
          by lia.
        done.
Qed.

Lemma findIndexFrom_app {A} (pred : A → bool) (i : Z) (l m : list A) :
  findIndexFrom pred i (l ++ m)
  = if forallb (λ x, negb (pred x)) l
    then findIndexFrom pred (i + Z.of_nat (length l)) m
    else findIndexFrom pred i l.
Proof.
  revert i. induction l as [|x l IH]; intros i; simpl.
  - by rewrite Z.add_0_r.
  - destruct (pred x); simpl; [done|]. rewrite IH.
    replace (i + 1 + Z.of_nat (length l)) with (i + Z.pos (Pos.of_succ_nat (length l)))
      by lia.
    done.
Qed.

Lemma findIndex_elem (s : jsstring) (arr : list jsstring) :
  s ∈ arr → 0 ≤ findIndex (sameString s) arr < Z.of_nat (length arr).
Proof.
  intros Hs. unfold findIndex.
  destruct (findIndexFrom_range (sameString s) 0 arr) as [[_ Hall]|[Hr _]];
    [|lia].
  exfalso. pose proof (proj1 (Forall_forall _ _) Hall s Hs) as Hf.
  by apply sameString_false in Hf.
Qed.

Lemma findIndex_snoc_elem (s x : jsstring) (arr : list jsstring) :
  s ∈ arr →
  findIndex (sameString s) (arr ++ [x]) = findIndex (sameString s) arr.
Proof.
  intros Hs. unfold findIndex. rewrite findIndexFrom_app.
  destruct (forallb (λ y, negb (sameString s y)) arr) eqn:E; [|done].
  exfalso. rewrite forallb_forall in E.
  specialize (E s (proj1 (list_elem_of_In _ _) Hs)).
  apply negb_true_iff, sameString_false in E. done.
Qed.

Lemma findIndex_snoc_new (x : jsstring) (arr : list jsstring) :
  x ∉ arr →
  findIndex (sameString x) (arr ++ [x]) = Z.of_nat (length arr).
Proof.
  intros Hx. unfold findIndex. rewrite findIndexFrom_app.
  destruct (forallb (λ y, negb (sameString x y)) arr) eqn:E.
  - simpl. by rewrite (proj2 (sameString_true x x)).
  - exfalso. apply not_true_iff_false in E. apply E, forallb_forall.
    intros y Hy%list_elem_of_In. apply negb_true_iff, sameString_false.
    by intros <-.
Qed.

Lemma mapSet_other {V} (m : JsMap V) (key k : jsstring) (v v' : V) :
  k ≠ key → (k, v') ∈ m → (k, v') ∈ mapSet m key v.
Proof.
  intros Hne. induction m as [|[k0 v0] m IH]; simpl.
  - by intros ?%elem_of_nil.
  - intros [[= <- <-]|Hin]%elem_of_cons.
    + destruct (sameString k key) eqn:E; [|by left].
      by apply sameString_true in E.
    + destruct (sameString k0 key); right; [done|by apply IH].
Qed.

Lemma countStrings_snoc (arr : list jsstring) (x : jsstring) :
  countStrings (arr ++ [x])
  = mapSet (countStrings arr) x
      (default 0 (mapGet (countStrings arr) x) + 1).
Proof. unfold countStrings. by rewrite fold_left_app. Qed.

Lemma countStrings_counted (arr : list jsstring) :
  counted (countStrings arr) arr.
Proof.
  induction arr as [|x arr IH] using rev_ind.
  { split; [apply NoDup_nil_2|]. split.
    - intros k v. split; [by intros ?%elem_of_nil|].
      by intros [?%elem_of_nil _].
    - intros l1 a l2 b Hm. by destruct l1. }
  destruct IH as (Hnd & Hent & Hord). rewrite countStrings_snoc.
  set (m := countStrings arr) in *.
  assert (Hval : default 0 (mapGet m x) + 1 = occurrences x (arr ++ [x])).
  { rewrite occurrences_snoc, (proj2 (sameString_true x x)) by done.
    destruct (mapGet m x) as [v0|] eqn:Hget; simpl.
    - apply mapGet_Some, Hent in Hget as [_ ->]. done.
    - apply mapGet_None in Hget.
      destruct (decide (x ∈ arr)) as [Hin|Hn].
      + exfalso. apply Hget, list_elem_of_fmap.
        exists (x, occurrences x arr). split; [done|]. by apply Hent.
      + assert (¬ 0 < occurrences x arr) by (by rewrite <- occurrences_pos).
        unfold occurrences in *. lia. }
  assert (Hkeys : ∀ k, k ∈ m.*1 ↔ k ∈ arr).
  { intros k. rewrite list_elem_of_fmap. split.
    - intros ([k' v] & -> & Hkv). by apply Hent in Hkv as [? _].
    - intros Hk. exists (k, occurrences k arr). split; [done|].
      by apply Hent. }
  split; [by apply mapSet_NoDup|]. split.
  - intros k v. rewrite elem_of_app, list_elem_of_singleton. split.
    + intros Hin. apply elem_of_mapSet in Hin as [[-> ->]|[Hne Hkv]];
        [| |done].
      * split; [by right|done].
      * apply Hent in Hkv as [Hk ->]. split; [by left|].
        rewrite occurrences_snoc.
        destruct (sameString k x) eqn:E; [|lia].
        by apply sameString_true in E.
    + intros [Hk ->]. destruct (decide (k = x)) as [->|Hne].
      * rewrite <- Hval. apply mapSet_elem_of.
      * apply mapSet_other; [done|]. apply Hent.
        destruct Hk as [Hk|Hk]; [|done]. split; [done|].
        rewrite occurrences_snoc.
        destruct (sameString k x) eqn:E; [|lia].
        by apply sameString_true in E.
  - intros l1 a l2 b Hm Hb.
    apply (f_equal (fmap fst)) in Hm.
    rewrite mapSet_keys, fmap_app, fmap_cons in Hm.
    assert (Hkey_ord : ∀ k1 a1 k2 b1, m.*1 = k1 ++ a1 :: k2 → b1 ∈ k2 →
              findIndex (sameString a1) arr < findIndex (sameString b1) arr).
    { intros k1 a1 k2 b1 Hk Hb1.
      apply list_elem_of_split in Hb1 as (k3 & k4 & ->).
      apply fmap_app_inv in Hk as (m1 & m2 & -> & Hk & Hm1).
      symmetry in Hk. apply fmap_cons_inv in Hk as (ea & m3 & -> & Hk & ->).
      symmetry in Hk. apply fmap_app_inv in Hk as (m4 & m5 & -> & Hk & ->).
      symmetry in Hk. apply fmap_cons_inv in Hk as (eb & m6 & -> & -> & ->).
      eapply (Hord m1 ea (m4 ++ eb :: m6) eb); [done|].
      apply elem_of_app. right. by left. }
    assert (Hb' : b.1 ∈ l2.*1) by (by apply list_elem_of_fmap_2).
    destruct (decide (x ∈ m.*1)) as [Hin|Hn].
    + assert (Ha1 : a.1 ∈ arr).
      { apply Hkeys. rewrite Hm. apply elem_of_app. right. by left. }
      assert (Hb1 : b.1 ∈ arr).
      { apply Hkeys. rewrite Hm. apply elem_of_app. right. by right. }
      rewrite !findIndex_snoc_elem by done. by eapply Hkey_ord.
    + assert (Hl2 : l2.*1 ≠ []).
      { intros E. rewrite E in Hb'. by apply elem_of_nil in Hb'. }
      destruct (exists_last Hl2) as (k2 & z & Hk2). rewrite Hk2 in Hm, Hb'.
      rewrite app_comm_cons, app_assoc in Hm.
      apply app_inj_tail in Hm as [Hm <-].
      assert (Ha1 : a.1 ∈ arr).
      { apply Hkeys. rewrite Hm. apply elem_of_app. right. by left. }
      rewrite (findIndex_snoc_elem (a.1)) by done.
      apply elem_of_app in Hb' as [Hb'|Hb'].
      2:{ apply list_elem_of_singleton in Hb'. rewrite Hb'.
          rewrite findIndex_snoc_new by (by rewrite <- Hkeys).
          by apply findIndex_elem. }
      * assert (Hb1 : b.1 ∈ arr).
        { apply Hkeys. rewrite Hm. apply elem_of_app. right. by right. }
        rewrite findIndex_snoc_elem by done. by eapply Hkey_ord.
Qed.

(** What sorting by decreasing count puts first: the first of the entries
    that have the largest count. *)
Lemma head_sortBy_count (m : JsMap Z) :
  m ≠ [] →
  ∃ l1 e l2, m = l1 ++ e :: l2
    ∧ head (sortBy (λ a b : jsstring * Z, b.2 - a.2) m) = Some e
    ∧ Forall (λ y, y.2 < e.2) l1 ∧ Forall (λ y, y.2 ≤ e.2) l2.
Proof.
  induction m as [|x m IH]; [done|]. intros _.
  destruct m as [|y m'].
  { exists [], x, []. by repeat split. }
  destruct IH as (l1 & e & l2 & Hm & Hhead & H1 & H2); [done|].
  unfold sortBy in *. simpl foldr in *.
  destruct (insertBy _ y _) as [|h t] eqn:Hs; [done|].
  injection Hhead as ->. rewrite Hm. simpl insertBy.
  destruct (e.2 - x.2 <=? 0) eqn:E.
  - apply Z.leb_le in E. exists [], x, (l1 ++ e :: l2).
    split; [done|]. split; [done|]. split; [done|].
    apply Forall_app. split.
    + eapply Forall_impl; [exact H1|]. simpl. lia.
    + constructor; [lia|]. eapply Forall_impl; [exact H2|]. simpl. lia.
  - apply Z.leb_gt in E. exists (x :: l1), e, l2.
    split; [done|]. split; [done|]. split; [|done].
    constructor; [lia|done].
Qed.

Lemma topString_spec (arr : list jsstring) :
  arr ≠ [] →
  topString arr ∈ arr
  ∧ ∀ s, occurrences s arr ≤ occurrences (topString arr) arr
         ∧ (s ∈ arr →
            occurrences s arr = occurrences (topString arr) arr →
            findIndex (sameString (topString arr)) arr
            ≤ findIndex (sameString s) arr).
Proof.
  intros Hne.
  destruct (countStrings_counted arr) as (Hnd & Hent & Hord).
  assert (Hm : countStrings arr ≠ []).
  { destruct arr as [|x arr]; [done|].
    assert (Hx : (x, occurrences x (x :: arr)) ∈ countStrings (x :: arr)).
    { apply Hent. split; [by left|done]. }
    intros E. rewrite E in Hx. by apply elem_of_nil in Hx. }
  destruct (head_sortBy_count _ Hm) as (l1 & e & l2 & Hsplit & Hhead & H1 & H2).
  assert (Htop : topString arr = e.1).
  { unfold topString. destruct arr; [done|].
    destruct (sortBy _ _); [done|]. by injection Hhead as ->. }
  assert (He : (e.1, e.2) ∈ countStrings arr).
  { rewrite Hsplit. apply elem_of_app. right. destruct e. by left. }
  apply Hent in He as [He Hcount]. rewrite Htop.
  split; [done|]. intros s.
  destruct (decide (s ∈ arr)) as [Hs|Hs].
  - assert (Hin : (s, occurrences s arr) ∈ countStrings arr)
      by (by apply Hent).
    rewrite Hsplit in Hin. rewrite <- Hcount.
    apply elem_of_app in Hin as [Hin|[Hin|Hin]%elem_of_cons].
    + pose proof (proj1 (Forall_forall _ _) H1 _ Hin) as Hlt. simpl in Hlt.
      split; [lia|]. intros _ Heq. lia.
    + split; [rewrite <- Hin; simpl; lia|]. intros _ _.
      by rewrite <- Hin.
    + pose proof (proj1 (Forall_forall _ _) H2 _ Hin) as Hle. simpl in Hle.
      split; [done|]. intros _ _.
      apply Z.lt_le_incl. by apply (Hord l1 e l2 (s, occurrences s arr)).
  - split; [|done].
    assert (¬ 0 < occurrences s arr) by (by rewrite <- occurrences_pos).
    assert (0 < occurrences e.1 arr) by (by apply occurrences_pos).
    lia.
Qed.

End TopStringFacts.

(** X1: [topString] returns a string of the array that occurs most often
    in it, and of the strings that occur as often the one met first. *)
Theorem topString_most_common (arr : list jsstring) :
  arr ≠ [] →
  topString arr ∈ arr
  ∧ ∀ s, occurrences s arr ≤ occurrences (topString arr) arr
         ∧ (s ∈ arr →
            occurrences s arr = occurrences (topString arr) arr →
            findIndex (sameString (topString arr)) arr
            ≤ findIndex (sameString s) arr).
Proof. apply topString_spec. Qed.

Lemma topString_most_common_witness :
  let arr := [js "SEO?"; js "Seo?"; js "seo?"; js "Seo?"; js "SEO?"] in
  topString arr = js "SEO?"
  ∧ occurrences (js "Seo?") arr ≤ occurrences (topString arr) arr
  ∧ occurrences (js "seo?") arr ≤ occurrences (topString arr) arr.
Proof.
  intros arr. split; [reflexivity|].
  assert (Hne : arr ≠ []) by done.
  destruct (topString_most_common arr Hne) as [_ Hmax].
  split; apply Hmax.
Defined.

(** ** The items of a run *)

Section TreeFacts.
Context {W : Type} `{Playwright W} `{Unicode}.

Lemma parentOk_mono (known known' : list jsstring) d p :
  known ⊆ known' → parentOk known d p → parentOk known' d p.
Proof.
  intros Hsub. destruct p as [x|]; simpl; [|done].
  intros [? ?]. split; [done|]. by apply Hsub.
Qed.

Lemma parentsFirst_snoc (known : list jsstring) (l : list PAAItem)
    (x : PAAItem) :
  parentsFirst known l →
  parentOk (known ++ (norm <$> l)) (depth x) (parent x) →
  parentsFirst known (l ++ [x]).
Proof.
  revert known. induction l as [|y l IH]; intros known; simpl.
  - rewrite app_nil_r. done.
  - intros [Hy Hl] Hx. split; [done|]. apply IH; [done|].
    by rewrite <- app_assoc.
Qed.

Lemma parentsFirst_lookup (known : list jsstring) (l : list PAAItem)
    (i : nat) (it : PAAItem) :
  parentsFirst known l → l !! i = Some it →
  parentOk (known ++ (norm <$> take i l)) (depth it) (parent it).
Proof.
  revert known i. induction l as [|y l IH]; intros known i; [done|].
  simpl. intros [Hy Hl]. destruct i as [|i]; simpl.
  - intros [= <-]. by rewrite app_nil_r.
  - intros Hit. specialize (IH _ _ Hl Hit). by rewrite <- app_assoc in IH.
Qed.

Lemma recordItem_tree (node : QNode) (it : AccordionItem) (st : Walk) :
  walkTree st →
  parentOk (norm <$> w_items st) (q_depth node) (q_parent node) →
  walkTree (recordItem node it st)
  ∧ normalize (trim (acc_question it))
    ∈ norm <$> w_items (recordItem node it st)
  ∧ norm <$> w_items st ⊆ norm <$> w_items (recordItem node it st).
Proof.
  intros (Htext & Hseen & Hpar & Hqueue) Hnode. unfold recordItem.
  case_bool_decide as Hin.
  - split; [done|]. split; [by apply Hseen|done].
  - simpl. rewrite fmap_app. simpl. split; [|split].
    + split; [|split; [|split]]; simpl.
      * apply Forall_app. split; [done|]. apply Forall_singleton. simpl.
        split; [done|apply trim_idempotent].
      * intros x. rewrite fmap_app, elem_of_union, elem_of_app, Hseen.
        simpl. by rewrite elem_of_singleton, list_elem_of_singleton.
      * apply parentsFirst_snoc; [done|]. done.
      * rewrite fmap_app. eapply Forall_impl; [exact Hqueue|].
        intros n. apply parentOk_mono. intros x Hx.
        apply elem_of_app. by left.
    + apply elem_of_app. right. by left.
    + intros x Hx. apply elem_of_app. by left.
Qed.

Lemma visit_tree (params : PAAParams) (cfg : Config) (node : QNode)
    (it : AccordionItem) (st st' : Walk) s s' :
  visit params cfg node it st s = (Return st', s') →
  walkTree st →
  parentOk (norm <$> w_items st) (q_depth node) (q_parent node) →
  walkTree st' ∧ norm <$> w_items st ⊆ norm <$> w_items st'.
Proof.
  intros Hv Hinv Hnode.
  destruct (recordItem_tree node it st Hinv Hnode) as (Hrec & Hnorm & Hsub).
  apply visit_Return in Hv as [->|(_ & _ & crop2 & ->)]; [done|].
  split; [|done]. destruct Hrec as (Htext & Hseen & Hpar & Hqueue).
  split; [done|]. split; [done|]. split; [done|]. simpl.
  apply Forall_app. split; [done|]. apply Forall_singleton. simpl.
  split; [|done]. destruct (q_parent node); simpl in Hnode; lia.
Qed.

Lemma visitAll_tree (params : PAAParams) (cfg : Config) (node : QNode)
    (acc : list AccordionItem) (st st' : Walk) s s' :
  visitAll params cfg node acc st s = (Return st', s') →
  walkTree st →
  parentOk (norm <$> w_items st) (q_depth node) (q_parent node) →
  walkTree st'.
Proof.
  revert st s. induction acc as [|it acc IH]; intros st s Hv Hinv Hnode;
    simpl in Hv.
  - by apply ret_Return in Hv as [<- _].
  - bind_inv Hv as st1 s1 Hvisit.
    destruct (visit_tree _ _ _ _ _ _ _ _ Hvisit Hinv Hnode) as [Hinv1 Hsub].
    eapply IH; [exact Hv|done|]. by eapply parentOk_mono.
Qed.

Lemma traverse_tree (fuel : nat) (params : PAAParams) (cfg : Config)
    (started : Z) (st st' : Walk) s s' :
  traverse fuel params cfg started st s = (Return st', s') →
  walkTree st → walkTree st'.
Proof.
  revert st s. induction fuel as [|fuel IH]; intros st s Ht Hinv; [done|].
  simpl in Ht. destruct (queue st) as [|node rest] eqn:Hq.
  { by apply ret_Return in Ht as [<- _]. }
  bind_inv Ht as t s1 Hclock.
  destruct (maxMs cfg <? t - started).
  { by apply ret_Return in Ht as [<- _]. }
  bind_inv Ht as acc s2 Hacc. bind_inv Ht as st1 s3 Hvisit.
  destruct Hinv as (Htext & Hseen & Hpar & Hqueue). rewrite Hq in Hqueue.
  apply Forall_cons in Hqueue as [Hnode Hrest].
  apply visitAll_tree in Hvisit; [|done..].
  destruct (maxNodes cfg <=? Z.of_nat (length (w_items st1))).
  - by apply ret_Return in Ht as [<- _].
  - by eapply IH.
Qed.

Lemma scrape_tree (fuel : nat) (params : PAAParams) (cfg : Config)
    (r : PAARunResult) s s' :
  scrape fuel params cfg s = (Return r, s') →
  Forall (λ it, norm it = normalize (raw it) ∧ trim (raw it) = raw it)
    (items r)
  ∧ parentsFirst [] (items r).
Proof.
  intros Hs. unfold scrape in Hs.
  do 7 bind_inv Hs. bind_inv Hs as paa s8 Hpaa. destruct paa; simpl in Hs.
  - do 2 bind_inv Hs. bind_inv Hs as st s11 Htrav.
    apply traverse_tree in Htrav as (Htext & _ & Hpar & _).
    + do 2 bind_inv Hs. by apply ret_Return in Hs as [<- _].
    + split; [done|]. split; [|split; [done|]]; simpl.
      * intros x. by rewrite elem_of_empty, elem_of_nil.
      * by apply Forall_singleton.
  - do 2 bind_inv Hs. by apply ret_Return in Hs as [<- _].
Qed.

End TreeFacts.



(** X3: the items of a run come parents first: an item at depth 0 has no
    parent, and a deeper one names as its parent the normalized text of an
    item that stands before it in the list. *)
Theorem runSingle_parents_first {W} `{Playwright W} `{Unicode} (fuel : nat)
    (params : PAAParams) (cfg : Config) (r : PAARunResult) s s' :
  runSingle fuel params cfg s = (Return r, s') →
  ∀ (i : nat) (it : PAAItem), items r !! i = Some it →
    match parent it with
    | None => depth it = 0
    | Some p => 0 < depth it ∧ p ∈ norm <$> take i (items r)
    end.
Proof.
  intros [s1 Hscrape]%runSingle_Return i it Hit.
  apply scrape_tree in Hscrape as [_ Hpar].
  exact (parentsFirst_lookup [] _ _ _ Hpar Hit).
Qed.

Lemma runSingle_parents_first_witness :
  match runSingle (H0:=asciiUnicode) 10 (exampleParams 1 2 true)
          (exampleConfig 220) (answeredPage, []) with
  | (Return r, _) =>
      ∃ it, items r !! 3%nat = Some it
            ∧ raw it = js "Why is SEO important?"
            ∧ parent it = Some (js "what is seo?")
            ∧ 0 < depth it
            ∧ js "what is seo?" ∈ norm <$> take 3 (items r)
  | _ => False
  end.
Proof.
  destruct (runSingle 10 (exampleParams 1 2 true) (exampleConfig 220)
              (answeredPage, [])) as [[r| |] s'] eqn:Hrun;
    [|vm_compute in Hrun; discriminate Hrun..].
  pose proof (runSingle_parents_first (H0:=asciiUnicode) 10
                (exampleParams 1 2 true) (exampleConfig 220) r
                (answeredPage, []) s' Hrun 3%nat) as Hparent.
  vm_compute in Hrun. injection Hrun as <- _.
  eexists. split; [reflexivity|].
  specialize (Hparent _ eq_refl) as [Hdepth Hin].
  split; [reflexivity|]. split; [reflexivity|].
  split; [exact Hdepth|exact Hin].
Defined.

(** ** What a result of the consensus holds *)

Section AggregateFacts.
Context `{Unicode}.

Lemma insertBy_Permutation {A} (cmp : A → A → Z) (x : A) (l : list A) :
  insertBy cmp x l ≡ₚ x :: l.
Proof.
  induction l as [|y l IH]; simpl; [done|].
  destruct (cmp x y <=? 0); [done|]. rewrite IH. apply Permutation_swap.
Qed.

Lemma sortBy_Permutation {A} (cmp : A → A → Z) (l : list A) :
  sortBy cmp l ≡ₚ l.
Proof.
  unfold sortBy. induction l as [|x l IH]; simpl; [done|].
  by rewrite insertBy_Permutation, IH.
Qed.

Lemma minOf_le (l : list Z) (x : Z) : x ∈ l → minOf l ≤ x.
Proof.
  destruct l as [|y l]; [by intros ?%elem_of_nil|]. simpl.
  assert (Hfold : ∀ l a, fold_left Z.min l a ≤ a
                         ∧ ∀ x, x ∈ l → fold_left Z.min l a ≤ x).
  { clear. induction l as [|z l IH]; intros a; simpl.
    - split; [lia|]. by intros x ?%elem_of_nil.
    - destruct (IH (Z.min a z)) as [Ha Hl]. split; [lia|].
      intros x [->|Hx]%elem_of_cons; [lia|by apply Hl]. }
  destruct (Hfold l y) as [Hy Hl].
  intros [->|Hx]%elem_of_cons; [done|by apply Hl].
Qed.

(** A result, in full, from the items of its normalized text. *)
Lemma consensusOf_result (k : Z) (strict : bool) (runs : list PAARunResult)
    (r : ConsensusPAAResult) :
  r ∈ consensusOf k strict runs →
  let its := itemsOf (cr_norm r) (allItems runs) in
  its ≠ []
  ∧ cr_question r = topString (raw <$> its)
  ∧ cr_depth r = minOf (depth <$> its)
  ∧ cr_parent r = match topString (truthyStrings (parent <$> its)) with
                  | [] => None
                  | p => Some p
                  end.
Proof.
  unfold consensusOf. rewrite elem_of_sortBy.
  intros (x & -> & Hx)%list_elem_of_fmap.
  apply list_elem_of_In, filter_In in Hx as [Hx Hth].
  apply list_elem_of_In, list_elem_of_fmap in Hx as ([key v] & -> & Hkv).
  destruct (buildMap_represents runs) as (_ & _ & Hent).
  destruct (Hent key v Hkv) as [-> Hne]. by simpl.
Qed.

Lemma truthyStrings_elem (l : list (option jsstring)) (p : jsstring) :
  p ∈ truthyStrings l ↔ Some p ∈ l ∧ p ≠ [].
Proof.
  unfold truthyStrings. rewrite list_elem_of_omap. split.
  - intros ([[|c q]|] & Hin & Heq); try done. injection Heq as <-. done.
  - intros [Hin Hne]. exists (Some p). split; [done|]. by destruct p.
Qed.

Lemma keys_sublist (threshold : Z) (m : JsMap Samples) :
  ag_norm <$> List.filter (λ x, threshold <=? ag_appearances x)
                (aggregate <$> m)
  `sublist_of` m.*1.
Proof.
  induction m as [|[key v] m IH]; simpl; [done|].
  destruct (threshold <=? _); simpl.
  - by apply sublist_skip.
  - by apply sublist_cons.
Qed.

End AggregateFacts.

(** X4: the results of a consensus hold every normalized text at most
    once. *)
Theorem consensus_one_result_per_text `{Unicode} (k : Z) (strict : bool)
    (runs : list PAARunResult) :
  NoDup (cr_norm <$> consensusOf k strict runs).
Proof.
  unfold consensusOf. rewrite sortBy_Permutation, <- list_fmap_compose.
  destruct (buildMap_represents runs) as (Hnd & _ & _).
  apply (sublist_NoDup _ (buildMap runs).*1); [done|].
  apply (keys_sublist (if strict then Z.min k 2 else 1)).
Qed.

(** X5: a result of the consensus speaks for the items of its normalized
    text in all the runs: its question is the raw text most of them carry
    (the first met of two as common), its depth is the smallest of their
    depths, and its parent, when it has one, is a non-empty parent of one
    of them. *)
Theorem consensus_aggregates `{Unicode} (k : Z) (strict : bool)
    (runs : list PAARunResult) (r : ConsensusPAAResult) :
  r ∈ consensusOf k strict runs →
  let its := itemsOf (cr_norm r) (allItems runs) in
  cr_question r ∈ raw <$> its
  ∧ (∀ s, occurrences s (raw <$> its)
          ≤ occurrences (cr_question r) (raw <$> its))
  ∧ cr_depth r ∈ depth <$> its
  ∧ Forall (λ it, cr_depth r ≤ depth it) its
  ∧ match cr_parent r with
    | Some p => p ≠ [] ∧ Some p ∈ parent <$> its
    | None => Forall (λ it, parent it = None ∨ parent it = Some []) its
    end.
Proof.
  intros Hr. apply consensusOf_result in Hr as (Hne & Hq & Hd & Hp).
  simpl. set (its := itemsOf (cr_norm r) (allItems runs)) in *.
  assert (Hraws : raw <$> its ≠ []) by (by destruct its).
  destruct (topString_spec _ Hraws) as [Htop Hmax].
  split; [|split; [|split; [|split]]].
  - by rewrite Hq.
  - intros s. rewrite Hq. apply Hmax.
  - rewrite Hd. apply minOf_elem. by destruct its.
  - apply Forall_forall. intros it Hit. rewrite Hd. apply minOf_le.
    by apply list_elem_of_fmap_2.
  - rewrite Hp.
    destruct (truthyStrings (parent <$> its)) as [|p0 ps] eqn:Hps.
    + simpl. apply Forall_forall. intros it Hit.
      destruct (parent it) as [[|c q]|] eqn:Hpar; [by right| |by left].
      exfalso. assert (Hin : (c :: q) ∈ truthyStrings (parent <$> its)).
      { apply truthyStrings_elem. split; [|done]. rewrite <- Hpar.
        by apply list_elem_of_fmap_2. }
      rewrite Hps in Hin. by apply elem_of_nil in Hin.
    + assert (Htop' : topString (p0 :: ps) ∈ p0 :: ps)
        by (by apply topString_spec).
      rewrite <- Hps in Htop'. apply truthyStrings_elem in Htop' as [Hin Hn].
      rewrite Hps in *. by destruct (topString (p0 :: ps)).
Qed.

Lemma consensus_aggregates_witness :
  match consensusOf (H:=asciiUnicode) 3 true mixedRuns with
  | [r] =>
      cr_question r = js "What is SEO?" ∧ cr_depth r = 0
      ∧ cr_question r
        ∈ raw <$> itemsOf (cr_norm r) (allItems mixedRuns)
      ∧ Forall (λ it, cr_depth r ≤ depth it)
          (itemsOf (cr_norm r) (allItems mixedRuns))
  | _ => False
  end.
Proof.
  destruct (consensusOf 3 true mixedRuns) as [|r [|r' l]] eqn:E;
    [vm_compute in E; discriminate E| |vm_compute in E; discriminate E].
  assert (Hr : r ∈ consensusOf (H:=asciiUnicode) 3 true mixedRuns)
    by (rewrite E; by left).
  destruct (consensus_aggregates (H:=asciiUnicode) 3 true mixedRuns r Hr)
    as (Hq & _ & _ & Hd & _).
  vm_compute in E. injection E as <-. repeat split; [exact Hq|exact Hd].
Defined.

(** ** The sessions of a consensus *)

Section SessionFacts.
Context {W : Type} `{Playwright W} `{Unicode}.

Lemma countCalls_app (c : Call) (l1 l2 : list Event) :
  countCalls c (l1 ++ l2) = (countCalls c l1 + countCalls c l2)%nat.
Proof. unfold countCalls. by rewrite List.filter_app, length_app. Qed.

Lemma dismissConsent_log (selectors : list jsstring) (u : unit) s s' :
  dismissConsent selectors s = (Return u, s') → s'.2 = s.2.
Proof.
  revert s. induction selectors as [|sel rest IH]; intros s Hd; simpl in Hd.
  - by apply ret_Return in Hd as [_ <-].
  - bind_inv Hd as btn s1 Hq. destruct s as [w log].
    apply await_log in Hq as [_ Hq]. destruct btn.
    + bind_inv Hd as u1 s2 Hclick. destruct s1 as [w1 log1].
      apply orElse_await_log in Hclick. destruct s2 as [w2 log2].
      apply await_log in Hd as [_ Hd]. simpl in *. congruence.
    + apply IH in Hd. simpl in *. congruence.
Qed.

Lemma traverse_calls (c : Call) (fuel : nat) (params : PAAParams)
    (cfg : Config) (started : Z) (st st' : Walk) s s' :
  traverse fuel params cfg started st s = (Return st', s') →
  countCalls c s'.2 = countCalls c s.2.
Proof.
  revert st s. induction fuel as [|fuel IH]; intros st s Ht; [done|].
  simpl in Ht. destruct (queue st) as [|node rest].
  { by apply ret_Return in Ht as [_ <-]. }
  bind_inv Ht as t s1 Hclock. destruct s as [w log].
  apply readClock_log in Hclock. destruct s1 as [w1 log1].
  simpl in Hclock. subst log1.
  destruct (maxMs cfg <? t - started).
  { by apply ret_Return in Ht as [_ <-]. }
  bind_inv Ht as acc s2 Hacc.
  assert (Hs2 : s2.2 = log ++ [listing_read (length acc)]).
  { unfold awaitListing in Hacc.
    destruct (getAccordionItems w1) as [[acc'|e|] w2]; try done.
    by injection Hacc as -> <-. }
  bind_inv Ht as st1 s3 Hvisit. apply visitAll_log in Hvisit.
  assert (Hs3 : countCalls c s3.2 = countCalls c log).
  { rewrite Hvisit, Hs2, countCalls_app. unfold countCalls.
    destruct c; simpl; lia. }
  destruct (maxNodes cfg <=? Z.of_nat (length (w_items st1))).
  - by apply ret_Return in Ht as [_ <-].
  - apply IH in Ht. simpl. congruence.
Qed.

(** A run of [scrape] that returns has closed the browser once. *)
Lemma scrape_calls (fuel : nat) (params : PAAParams) (cfg : Config)
    (r : PAARunResult) s s' :
  scrape fuel params cfg s = (Return r, s') →
  countCalls call_launch s'.2 = countCalls call_launch s.2
  ∧ countCalls call_close s'.2 = S (countCalls call_close s.2).
Proof.
  intros Hs. unfold scrape in Hs. destruct s as [w log].
  bind_inv Hs as u1 s1 H1. apply await_log in H1 as [_ H1].
  bind_inv Hs as u2 s2 H2. destruct s1 as [w1 log1].
  apply await_log in H2 as [_ H2].
  bind_inv Hs as started s3 H3. destruct s2 as [w2 log2].
  apply readClock_log in H3.
  bind_inv Hs as u4 s4 H4. destruct s3 as [w3 log3].
  apply await_log in H4 as [_ H4].
  bind_inv Hs as u5 s5 H5. destruct s4 as [w4 log4].
  apply orElse_await_log in H5.
  bind_inv Hs as u6 s6 H6. apply dismissConsent_log in H6.
  bind_inv Hs as hash s7 H7. destruct s6 as [w6 log6].
  apply (orElse_await_log serpDigest) in H7.
  bind_inv Hs as paa s8 H8. destruct s7 as [w7 log7].
  apply await_log in H8 as [_ H8]. simpl in *.
  assert (Hlog8 : s8.2 = log) by congruence. clear H1 H2 H3 H4 H5 H6 H7 H8.
  destruct paa; simpl in Hs.
  - bind_inv Hs as html s9 H9. destruct s8 as [w8 log8].
    apply await_log in H9 as [_ H9].
    bind_inv Hs as crop sA HA. destruct s9 as [w9 log9].
    apply await_log in HA as [_ HA].
    bind_inv Hs as st sB HB.
    pose proof (traverse_calls call_launch _ _ _ _ _ _ _ _ HB) as Hl.
    pose proof (traverse_calls call_close _ _ _ _ _ _ _ _ HB) as Hc.
    bind_inv Hs as shot sC HC. destruct sB as [wB logB].
    apply await_log in HC as [_ HC].
    bind_inv Hs as u sD HD. destruct sC as [wC logC].
    apply awaitCall_log in HD. apply ret_Return in Hs as [_ <-].
    simpl in *. subst. rewrite HD, !countCalls_app.
    unfold countCalls in *. simpl. split; lia.
  - bind_inv Hs as shot sC HC. destruct s8 as [w8 log8].
    apply await_log in HC as [_ HC].
    bind_inv Hs as u sD HD. destruct sC as [wC logC].
    apply awaitCall_log in HD. apply ret_Return in Hs as [_ <-].
    simpl in *. subst. rewrite HD, !countCalls_app.
    unfold countCalls in *. simpl. split; lia.
Qed.

Lemma runSingle_calls (fuel : nat) (params : PAAParams) (cfg : Config)
    (r : PAARunResult) s s' :
  runSingle fuel params cfg s = (Return r, s') →
  countCalls call_launch s'.2 = S (countCalls call_launch s.2)
  ∧ countCalls call_close s'.2 = S (countCalls call_close s.2).
Proof.
  unfold runSingle. intros Hr. bind_inv Hr as u s1 Hlaunch.
  destruct s as [w log]. apply awaitCall_log in Hlaunch.
  unfold tryCatch in Hr.
  destruct (scrape fuel params cfg s1) as [[r'|e|] s2] eqn:Hscrape;
    [|by bind_inv Hr|done].
  injection Hr as <- <-. apply scrape_calls in Hscrape as [Hl Hc].
  rewrite Hl, Hc, Hlaunch, !countCalls_app.
  unfold countCalls. simpl. split; lia.
Qed.

Lemma runAll_calls (fuel : nat) (params : PAAParams) (cfg : Config)
    (n : nat) (runs : list PAARunResult) s s' :
  runAll n (runSingle fuel params cfg) s = (Return runs, s') →
  countCalls call_launch s'.2 = (countCalls call_launch s.2 + n)%nat
  ∧ countCalls call_close s'.2 = (countCalls call_close s.2 + n)%nat.
Proof.
  revert runs s. induction n as [|n IH]; intros runs s Hr; simpl in Hr.
  - apply ret_Return in Hr as [_ <-]. split; lia.
  - bind_inv Hr as r s1 Hrun. bind_inv Hr as rs s2 Hrest.
    apply ret_Return in Hr as [_ <-].
    apply runSingle_calls in Hrun as [Hl Hc].
    apply IH in Hrest as [Hl' Hc']. split; lia.
Qed.

End SessionFacts.

(** X6: a consensus that returns has run [K = min(max(k || 1, 1), 3)]
    sessions: it has launched [K] browsers, closed [K], and hands back the
    hash and the evidence of [K] runs. *)
Theorem runConsensus_sessions {W} `{Playwright W} `{Unicode} (fuel : nat)
    (params : PAAParams) (cfg : Config)
    (results : list ConsensusPAAResult)
    (audit : list (jsstring * Evidence)) s s' :
  runConsensus fuel params cfg s = (Return (results, audit), s') →
  let K := Z.to_nat (clampK (p_k params)) in
  length audit = K
  ∧ countCalls call_launch s'.2 = (countCalls call_launch s.2 + K)%nat
  ∧ countCalls call_close s'.2 = (countCalls call_close s.2 + K)%nat.
Proof.
  unfold runConsensus. intros Hr. bind_inv Hr as runs s1 Hruns.
  apply ret_Return in Hr as [[= <- <-] <-].
  pose proof (runAll_calls _ _ _ _ _ _ _ Hruns) as [Hl Hc].
  apply runAll_Return in Hruns as [Hlen _]. simpl.
  by rewrite length_fmap.
Qed.

Lemma runConsensus_sessions_witness :
  match runConsensus (H:=asciiUnicode) 10 (exampleParams 0 7 true)
          (exampleConfig 220) (examplePage 0, []) with
  | (Return (results, audit), (_, log)) =>
      length audit = 3%nat
      ∧ countCalls call_launch log = 3%nat
      ∧ countCalls call_close log = 3%nat
  | _ => False
  end.
Proof.
  destruct (runConsensus 10 (exampleParams 0 7 true) (exampleConfig 220)
              (examplePage 0, [])) as [[[results audit]| |] [w' log]] eqn:Hrun;
    [|vm_compute in Hrun; discriminate Hrun..].
  exact (runConsensus_sessions (H0:=asciiUnicode) 10%nat
           (exampleParams 0 7 true) (exampleConfig 220) results audit
           (examplePage 0, []) (w', log) Hrun).
Defined.

(** ** The shape of a normalized text *)

Section ShapeFacts.

Lemma singleSpaced_no_pair (inRun : bool) (s : jsstring) (i : nat) (c d : N) :
  singleSpaced inRun s →
  s !! i = Some c → s !! S i = Some d →
  isWhiteSpace c = true → isWhiteSpace d = false.
Proof.
  revert inRun i. induction s as [|x s IH]; intros inRun i; [done|]. simpl.
  destruct i as [|i]; simpl.
  - intros Hs [= ->] Hd Hc. rewrite Hc in Hs. destruct Hs as (_ & _ & Hs).
    destruct s as [|y s]; [done|]. injection Hd as ->. simpl in Hs.
    destruct (isWhiteSpace d); [|done]. by destruct Hs as (_ & ? & _).
  - intros Hs. destruct (isWhiteSpace x).
    + destruct Hs as (_ & _ & Hs). by apply (IH true).
    + by apply (IH false).
Qed.

Lemma singleSpaced_space (inRun : bool) (s : jsstring) :
  singleSpaced inRun s → Forall (λ c, isWhiteSpace c = true → c = 32%N) s.
Proof.
  revert inRun. induction s as [|x s IH]; intros inRun; [done|]. simpl.
  destruct (isWhiteSpace x) eqn:Hx.
  - intros (-> & _ & Hs). constructor; [done|by apply (IH true)].
  - intros Hs. constructor; [by rewrite Hx|by apply (IH false)].
Qed.

End ShapeFacts.

(** X7: a normalized text is made of letters, numbers, question marks and
    single spaces: every white space character in it is a space, no two
    spaces are neighbours, and there is none at either end. *)
Theorem normalize_shape `{Unicode} (s : jsstring) :
  Forall (λ c, isNormalChar c = true ∧ (isWhiteSpace c = true → c = 32%N))
    (normalize s)
  ∧ (∀ (i : nat) c d, normalize s !! i = Some c →
       normalize s !! S i = Some d →
       isWhiteSpace c = true → isWhiteSpace d = false)
  ∧ trim (normalize s) = normalize s.
Proof.
  assert (Hss : singleSpaced false (normalize s)).
  { unfold normalize, trim. apply singleSpaced_trimEnd.
    eapply singleSpaced_trimStart, collapseFrom_singleSpaced. }
  split; [|split].
  - apply Forall_and. split; [|by apply (singleSpaced_space false)].
    unfold normalize. apply trim_Forall, collapseFrom_Forall.
    + apply isNormalChar_space.
    + unfold blankOthers. apply Forall_fmap, Forall_true. intros c. simpl.
      destruct (isNormalChar c) eqn:Hc; [done|apply isNormalChar_space].
  - intros i c d. by apply (singleSpaced_no_pair false).
  - unfold normalize. apply trim_idempotent.
Qed.

(** ** The hash of a question *)

Section Base64Facts.

Local Ltac n_arith :=
  repeat first
    [ rewrite andb_true_iff in * | rewrite orb_true_iff in *
    | rewrite N.leb_le in * | rewrite N.ltb_lt in * | rewrite N.eqb_eq in * ].

Lemma base64Digit_inj (d e : N) :
  (d < 64)%N → (e < 64)%N → base64Digit d = base64Digit e → d = e.
Proof.
  unfold base64Digit. intros Hd He.
  destruct (N.ltb_spec d 26), (N.ltb_spec d 52), (N.ltb_spec d 62),
    (N.eqb_spec d 62), (N.ltb_spec e 26), (N.ltb_spec e 52),
    (N.ltb_spec e 62), (N.eqb_spec e 62); lia.
Qed.

Lemma base64Digit_char (d : N) :
  (d < 64)%N → isBase64Char (base64Digit d) = true ∧ base64Digit d ≠ 61%N.
Proof.
  unfold base64Digit, isBase64Char. intros Hd.
  destruct (N.ltb_spec d 26), (N.ltb_spec d 52), (N.ltb_spec d 62),
    (N.eqb_spec d 62); (split; [|lia]); n_arith; lia.
Qed.

Lemma list_ind3 {A} (P : list A → Prop) :
  P [] → (∀ a, P [a]) → (∀ a b, P [a; b]) →
  (∀ a b c r, P r → P (a :: b :: c :: r)) →
  ∀ l, P l.
Proof.
  intros H0 H1 H2 H3 l.
  assert (Hall : ∀ n l, (length l ≤ n)%nat → P l).
  { clear l. induction n as [|n IH]; intros l Hl.
    - destruct l; [done|simpl in Hl; lia].
    - destruct l as [|a [|b [|c r]]]; auto.
      apply H3, IH. simpl in Hl. lia. }
  by apply (Hall (length l)).
Qed.

Local Ltac div_lia := zify; Z.to_euclidean_division_equations; lia.

Local Ltac byte_bounds :=
  repeat match goal with
         | H : Forall _ (_ :: _) |- _ => apply Forall_cons in H as [? H]
         | H : (_ <=? _)%N = true |- _ => apply N.leb_le in H
         end.

Lemma base64_chars (s : list N) :
  Forall (λ b, (b <=? 0xFF)%N = true) s →
  Forall (λ c, isBase64Char c = true) (base64 s).
Proof.
  induction s as [|a|a b|a b c r IH] using list_ind3; intros Hs.
  - constructor.
  - byte_bounds. cbn [base64].
    repeat first [ apply Forall_cons; split | apply Forall_nil_2 ]; try done;
      apply base64Digit_char; div_lia.
  - byte_bounds. cbn [base64].
    repeat first [ apply Forall_cons; split | apply Forall_nil_2 ]; try done;
      apply base64Digit_char; div_lia.
  - byte_bounds. change (base64 (a :: b :: c :: r)) with
      ([base64Digit (a / 4); base64Digit ((a mod 4) * 16 + b / 16);
        base64Digit ((b mod 16) * 4 + c / 64); base64Digit (c mod 64)]
       ++ base64 r)%N.
    apply Forall_app. split; [|by apply IH].
    repeat first [ apply Forall_cons; split | apply Forall_nil_2 ]; try done;
      apply base64Digit_char; div_lia.
Qed.

Lemma base64_length (s : list N) : (length (base64 s) ≤ 4 * length s)%nat.
Proof.
  induction s as [|a|a b|a b c r IH] using list_ind3; simpl in *; lia.
Qed.

(** The first [4 * k] characters of the base64 text encode the first
    [3 * k] bytes. *)
Lemma base64_take (k : nat) (s : list N) :
  take (4 * k) (base64 s) = base64 (take (3 * k) s).
Proof.
  revert s. induction k as [|k IH]; intros s; [done|].
  replace (4 * S k)%nat with (S (S (S (S (4 * k))))) by lia.
  replace (3 * S k)%nat with (S (S (S (3 * k)))) by lia.
  destruct s as [|a [|b [|c r]]].
  - done.
  - simpl. by rewrite take_nil.
  - simpl. by rewrite !take_nil.
  - change (base64 (a :: b :: c :: r)) with
      ([base64Digit (a / 4); base64Digit ((a mod 4) * 16 + b / 16);
        base64Digit ((b mod 16) * 4 + c / 64); base64Digit (c mod 64)]
       ++ base64 r)%N.
    simpl take. rewrite IH. done.
Qed.

Lemma cons4_inv {A} (x1 x2 x3 x4 y1 y2 y3 y4 : A) (l l' : list A) :
  x1 :: x2 :: x3 :: x4 :: l = y1 :: y2 :: y3 :: y4 :: l' →
  x1 = y1 ∧ x2 = y2 ∧ x3 = y3 ∧ x4 = y4 ∧ l = l'.
Proof. by intros [= -> -> -> -> ->]. Qed.

Lemma sextet_split (x y x' y' m : N) :
  (y < m)%N → (y' < m)%N → (x * m + y = x' * m + y')%N → x = x' ∧ y = y'.
Proof.
  intros Hy Hy' Heq. apply (N.div_mod_unique m); [done..|].
  by rewrite !(N.mul_comm m).
Qed.

Lemma byte_parts (a a' m : N) :
  (a / m = a' / m)%N → (a mod m = a' mod m)%N → a = a'.
Proof.
  intros Hq Hr. rewrite (N.div_mod' a m), (N.div_mod' a' m). congruence.
Qed.

Lemma base64_inj (s t : list N) :
  Forall (λ b, (b <=? 0xFF)%N = true) s →
  Forall (λ b, (b <=? 0xFF)%N = true) t →
  base64 s = base64 t → s = t.
Proof.
  assert (Hdig : ∀ d e, (d < 64)%N → (e < 64)%N →
                        base64Digit d = base64Digit e → d = e)
    by apply base64Digit_inj.
  assert (Hpad : ∀ d, (d < 64)%N → base64Digit d ≠ 61%N)
    by (intros d Hd; by apply base64Digit_char).
  assert (H4 : ∀ a : N, (a ≤ 255 → a / 4 < 64)%N) by (intros; div_lia).
  assert (H16 : ∀ a b : N, (b ≤ 255 → a mod 4 * 16 + b / 16 < 64)%N)
    by (intros; div_lia).
  assert (H16' : ∀ a : N, (a mod 4 * 16 < 64)%N) by (intros; div_lia).
  assert (H64 : ∀ b c : N, (c ≤ 255 → b mod 16 * 4 + c / 64 < 64)%N)
    by (intros; div_lia).
  assert (H64' : ∀ b : N, (b mod 16 * 4 < 64)%N) by (intros; div_lia).
  assert (Hm : ∀ c : N, (c mod 64 < 64)%N) by (intros; div_lia).
  assert (Hb16 : ∀ b : N, (b ≤ 255 → b / 16 < 16)%N) by (intros; div_lia).
  assert (Hc64 : ∀ c : N, (c ≤ 255 → c / 64 < 4)%N) by (intros; div_lia).
  revert t. induction s as [|a|a b|a b c r IH] using list_ind3;
    intros t Hs Ht; destruct t as [|a' [|b' [|c' r']]]; try done;
    byte_bounds.
  all: try (change (base64 (a :: b :: c :: r)) with
      ([base64Digit (a / 4); base64Digit ((a mod 4) * 16 + b / 16);
        base64Digit ((b mod 16) * 4 + c / 64); base64Digit (c mod 64)]
       ++ base64 r)%N).
  all: try (change (base64 (a' :: b' :: c' :: r')) with
      ([base64Digit (a' / 4); base64Digit ((a' mod 4) * 16 + b' / 16);
        base64Digit ((b' mod 16) * 4 + c' / 64); base64Digit (c' mod 64)]
       ++ base64 r')%N).
  all: cbn [base64 app]; intros Heq;
    apply cons4_inv in Heq as (E1 & E2 & E3 & E4 & Heq).
  - (* one byte, one byte *)
    apply Hdig in E1, E2; auto.
    assert (a mod 4 = a' mod 4)%N by lia.
    f_equal. by apply (byte_parts a a' 4).
  - (* one byte, two bytes *)
    symmetry in E3. by apply Hpad in E3.
  - symmetry in E3. by apply Hpad in E3; auto.
  - by apply Hpad in E3.
  - (* two bytes, two bytes *)
    apply Hdig in E1, E2, E3; auto.
    apply sextet_split in E2 as [E2 E2']; auto.
    assert (a mod 4 = a' mod 4)%N by lia.
    assert (b mod 16 = b' mod 16)%N by lia.
    f_equal; [by apply (byte_parts a a' 4)|].
    f_equal. by apply (byte_parts b b' 16).
  - symmetry in E4. by apply Hpad in E4.
  - by apply Hpad in E3; auto.
  - by apply Hpad in E4.
  - (* three bytes and more *)
    apply Hdig in E1, E2, E3, E4; auto.
    apply sextet_split in E2 as [E2 E2']; auto.
    apply sextet_split in E3 as [E3 E3']; auto.
    assert (a mod 4 = a' mod 4)%N by lia.
    assert (b mod 16 = b' mod 16)%N by lia.
    assert (r = r') as -> by (by apply IH).
    f_equal; [by apply (byte_parts a a' 4)|].
    f_equal; [by apply (byte_parts b b' 16)|].
    f_equal. by apply (byte_parts c c' 64).
Qed.

End Base64Facts.

Lemma base64_take32 (s : list N) :
  take 32 (base64 s) = base64 (take 24 s).
Proof. exact (base64_take 8 s). Qed.

Section HashFacts.
Context `{Unicode}.

(** The hash is the base64 text of the first 24 bytes of the URI-encoded
    normalized question. *)
Lemma hashQuestion_bytes (t : jsstring) :
  ∃ e, encodeURIComponent (normalizeQuestion t) = Some e
       ∧ Forall (λ b, (b <=? 0xFF)%N = true) e
       ∧ hashQuestion t = Some (base64 (take 24 e)).
Proof.
  destruct (encodeURIComponent_plain _ (normalizeQuestion_plain t))
    as (e & He & Hbytes).
  exists e. split; [done|]. split; [done|].
  unfold hashQuestion. rewrite He. simpl. unfold btoa.
  assert (He' : forallb (λ c, (c <=? 0xFF)%N) e = true).
  { apply forallb_forall. intros b Hb.
    by apply (proj1 (List.Forall_forall _ e) Hbytes b). }
  rewrite He'. simpl. by rewrite base64_take32.
Qed.

End HashFacts.

(** X8: [hashQuestion] never throws, whatever the text: the normalized
    question holds nothing [encodeURIComponent] or [btoa] refuses.  The
    hash has at most 32 characters, of the base64 alphabet. *)
Theorem hashQuestion_shape `{Unicode} (t : jsstring) :
  ∃ h, hashQuestion t = Some h
       ∧ (length h ≤ 32)%nat
       ∧ Forall (λ c, isBase64Char c = true) h.
Proof.
  destruct (hashQuestion_bytes t) as (e & He & Hbytes & Hh).
  exists (base64 (take 24 e)). split; [done|]. split.
  - rewrite <- base64_take32. rewrite length_take. lia.
  - apply base64_chars. by apply Forall_take.
Qed.

(** X9: two questions have the same hash exactly when the URI-encoded
    forms of their normalized texts agree on the first 24 bytes: what
    follows does not count. *)
Theorem hashQuestion_prefix `{Unicode} (t1 t2 e1 e2 : jsstring) :
  encodeURIComponent (normalizeQuestion t1) = Some e1 →
  encodeURIComponent (normalizeQuestion t2) = Some e2 →
  hashQuestion t1 = hashQuestion t2 ↔ take 24 e1 = take 24 e2.
Proof.
  intros He1 He2.
  destruct (hashQuestion_bytes t1) as (e1' & He1' & Hb1 & ->).
  destruct (hashQuestion_bytes t2) as (e2' & He2' & Hb2 & ->).
  assert (e1' = e1) as -> by congruence.
  assert (e2' = e2) as -> by congruence.
  split.
  - intros [= Heq]. apply base64_inj in Heq; [done|by apply Forall_take..].
  - by intros ->.
Qed.

Lemma hashQuestion_prefix_witness :
  hashQuestion (H:=asciiUnicode) (js "What is the best SEO tool?")
  = hashQuestion (H:=asciiUnicode)
      (js "What is the best season to visit Japan?").
Proof.
  eapply (hashQuestion_prefix (H:=asciiUnicode)); reflexivity.
Defined.

(** ** What the diff reports *)

Section DiffMoreFacts.

Lemma filter_sublist {A} (f : A → bool) (l : list A) :
  List.filter f l `sublist_of` l.
Proof.
  induction l as [|x l IH]; simpl; [done|].
  destruct (f x); [by apply sublist_skip|by apply sublist_cons].
Qed.

Lemma findIndex_first (h : jsstring) (previous : list PrevQuestion) :
  h ∈ pq_hash <$> previous →
  firstIndexOf h previous
    (findIndex (λ p, sameString (pq_hash p) h) previous).
Proof.
  intros Hin. unfold findIndex, firstIndexOf.
  destruct (findIndexFrom_shift (λ p, sameString (pq_hash p) h) 0 previous)
    as [[_ Hall]|(n & -> & (x & Hx & Hp) & Hlt)].
  - exfalso. apply list_elem_of_fmap in Hin as (p & -> & Hp).
    specialize (Hall p Hp). by apply sameString_false in Hall.
  - exists n. split; [lia|]. apply sameString_true in Hp. split.
    + by rewrite list_lookup_fmap, Hx, <- Hp.
    + intros Hbefore. apply list_elem_of_lookup in Hbefore as [m Hm].
      apply lookup_take_Some in Hm as [Hm Hmn].
      rewrite list_lookup_fmap in Hm.
      destruct (previous !! m) as [y|] eqn:Hy; [|done].
      injection Hm as Hm. specialize (Hlt m y Hmn Hy).
      by apply sameString_false in Hlt.
Qed.

Lemma firstIndexOf_unique (h : jsstring) (previous : list PrevQuestion)
    (i j : Z) :
  firstIndexOf h previous i → firstIndexOf h previous j → i = j.
Proof.
  intros (n & -> & Hn & Hn') (m & -> & Hm & Hm').
  destruct (Nat.lt_trichotomy n m) as [Hlt|[->|Hlt]]; [|done|].
  - exfalso. apply Hm'. apply list_elem_of_lookup. exists n.
    by apply lookup_take_Some.
  - exfalso. apply Hn'. apply list_elem_of_lookup. exists m.
    by apply lookup_take_Some.
Qed.

End DiffMoreFacts.

(** X10: the diff reports as added exactly the current questions whose
    hash no previous question has, and as removed exactly the previous
    questions whose hash no current question has, both in the order of
    their lists; no hash is added and removed at once. *)
Theorem diff_added_removed (previous : list PrevQuestion)
    (current : list CurrQuestion) :
  let d := diffPAALists previous current in
  (∀ q, q ∈ added d ↔ q ∈ current ∧ cq_hash q ∉ pq_hash <$> previous)
  ∧ (∀ p, p ∈ removed d ↔ p ∈ previous ∧ pq_hash p ∉ cq_hash <$> current)
  ∧ added d `sublist_of` current
  ∧ removed d `sublist_of` previous
  ∧ (∀ q p, q ∈ added d → p ∈ removed d → cq_hash q ≠ pq_hash p).
Proof.
  simpl.
  assert (Hadd : ∀ q,
    q ∈ List.filter
          (λ q, negb (has (mapOf ((λ q, (pq_hash q, q)) <$> previous))
                        (cq_hash q))) current
    ↔ q ∈ current ∧ cq_hash q ∉ pq_hash <$> previous).
  { intros q. rewrite list_elem_of_In, filter_In, <- list_elem_of_In.
    by rewrite negb_true_iff, has_mapOf_false. }
  assert (Hrem : ∀ p,
    p ∈ List.filter
          (λ q, negb (has (mapOf ((λ q, (cq_hash q, q)) <$> current))
                        (pq_hash q))) previous
    ↔ p ∈ previous ∧ pq_hash p ∉ cq_hash <$> current).
  { intros p. rewrite list_elem_of_In, filter_In, <- list_elem_of_In.
    by rewrite negb_true_iff, has_mapOf_false. }
  split; [done|]. split; [done|].
  split; [apply filter_sublist|]. split; [apply filter_sublist|].
  intros q p [_ Hq]%Hadd [Hp _]%Hrem Heq. apply Hq. rewrite Heq.
  by apply list_elem_of_fmap_2.
Qed.

(** X11: the diff reports a position change exactly for the current
    questions whose hash a previous question has and whose position
    differs from the index of the first previous question with that hash;
    the change carries that index and the current position. *)
Theorem diff_position_changes (previous : list PrevQuestion)
    (current : list CurrQuestion) (m : PositionChange) :
  m ∈ positionChanges (diffPAALists previous current)
  ↔ ∃ q, q ∈ current
      ∧ pc_question m = cq_question q ∧ pc_hash m = cq_hash q
      ∧ newPosition m = cq_position q
      ∧ firstIndexOf (cq_hash q) previous (oldPosition m)
      ∧ oldPosition m ≠ cq_position q.
Proof.
  simpl. rewrite list_elem_of_bind. split.
  - intros (q & Hm & Hq). exists q. split; [done|].
    unfold positionChangeOf in Hm.
    destruct (has _ _) eqn:Hhas; [|by apply elem_of_nil in Hm].
    apply has_mapOf in Hhas. case_bool_decide as Hne;
      [|by apply elem_of_nil in Hm].
    apply list_elem_of_singleton in Hm as ->. simpl.
    repeat split; try done. by apply findIndex_first.
  - intros (q & Hq & Hquestion & Hhash & Hnew & Hfirst & Hne).
    exists q. split; [|done]. unfold positionChangeOf.
    assert (Hin : cq_hash q ∈ pq_hash <$> previous).
    { destruct Hfirst as (n & _ & Hn & _).
      by apply list_elem_of_lookup_2 in Hn. }
    rewrite (proj2 (has_mapOf pq_hash previous (cq_hash q)) Hin).
    pose proof (firstIndexOf_unique _ _ _ _ Hfirst
                  (findIndex_first _ _ Hin)) as Hold.
    rewrite <- Hold. rewrite bool_decide_true by done.
    apply list_elem_of_singleton. destruct m. simpl in *. congruence.
Qed.

(** ** The type and the priority of a question *)

Section TypeFacts.

Lemma startsWith_both (p p' q : jsstring) :
  startsWith p q = true → startsWith p' q = true →
  startsWith p p' || startsWith p' p = true.
Proof.
  revert p' q. induction p as [|x p IH]; intros p' q; [done|].
  destruct p' as [|y p']; [by rewrite orb_true_r|].
  destruct q as [|c q]; [done|]. simpl.
  intros [Hx Hp]%andb_true_iff [Hy Hp']%andb_true_iff.
  apply N.eqb_eq in Hx, Hy. subst.
  rewrite !N.eqb_refl. simpl. by eapply IH.
Qed.

Lemma startsWith_trans (p p' q : jsstring) :
  startsWith p p' = true → startsWith p' q = true → startsWith p q = true.
Proof.
  revert p' q. induction p as [|x p IH]; intros p' q; [done|].
  destruct p' as [|y p']; [done|]. destruct q as [|c q]; [done|]. simpl.
  intros [Hx Hp]%andb_true_iff [Hy Hp']%andb_true_iff.
  apply N.eqb_eq in Hx, Hy. subst. rewrite N.eqb_refl. simpl.
  by eapply IH.
Qed.

Lemma startsWith_includes (p q : jsstring) :
  startsWith p q = true → includes q p = true.
Proof. intros Hp. destruct q; simpl in *; by rewrite Hp. Qed.

Lemma opensWith_apart (l1 l2 : list string) (q : jsstring) :
  apart l1 l2 = true → opensWith l1 q = true → opensWith l2 q = false.
Proof.
  unfold apart, opensWith. intros Hapart Hl1.
  apply existsb_exists in Hl1 as (a & Ha & Hqa).
  apply not_true_iff_false. intros Hl2.
  apply existsb_exists in Hl2 as (b & Hb & Hqb).
  rewrite forallb_forall in Hapart. specialize (Hapart a Ha).
  rewrite forallb_forall in Hapart. specialize (Hapart b Hb).
  apply negb_true_iff in Hapart.
  by rewrite (startsWith_both _ _ _ Hqa Hqb) in Hapart.
Qed.

Lemma opensWith_app (l1 l2 : list string) (q : jsstring) :
  opensWith (l1 ++ l2) q = opensWith l1 q || opensWith l2 q.
Proof. unfold opensWith. apply existsb_app. Qed.

Lemma holdsOneOf_app (l1 l2 : list string) (q : jsstring) :
  holdsOneOf (l1 ++ l2) q = holdsOneOf l1 q || holdsOneOf l2 q.
Proof. unfold holdsOneOf. apply existsb_app. Qed.

End TypeFacts.

(** X12: the type [detectQuestionType] gives, freed of the order of its
    tests.  A text that opens with a definition opener is a definition and
    one that opens with a steps opener is steps, whatever they hold; a
    comparison marker makes any other text a comparison, and a list opener
    or marker any text left a list; a text is an explanation or a yes/no
    question exactly when it opens with [why ] or with one of the yes/no
    openers and holds no comparison and no list marker. *)
Theorem detectQuestionType_table `{Unicode} (question : jsstring) :
  let q := trim (toLowerCase question) in
  let t := detectQuestionType question in
  (t = QDefinition ↔ opensWith definitionOpeners q = true)
  ∧ (t = QSteps ↔ opensWith stepsOpeners q = true)
  ∧ (t = QComparison ↔
       opensWith (definitionOpeners ++ stepsOpeners) q = false
       ∧ holdsOneOf comparisonMarkers q = true)
  ∧ (t = QList ↔
       opensWith (definitionOpeners ++ stepsOpeners) q = false
       ∧ holdsOneOf comparisonMarkers q = false
       ∧ opensWith listOpeners q || holdsOneOf listMarkers q = true)
  ∧ (t = QExplanation ↔
       startsWith (js "why ") q = true
       ∧ holdsOneOf (comparisonMarkers ++ listMarkers) q = false)
  ∧ (t = QYesNo ↔
       opensWith yesnoOpeners q = true
       ∧ holdsOneOf (comparisonMarkers ++ listMarkers) q = false)
  ∧ (t = QParagraph ↔
       opensWith (definitionOpeners ++ stepsOpeners ++ listOpeners
                  ++ ["why "%string] ++ yesnoOpeners) q = false
       ∧ holdsOneOf (comparisonMarkers ++ listMarkers) q = false).
Proof.
  intros q t. subst t. unfold detectQuestionType. fold q.
  set (D := opensWith definitionOpeners q).
  set (S := opensWith stepsOpeners q).
  set (C := holdsOneOf comparisonMarkers q).
  set (LO := opensWith listOpeners q).
  set (LM := holdsOneOf listMarkers q).
  set (E := startsWith (js "why ") q).
  set (Y := opensWith yesnoOpeners q).
  (* the tests of the source, in these terms *)
  assert (HD : startsWith (js "what is") q || startsWith (js "what are") q
               || startsWith (js "what does") q || startsWith (js "what's") q
               = D).
  { subst D. unfold opensWith, definitionOpeners. cbn [existsb].
    by rewrite orb_false_r, !orb_assoc. }
  assert (HS : startsWith (js "how to") q || startsWith (js "how do") q
               || startsWith (js "how can") q || startsWith (js "how does") q
               = S).
  { subst S. unfold opensWith, stepsOpeners. cbn [existsb].
    by rewrite orb_false_r, !orb_assoc. }
  assert (HC : includes q (js " vs ") || includes q (js " vs. ")
               || includes q (js " versus ")
               || includes q (js "difference between")
               || includes q (js "compared to")
               || includes q (js "comparison") = C).
  { subst C. unfold holdsOneOf, comparisonMarkers. cbn [existsb].
    by rewrite orb_false_r, !orb_assoc. }
  assert (HL : startsWith (js "best ") q || startsWith (js "top ") q
               || startsWith (js "most ") q || includes q (js "best ")
               || includes q (js "examples of") || includes q (js "types of")
               || includes q (js "list of") = LO || LM).
  { subst LO LM. unfold opensWith, holdsOneOf, listOpeners, listMarkers.
    cbn [existsb]. rewrite !orb_false_r.
    destruct (startsWith (js "best ") q) eqn:Hbest.
    - rewrite (startsWith_includes _ _ Hbest). cbn [orb].
      by rewrite !orb_true_r.
    - by destruct (startsWith (js "top ") q), (startsWith (js "most ") q),
        (includes q (js "best ")), (includes q (js "examples of")),
        (includes q (js "types of")). }
  assert (HE : E || startsWith (js "why do") q
               || startsWith (js "why does") q = E).
  { subst E. destruct (startsWith (js "why ") q) eqn:Hwhy; [done|].
    cbn [orb].
    destruct (startsWith (js "why do") q) eqn:Hdo.
    { by rewrite (startsWith_trans (js "why ") (js "why do") q) in Hwhy. }
    destruct (startsWith (js "why does") q) eqn:Hdoes; [|done].
    by rewrite (startsWith_trans (js "why ") (js "why does") q) in Hwhy. }
  assert (HY : startsWith (js "can ") q || startsWith (js "is ") q
               || startsWith (js "are ") q || startsWith (js "does ") q
               || startsWith (js "do ") q || startsWith (js "will ") q
               || startsWith (js "should ") q || startsWith (js "could ") q
               || startsWith (js "would ") q = Y).
  { subst Y. unfold opensWith, yesnoOpeners. cbn [existsb].
    by rewrite orb_false_r, !orb_assoc. }
  rewrite HD, HS, HC, HL, HE, HY.
  (* the openers exclude one another *)
  assert (HSD : S = true → D = false)
    by (by apply opensWith_apart).
  assert (HED : E = true → D = false ∧ S = false ∧ LO = false ∧ Y = false).
  { intros HEt.
    assert (Hwhy : opensWith ["why "%string] q = true)
      by (unfold opensWith; cbn [existsb]; by rewrite orb_false_r).
    repeat split; by apply (opensWith_apart ["why "%string]). }
  assert (HYD : Y = true → D = false ∧ S = false ∧ LO = false).
  { intros HYt. repeat split; by apply (opensWith_apart yesnoOpeners). }
  rewrite !opensWith_app, !holdsOneOf_app.
  fold D S C LO LM Y.
  replace (opensWith ["why "%string] q) with E
    by (unfold opensWith; cbn [existsb]; by rewrite orb_false_r).
  destruct D, S, C, LO, LM, E, Y; simpl;
    repeat match goal with
           | H : true = true → _ |- _ => specialize (H eq_refl)
           end;
    intuition congruence.
Qed.

(** X13: the priority score never exceeds 100, is at least 50 for a
    question seen a non-negative number of times, and does not fall when
    the question is seen more often. *)
Theorem calculatePriorityScore_range (timesSeen timesSeen' now : Z)
    (firstSeenAt : option Z) (questionType : option QuestionType) :
  calculatePriorityScore timesSeen now firstSeenAt questionType ≤ 100
  ∧ (0 ≤ timesSeen →
     50 ≤ calculatePriorityScore timesSeen now firstSeenAt questionType)
  ∧ (timesSeen ≤ timesSeen' →
     calculatePriorityScore timesSeen now firstSeenAt questionType
     ≤ calculatePriorityScore timesSeen' now firstSeenAt questionType).
Proof.
  unfold calculatePriorityScore.
  destruct (PrimFloat.leb (hoursSince now firstSeenAt) 48);
    destruct questionType as [[]|]; lia.
Qed.

(** X14: a question seen three times or more and first seen at most 48
    hours ago scores 100 whatever its type: the bonus of the steps and
    list questions is lost in the cap. *)
Theorem calculatePriorityScore_cap (timesSeen now : Z)
    (firstSeenAt : option Z) (questionType : option QuestionType) :
  3 ≤ timesSeen →
  PrimFloat.leb (hoursSince now firstSeenAt) 48 = true →
  calculatePriorityScore timesSeen now firstSeenAt questionType = 100.
Proof.
  intros Hseen Hrecent. unfold calculatePriorityScore. rewrite Hrecent.
  destruct questionType as [[]|]; lia.
Qed.

Lemma calculatePriorityScore_cap_witness :
  calculatePriorityScore 3 172800000 (Some 0) (Some QSteps) = 100
  ∧ calculatePriorityScore 3 172800000 (Some 0) (Some QParagraph) = 100.
Proof.
  split; apply calculatePriorityScore_cap; first [lia | reflexivity].
Defined.

(** ** Escaping and slugs *)

Section EscapeFacts.

Lemma replaceChar_bind (c : N) (replacement : jsstring)
    (f : N → jsstring) (s : jsstring) :
  replaceChar c replacement (s ≫= f)
  = s ≫= (λ x, replaceChar c replacement (f x)).
Proof.
  unfold replaceChar. induction s as [|x s IH]; [done|].
  by rewrite !bind_cons, bind_app, IH.
Qed.

Lemma bind_unit (s : jsstring) : s ≫= (λ x, [x]) = s.
Proof. induction s as [|x s IH]; [done|]. by rewrite bind_cons, IH. Qed.

Lemma bind_ext_all {A B} (f g : A → list B) (l : list A) :
  (∀ x, f x = g x) → l ≫= f = l ≫= g.
Proof.
  intros Hfg. induction l as [|x l IH]; [done|].
  change ((x :: l) ≫= f) with (f x ++ (l ≫= f)).
  change ((x :: l) ≫= g) with (g x ++ (l ≫= g)). by rewrite Hfg, IH.
Qed.

Local Ltac by_char c :=
  repeat match goal with
         | |- context [(c =? ?k)%N] =>
             destruct (N.eqb_spec c k); [subst c; try reflexivity|]
         end.

(** The five replacements of [escapeHTML] make one pass. *)
Lemma escapeHTML_pass (text : jsstring) :
  escapeHTML text = text ≫= htmlEntityOf.
Proof.
  transitivity (escapeHTML (text ≫= (λ x, [x])));
    [by rewrite (bind_unit text)|].
  unfold escapeHTML. rewrite !replaceChar_bind.
  apply bind_ext_all. intros x. unfold htmlEntityOf, replaceChar.
  destruct (N.eqb_spec x 38) as [->|H38]; [reflexivity|].
  destruct (N.eqb_spec x 60) as [->|H60]; [reflexivity|].
  destruct (N.eqb_spec x 62) as [->|H62]; [reflexivity|].
  destruct (N.eqb_spec x 34) as [->|H34]; [reflexivity|].
  destruct (N.eqb_spec x 39) as [->|H39]; [reflexivity|].
  simpl.
  repeat match goal with
         | H : x ≠ ?k |- _ =>
             rewrite (proj2 (N.eqb_neq x k) H); clear H; simpl
         end.
  done.
Qed.

(** The four replacements of [escapeHtml] too, with the apostrophe left
    alone. *)
Lemma escapeHtml_pass (text : jsstring) :
  escapeHtml text
  = text ≫= (λ c, if (c =? 39)%N then [c] else htmlEntityOf c).
Proof.
  transitivity (escapeHtml (text ≫= (λ x, [x])));
    [by rewrite (bind_unit text)|].
  unfold escapeHtml. rewrite !replaceChar_bind.
  apply bind_ext_all. intros x. unfold htmlEntityOf, replaceChar.
  destruct (N.eqb_spec x 39) as [->|H39]; [reflexivity|].
  destruct (N.eqb_spec x 38) as [->|H38]; [reflexivity|].
  destruct (N.eqb_spec x 60) as [->|H60]; [reflexivity|].
  destruct (N.eqb_spec x 62) as [->|H62]; [reflexivity|].
  destruct (N.eqb_spec x 34) as [->|H34]; [reflexivity|].
  simpl.
  repeat match goal with
         | H : x ≠ ?k |- _ =>
             rewrite (proj2 (N.eqb_neq x k) H); clear H; simpl
         end.
  done.
Qed.

Lemma htmlEntityOf_safe (c : N) :
  Forall (λ x, x ≠ 60 ∧ x ≠ 62 ∧ x ≠ 34 ∧ x ≠ 39)%N (htmlEntityOf c).
Proof.
  unfold htmlEntityOf.
  destruct (N.eqb_spec c 38); [by repeat constructor|].
  destruct (N.eqb_spec c 60); [by repeat constructor|].
  destruct (N.eqb_spec c 62); [by repeat constructor|].
  destruct (N.eqb_spec c 34); [by repeat constructor|].
  destruct (N.eqb_spec c 39); [by repeat constructor|].
  by repeat constructor.
Qed.

Lemma Forall_bind_all {A B} (P : B → Prop) (f : A → list B) (l : list A) :
  (∀ x, Forall P (f x)) → Forall P (l ≫= f).
Proof.
  intros Hf. induction l as [|x l IH]; [constructor|].
  change ((x :: l) ≫= f) with (f x ++ (l ≫= f)). by apply Forall_app.
Qed.

(** An entity at the head of a text tells its character. *)
Lemma htmlEntityOf_head (c c' : N) (r r' : jsstring) :
  htmlEntityOf c ++ r = htmlEntityOf c' ++ r' → c = c' ∧ r = r'.
Proof.
  unfold htmlEntityOf.
  destruct (N.eqb_spec c 38) as [->|?];
    [|destruct (N.eqb_spec c 60) as [->|?];
      [|destruct (N.eqb_spec c 62) as [->|?];
        [|destruct (N.eqb_spec c 34) as [->|?];
          [|destruct (N.eqb_spec c 39) as [->|?]]]]];
  (destruct (N.eqb_spec c' 38) as [->|?];
    [|destruct (N.eqb_spec c' 60) as [->|?];
      [|destruct (N.eqb_spec c' 62) as [->|?];
        [|destruct (N.eqb_spec c' 34) as [->|?];
          [|destruct (N.eqb_spec c' 39) as [->|?]]]]]);
  simpl; intros Heq; try discriminate Heq;
  try (injection Heq as Heq; subst; done);
  try (injection Heq as Hc Heq; congruence).
Qed.

Lemma bind_htmlEntityOf_inj (t1 t2 : jsstring) :
  t1 ≫= htmlEntityOf = t2 ≫= htmlEntityOf → t1 = t2.
Proof.
  revert t2. induction t1 as [|c t1 IH]; intros [|c' t2].
  - done.
  - change ((c' :: t2) ≫= htmlEntityOf)
      with (htmlEntityOf c' ++ (t2 ≫= htmlEntityOf)).
    intros Heq. exfalso. unfold htmlEntityOf in Heq. simpl in Heq.
    by repeat destruct (_ =? _)%N.
  - change ((c :: t1) ≫= htmlEntityOf)
      with (htmlEntityOf c ++ (t1 ≫= htmlEntityOf)).
    intros Heq. exfalso. unfold htmlEntityOf in Heq. simpl in Heq.
    by repeat destruct (_ =? _)%N.
  - change ((c :: t1) ≫= htmlEntityOf)
      with (htmlEntityOf c ++ (t1 ≫= htmlEntityOf)).
    change ((c' :: t2) ≫= htmlEntityOf)
      with (htmlEntityOf c' ++ (t2 ≫= htmlEntityOf)).
    intros [-> Heq]%htmlEntityOf_head. f_equal. by apply IH.
Qed.

End EscapeFacts.

(** X15: [escapeHTML] leaves none of the characters [<], [>], the
    quotation mark and the apostrophe in its result, and loses nothing:
    two texts with the same escaped form are the same text.  [escapeHtml]
    of the notifications leaves none of [<], [>] and the quotation mark,
    and lets the apostrophe through. *)
Theorem escapeHTML_safe :
  (∀ text, Forall (λ c, c ≠ 60 ∧ c ≠ 62 ∧ c ≠ 34 ∧ c ≠ 39)%N
             (escapeHTML text))
  ∧ (∀ t1 t2, escapeHTML t1 = escapeHTML t2 → t1 = t2)
  ∧ (∀ text, Forall (λ c, c ≠ 60 ∧ c ≠ 62 ∧ c ≠ 34)%N (escapeHtml text))
  ∧ (∀ a b, escapeHtml (a ++ [39%N] ++ b)
            = escapeHtml a ++ [39%N] ++ escapeHtml b).
Proof.
  split; [|split; [|split]].
  - intros text. rewrite escapeHTML_pass.
    apply Forall_bind_all, htmlEntityOf_safe.
  - intros t1 t2. rewrite !escapeHTML_pass. apply bind_htmlEntityOf_inj.
  - intros text. rewrite escapeHtml_pass. apply Forall_bind_all.
    intros c. destruct (N.eqb_spec c 39) as [->|?].
    + by repeat constructor.
    + eapply Forall_impl; [apply htmlEntityOf_safe|]. simpl. tauto.
  - intros a b. rewrite !escapeHtml_pass, !bind_app. done.
Qed.

Section SlugFacts.

Lemma replaceRunsFrom_Forall (P : N → Prop) (inClass : N → bool)
    (replacement : N) (inRun : bool) (s : jsstring) :
  P replacement →
  Forall (λ c, inClass c = false → P c) s →
  Forall P (replaceRunsFrom inClass replacement inRun s).
Proof.
  intros Hr Hs. revert inRun.
  induction Hs as [|c r Hc _ IH]; intros inRun; simpl; [done|].
  destruct (inClass c) eqn:E; [destruct inRun|]; try constructor; auto.
Qed.

Lemma replaceRunsFrom_runFree (inClass : N → bool) (replacement : N)
    (inRun : bool) (s : jsstring) :
  inClass replacement = true →
  runFree inClass inRun (replaceRunsFrom inClass replacement inRun s).
Proof.
  intros Hr. revert inRun. induction s as [|c r IH]; intros inRun; simpl;
    [done|].
  destruct (inClass c) eqn:Hc.
  - destruct inRun; [apply IH|]. simpl. rewrite Hr. split; [done|apply IH].
  - simpl. rewrite Hc. apply IH.
Qed.

Lemma runFree_take (inClass : N → bool) (prevIn : bool) (n : nat)
    (s : jsstring) :
  runFree inClass prevIn s → runFree inClass prevIn (take n s).
Proof.
  revert prevIn n. induction s as [|c r IH]; intros prevIn [|n]; simpl;
    try done.
  destruct (inClass c).
  - intros [? ?]. split; [done|]. by apply IH.
  - apply IH.
Qed.

Lemma runFree_no_pair (inClass : N → bool) (prevIn : bool) (s : jsstring)
    (i : nat) (c d : N) :
  runFree inClass prevIn s →
  s !! i = Some c → s !! S i = Some d →
  inClass c = true → inClass d = false.
Proof.
  revert prevIn i. induction s as [|x s IH]; intros prevIn i; [done|].
  simpl. destruct i as [|i]; simpl.
  - intros Hs [= ->] Hd Hc. rewrite Hc in Hs. destruct Hs as [_ Hs].
    destruct s as [|y s]; [done|]. injection Hd as ->. simpl in Hs.
    destruct (inClass d); [|done]. by destruct Hs.
  - intros Hs. destruct (inClass x).
    + destruct Hs as [_ Hs]. by apply (IH true).
    + by apply (IH false).
Qed.

End SlugFacts.

(** X16: a slug has at most 100 characters, all of them ASCII letters,
    digits, underscores or hyphens, and no two hyphens in it are
    neighbours. *)
Theorem slugify_shape `{Unicode} (text : jsstring) :
  (length (slugify text) ≤ 100)%nat
  ∧ Forall (λ c, isWordChar c = true ∨ c = 45%N) (slugify text)
  ∧ (∀ (i : nat), slugify text !! i = Some 45%N →
       slugify text !! S i ≠ Some 45%N).
Proof.
  unfold slugify.
  set (kept := List.filter _ (toLowerCase text)).
  split; [|split].
  - rewrite length_take. lia.
  - assert (Hkept : Forall (λ c, isWhiteSpace c = false
                                → isWordChar c = true ∨ c = 45%N) kept).
    { apply Forall_forall. intros x Hx Hw.
      apply list_elem_of_In, filter_In in Hx as [_ Hx].
      rewrite Hw, orb_false_r in Hx.
      apply orb_true_iff in Hx as [Hx|Hx%N.eqb_eq]; [by left|by right]. }
    apply Forall_take, replaceRunsFrom_Forall; [by right|].
    eapply Forall_impl.
    + apply (replaceRunsFrom_Forall (λ c, isWordChar c = true ∨ c = 45%N)
               isWhiteSpace 45 false kept); [by right|exact Hkept].
    + by intros c Hc _.
  - intros i Hi Hnext.
    assert (Hfree : runFree (λ c, (c =? 45)%N) false
                      (take 100 (replaceRuns (λ c, (c =? 45)%N) 45
                                   (replaceRuns isWhiteSpace 45 kept))))
      by (apply runFree_take, replaceRunsFrom_runFree; reflexivity).
    by pose proof (runFree_no_pair _ _ _ _ _ _ Hfree Hi Hnext eq_refl).
Qed.

(** ** The tier of a member *)

Section TierFacts.
Context `{Unicode}.

Lemma existsb_Permutation {A} (f : A → bool) (l k : list A) :
  l ≡ₚ k → existsb f l = existsb f k.
Proof.
  intros Hp. destruct (existsb f k) eqn:Hk.
  - apply existsb_exists in Hk as (x & Hx & Hf). apply existsb_exists.
    exists x. split; [|done]. apply list_elem_of_In. rewrite Hp.
    by apply list_elem_of_In.
  - apply not_true_iff_false. intros (x & Hx & Hf)%existsb_exists.
    apply not_true_iff_false in Hk. apply Hk, existsb_exists.
    exists x. split; [|done]. apply list_elem_of_In. rewrite <- Hp.
    by apply list_elem_of_In.
Qed.

Lemma determineTierFromPlan_app (a b : list PlanConnection) :
  determineTierFromPlan (a ++ b)
  = maxTier (determineTierFromPlan a) (determineTierFromPlan b).
Proof.
  unfold determineTierFromPlan. rewrite fmap_app, !existsb_app.
  by repeat destruct (existsb _ _).
Qed.

End TierFacts.

(** X17: the tier is the highest one any of the plans grants: the tier of
    two lists of plans together is the higher of their tiers, the order of
    the plans does not count, and a plan more never lowers the limits. *)
Theorem determineTierFromPlan_highest `{Unicode} :
  (∀ a b, determineTierFromPlan (a ++ b)
          = maxTier (determineTierFromPlan a) (determineTierFromPlan b))
  ∧ (∀ a b, a ≡ₚ b → determineTierFromPlan a = determineTierFromPlan b)
  ∧ (∀ a b,
       keywords (getTierLimits (determineTierFromPlan a))
       ≤ keywords (getTierLimits (determineTierFromPlan (a ++ b)))
       ∧ api_calls (getTierLimits (determineTierFromPlan a))
         ≤ api_calls (getTierLimits (determineTierFromPlan (a ++ b)))).
Proof.
  split; [apply determineTierFromPlan_app|]. split.
  - intros a b Hp. unfold determineTierFromPlan.
    by rewrite !(existsb_Permutation _ _ _ (fmap_Permutation _ _ _ Hp)).
  - intros a b. rewrite determineTierFromPlan_app.
    by destruct (determineTierFromPlan a), (determineTierFromPlan b).
Qed.

(** ** The groups of a notification *)

Section GroupFacts.

Lemma changesOf_snoc (key : jsstring) (l : list ChangeRow) (c : ChangeRow) :
  changesOf key (l ++ [c])
  = changesOf key l
    ++ (if sameString (groupKeyOf c) key then [notifiedChange c] else []).
Proof.
  unfold changesOf. rewrite List.filter_app, fmap_app. simpl.
  by destruct (sameString (groupKeyOf c) key).
Qed.

Lemma grouped_groupChange (m : JsMap ChangeNotification)
    (l : list ChangeRow) (c : ChangeRow) :
  grouped m l → grouped (groupChange m c) (l ++ [c]).
Proof.
  intros (Hnd & Hkeys & Hent). unfold groupChange.
  set (key := groupKeyOf c).
  assert (Hsame : sameString (groupKeyOf c) key = true)
    by (by apply sameString_true).
  cbv zeta. destruct (mapGet m key) as [g0|] eqn:Hget.
  - (* the group exists *)
    rewrite Hget. apply mapGet_Some in Hget.
    destruct (Hent _ _ Hget) as (Hkey0 & Hch0 & Hne0).
    split; [by apply mapSet_NoDup|]. split.
    + intros c' Hc'. rewrite mapSet_keys.
      assert (Hin : key ∈ m.*1)
        by (apply list_elem_of_fmap; by exists (key, g0)).
      destruct (decide (key ∈ m.*1)); [|done].
      apply elem_of_app in Hc' as [Hc'|Hc']; [by apply Hkeys|].
      apply list_elem_of_singleton in Hc'. by subst c'.
    + intros k g Hin.
      apply elem_of_mapSet in Hin as [[-> ->]|[Hne Hin]]; [| |done].
      * simpl. split; [done|]. rewrite changesOf_snoc, Hsame, Hch0.
        split; [done|]. by destruct (changesOf key l).
      * destruct (Hent _ _ Hin) as (Hk & Hch & Hne').
        split; [done|]. split; [|done].
        rewrite changesOf_snoc.
        rewrite (proj2 (sameString_false (groupKeyOf c) k)) by done.
        by rewrite app_nil_r.
  - (* the group is created *)
    apply mapGet_None in Hget.
    set (new := {| projectId := row_project_id c;
                   projectName := row_project_name c;
                   cn_keyword := row_keyword c; cn_changes := [] |}).
    assert (Hnd1 : NoDup (mapSet m key new).*1) by (by apply mapSet_NoDup).
    rewrite (elem_of_mapGet _ _ _ Hnd1 (mapSet_elem_of m key new)).
    assert (Hnone : changesOf key l = []).
    { unfold changesOf.
      rewrite (filter_none (λ c0, sameString (groupKeyOf c0) key) l);
        [done|].
      intros c' Hc'. apply sameString_false. intros Heq. apply Hget.
      rewrite <- Heq. by apply Hkeys. }
    split; [by apply mapSet_NoDup|]. split.
    + intros c' Hc'. rewrite !mapSet_keys.
      destruct (decide (key ∈ m.*1)); [done|].
      destruct (decide (key ∈ m.*1 ++ [key])) as [_|Hn].
      2:{ exfalso. apply Hn, elem_of_app. right. by left. }
      apply elem_of_app in Hc' as [Hc'|Hc'].
      * apply elem_of_app. left. by apply Hkeys.
      * apply list_elem_of_singleton in Hc'. subst c'.
        apply elem_of_app. right. by left.
    + intros k g Hin.
      apply elem_of_mapSet in Hin as [[-> ->]|[Hne Hin]]; [| |done].
      * simpl. split; [done|]. by rewrite changesOf_snoc, Hsame, Hnone.
      * apply elem_of_mapSet in Hin as [[-> ->]|[_ Hin]]; [done| |done].
        destruct (Hent _ _ Hin) as (Hk & Hch & Hne').
        split; [done|]. split; [|done].
        rewrite changesOf_snoc.
        rewrite (proj2 (sameString_false (groupKeyOf c) k)) by done.
        by rewrite app_nil_r.
Qed.

Lemma grouped_fold (m : JsMap ChangeNotification) (l l' : list ChangeRow) :
  grouped m l → grouped (fold_left groupChange l' m) (l ++ l').
Proof.
  revert m l. induction l' as [|c l' IH]; intros m l Hm; simpl.
  - by rewrite app_nil_r.
  - rewrite (cons_middle c l l'), app_assoc. apply IH.
    by apply grouped_groupChange.
Qed.

(** Keys without repetition that cover the changes share them out. *)
Lemma changesOf_total (keys : list jsstring) (l : list ChangeRow) :
  NoDup keys →
  (∀ c, c ∈ l → groupKeyOf c ∈ keys) →
  sum_list ((λ k, length (changesOf k l)) <$> keys) = length l.
Proof.
  intros Hnd. induction l as [|c l IH] using rev_ind; intros Hcover.
  - unfold changesOf. simpl. clear. by induction keys as [|k keys IHk].
  - rewrite length_app. simpl.
    rewrite <- IH by (intros c' Hc'; apply Hcover, elem_of_app; by left).
    assert (Hc : groupKeyOf c ∈ keys)
      by (apply Hcover, elem_of_app; right; by left).
    clear IH Hcover. induction keys as [|k keys IHk].
    { by apply elem_of_nil in Hc. }
    apply NoDup_cons in Hnd as [Hk Hnd]. rewrite !fmap_cons. simpl.
    rewrite changesOf_snoc, length_app.
    destruct (sameString (groupKeyOf c) k) eqn:E.
    + apply sameString_true in E. subst k. simpl.
      assert (Hrest : (λ k, length (changesOf k (l ++ [c]))) <$> keys
                      = (λ k, length (changesOf k l)) <$> keys).
      { apply list_fmap_ext. intros i k Hi. simpl.
        rewrite changesOf_snoc.
        rewrite (proj2 (sameString_false (groupKeyOf c) k));
          [by rewrite app_nil_r|].
        intros <-. apply Hk. by apply list_elem_of_lookup_2 in Hi. }
      rewrite Hrest. lia.
    + apply sameString_false in E. simpl.
      apply elem_of_cons in Hc as [Hc|Hc]; [done|].
      rewrite (IHk Hnd Hc). lia.
Qed.

End GroupFacts.

Lemma groupChanges_spec (changes : list ChangeRow) :
  NoDup (groupKey <$> groupChanges changes)
  ∧ (∀ g, g ∈ groupChanges changes →
       cn_changes g = changesOf (groupKey g) changes ∧ cn_changes g ≠ [])
  ∧ (∀ c, c ∈ changes → groupKeyOf c ∈ groupKey <$> groupChanges changes)
  ∧ sum_list (length ∘ cn_changes <$> groupChanges changes)
    = length changes.
Proof.
  unfold groupChanges.
  destruct (grouped_fold [] [] changes) as (Hnd & Hkeys & Hent).
  { split; [apply NoDup_nil_2|].
    split; [by intros ? ?%elem_of_nil|by intros ? ? ?%elem_of_nil]. }
  simpl in *. set (m := fold_left groupChange changes []) in *.
  assert (Hkeyfst : groupKey <$> m.*2 = m.*1).
  { rewrite <- list_fmap_compose. apply list_fmap_ext.
    intros i [k g] Hi. simpl. apply list_elem_of_lookup_2 in Hi.
    by destruct (Hent _ _ Hi) as [-> _]. }
  rewrite Hkeyfst. split; [done|]. split; [|split; [done|]].
  - intros g (kg & -> & Hin)%list_elem_of_fmap. destruct kg as [k g].
    simpl. destruct (Hent _ _ Hin) as (-> & Hch & Hne). done.
  - rewrite <- (changesOf_total m.*1 changes Hnd Hkeys).
    f_equal. rewrite <- !list_fmap_compose. apply list_fmap_ext.
    intros i [k g] Hi. simpl. apply list_elem_of_lookup_2 in Hi.
    destruct (Hent _ _ Hi) as (_ & -> & _). done.
Qed.

(** X18: [groupChanges] deals the changes out by project and keyword: no
    two groups stand for the same key, every group holds exactly the
    changes of its key, in their order, and is not empty, and every change
    has its group. *)
Theorem groupChanges_partition (changes : list ChangeRow) :
  NoDup (groupKey <$> groupChanges changes)
  ∧ (∀ g, g ∈ groupChanges changes →
       cn_changes g = changesOf (groupKey g) changes ∧ cn_changes g ≠ [])
  ∧ (∀ c, c ∈ changes → groupKeyOf c ∈ groupKey <$> groupChanges changes)
  ∧ sum_list (length ∘ cn_changes <$> groupChanges changes)
    = length changes.
Proof. apply groupChanges_spec. Qed.

(** ** The CSV export *)

Section CsvFacts.

Lemma includes_single (s : jsstring) (c : N) :
  includes s [c] = existsb (λ x, (c =? x)%N) s.
Proof.
  induction s as [|x s IH]; [done|]. simpl in *.
  by rewrite andb_true_r, IH.
Qed.

Lemma escapeCSV_plain (text : jsstring) :
  forallb isCsvPlain text = true → escapeCSV text = text.
Proof.
  intros Hp. unfold escapeCSV. rewrite !includes_single.
  assert (Hno : ∀ c, isCsvPlain c = false →
                     existsb (λ x, (c =? x)%N) text = false).
  { intros c Hc. apply not_true_iff_false.
    intros (x & Hx & ->%N.eqb_eq)%existsb_exists.
    rewrite forallb_forall in Hp. by rewrite (Hp _ Hx) in Hc. }
  by rewrite !Hno.
Qed.

Lemma escapeCSV_quoted (text : jsstring) :
  forallb isCsvPlain text = false →
  escapeCSV text = [34%N] ++ replaceChar 34 [34%N; 34%N] text ++ [34%N].
Proof.
  intros Hp. unfold escapeCSV. rewrite !includes_single.
  destruct (existsb _ text || existsb _ text || existsb _ text) eqn:E;
    [done|].
  exfalso. apply not_true_iff_false in Hp. apply Hp, forallb_forall.
  intros x Hx. unfold isCsvPlain. apply negb_true_iff.
  apply not_true_iff_false. intros Hspecial.
  apply not_true_iff_false in E. apply E.
  rewrite !orb_true_iff in *. rewrite !existsb_exists.
  destruct Hspecial as [[H44|H34]|H10].
  - left. left. exists x. split; [done|]. by rewrite N.eqb_sym.
  - left. right. exists x. split; [done|]. by rewrite N.eqb_sym.
  - right. exists x. split; [done|]. by rewrite N.eqb_sym.
Qed.

Lemma read_break (mode : CsvMode) (field : jsstring)
    (record : list jsstring) (rest : jsstring) :
  atBreak rest → mode ≠ csv_quoted →
  readCSVFrom mode field record rest
  = readCSVFrom csv_plain field record rest.
Proof.
  destruct rest as [|c rest]; [done|]. simpl.
  intros [->| ->] Hmode; by destruct mode.
Qed.

Lemma read_plain (mode : CsvMode) (field text : jsstring)
    (record : list jsstring) (rest : jsstring) :
  forallb isCsvPlain text = true →
  mode = csv_start ∨ mode = csv_plain →
  atBreak rest →
  readCSVFrom mode field record (text ++ rest)
  = readCSVFrom csv_plain (field ++ text) record rest.
Proof.
  revert mode field. induction text as [|c text IH]; intros mode field.
  - intros _ Hmode Hrest. rewrite app_nil_r. simpl.
    apply read_break; [done|]. by destruct Hmode as [-> | ->].
  - simpl. intros [Hc Htext]%andb_true_iff Hmode Hrest.
    unfold isCsvPlain in Hc. apply negb_true_iff in Hc.
    apply orb_false_iff in Hc as [Hc H10].
    apply orb_false_iff in Hc as [H44 H34].
    replace (field ++ c :: text) with ((field ++ [c]) ++ text)
      by (by rewrite <- app_assoc).
    rewrite H34, H44, H10.
    destruct Hmode as [-> | ->]; apply IH; auto.
Qed.

Lemma read_quoted (field text : jsstring) (record : list jsstring)
    (rest : jsstring) :
  atBreak rest →
  readCSVFrom csv_quoted field record
    (replaceChar 34 [34%N; 34%N] text ++ [34%N] ++ rest)
  = readCSVFrom csv_plain (field ++ text) record rest.
Proof.
  intros Hrest. revert field. induction text as [|c text IH]; intros field.
  - rewrite app_nil_r. simpl. by apply read_break.
  - replace (field ++ c :: text) with ((field ++ [c]) ++ text)
      by (by rewrite <- app_assoc).
    rewrite <- IH. unfold replaceChar. rewrite bind_cons.
    destruct (N.eqb_spec c 34) as [->|Hc]; simpl.
    + done.
    + by rewrite (proj2 (N.eqb_neq c 34) Hc).
Qed.

(** The reader takes a field of [escapeCSV] for the text it was made
    from. *)
Lemma read_escapeCSV (text : jsstring) (record : list jsstring)
    (rest : jsstring) :
  atBreak rest →
  readCSVFrom csv_start [] record (escapeCSV text ++ rest)
  = readCSVFrom csv_plain text record rest.
Proof.
  intros Hrest. destruct (forallb isCsvPlain text) eqn:Hp.
  - rewrite escapeCSV_plain by done. by rewrite read_plain; auto.
  - rewrite escapeCSV_quoted by done. simpl.
    rewrite <- app_assoc. by rewrite (read_quoted [] text).
Qed.

Lemma numberToString_plain (n : Z) :
  forallb isCsvPlain (numberToString n) = true.
Proof.
  unfold numberToString.
  assert (Hu : ∀ u, forallb isCsvPlain
                      (N_of_ascii <$> list_ascii_of_string
                                        (NilEmpty.string_of_uint u)) = true).
  { induction u; simpl; try done; by rewrite IHu. }
  destruct (Z.to_int n) as [u|u]; simpl; by rewrite Hu.
Qed.

Lemma read_comma (field : jsstring) (record : list jsstring)
    (rest : jsstring) :
  readCSVFrom csv_plain field record ([44%N] ++ rest)
  = readCSVFrom csv_start [] (record ++ [field]) rest.
Proof. done. Qed.

Lemma read_newline (field : jsstring) (record : list jsstring)
    (rest : jsstring) :
  readCSVFrom csv_plain field record ([10%N] ++ rest)
  = (record ++ [field]) :: readCSVFrom csv_start [] [] rest.
Proof. done. Qed.

(** The reader takes the line of a question for its four values. *)
Lemma read_row (q : CsvQuestion) (rest : jsstring) :
  atBreak rest →
  readCSVFrom csv_start [] [] (join [44%N] (csvRow q) ++ rest)
  = readCSVFrom csv_plain
      (match csv_position q with
       | Some p => numberToString p
       | None => []
       end)
      [csv_question q; csv_type q; default [] (csv_parent q)] rest.
Proof.
  intros Hrest. unfold csvRow. cbn [join]. rewrite <- !app_assoc.
  rewrite read_escapeCSV, read_comma by (simpl; auto).
  rewrite read_escapeCSV, read_comma by (simpl; auto).
  rewrite read_escapeCSV, read_comma by (simpl; auto).
  rewrite read_plain; [done| |by left|done].
  destruct (csv_position q); [apply numberToString_plain|done].
Qed.

Lemma read_rows (questions : list CsvQuestion) :
  questions ≠ [] →
  readCSVFrom csv_start [] []
    (join [10%N] (join [44%N] <$> (csvRow <$> questions)))
  = csvValues <$> questions.
Proof.
  induction questions as [|q questions IH]; [done|]. intros _.
  destruct questions as [|q' questions].
  - rewrite !fmap_cons, !fmap_nil. cbn [join].
    rewrite <- (app_nil_r (join [44%N] (csvRow q))).
    by rewrite read_row.
  - rewrite !fmap_cons in *. cbn [join].
    cbn [join] in IH. rewrite read_row by (simpl; auto).
    rewrite read_newline. f_equal. by apply IH.
Qed.

End CsvFacts.

(** X19: read back by the rules of RFC 4180, the text [generateCSV]
    writes is the header followed by one record of four fields for every
    question, holding the question, the type, the parent and the position
    as they were given, whatever commas, quotation marks and line feeds
    the texts hold. *)
Theorem generateCSV_reads_back (questions : list CsvQuestion) :
  readCSV (generateCSV questions) = csvHeaders :: (csvValues <$> questions).
Proof.
  unfold generateCSV, readCSV. destruct questions as [|q questions].
  - reflexivity.
  - set (rows := csvRow <$> q :: questions).
    assert (Hjoin : join [10%N] (join [44%N] csvHeaders
                                 :: (join [44%N] <$> rows))
                    = join [44%N] csvHeaders ++ [10%N]
                      ++ join [10%N] (join [44%N] <$> rows))
      by (subst rows; by rewrite !fmap_cons).
    rewrite Hjoin.
    change (readCSVFrom csv_start [] []
              (join [44%N] csvHeaders ++ [10%N] ++ ?r))
      with (csvHeaders :: readCSVFrom csv_start [] [] r).
    f_equal. by apply read_rows.
Qed.

(** ** Fetching from SerpAPI *)

Section TaskFacts.
Context {W : Type}.

Lemma taskBind_inv {A B} (m : Task W A) (f : A → Task W B) s r s' :
  (m ≫= f) s = (r, s') →
  ∃ r1 s1, m s = (r1, s1)
    ∧ match r1 with
      | Return a => f a s1 = (r, s')
      | Throw e => r = Throw e ∧ s' = s1
      | OutOfFuel => r = OutOfFuel ∧ s' = s1
      end.
Proof.
  unfold mbind, Task_bind, taskBind. destruct (m s) as [[a|e|] s1].
  - intros Hf. by exists (Return a), s1.
  - intros [= <- <-]. by exists (Throw e), s1.
  - intros [= <- <-]. by exists OutOfFuel, s1.
Qed.

Lemma taskBind_Return {A B} (m : Task W A) (f : A → Task W B) s b s' :
  (m ≫= f) s = (Return b, s') →
  ∃ a s1, m s = (Return a, s1) ∧ f a s1 = (Return b, s').
Proof.
  intros (r1 & s1 & Hm & Hf)%taskBind_inv.
  destruct r1 as [a|e|]; [by exists a, s1|by destruct Hf..].
Qed.

Lemma taskRet_inv {A} (a : A) (r : outcome A) (s s' : W * list Effect) :
  taskRet a s = (r, s') → r = Return a ∧ s' = s.
Proof. unfold taskRet. by intros [= <- <-]. Qed.

Lemma perform_log {A} (effect : outcome A → list Effect)
    (op : W → outcome A * W) s r s' :
  perform effect op s = (r, s') → s'.2 = s.2 ++ effect r.
Proof.
  unfold perform. destruct s as [w log]. destruct (op w) as [r' w'].
  by intros [= <- <-].
Qed.

Lemma requests_app (l1 l2 : list Effect) :
  requests (l1 ++ l2) = (requests l1 + requests l2)%nat.
Proof. unfold requests. by rewrite List.filter_app, length_app. Qed.

End TaskFacts.

Section SerpFacts.
Context {W : Type} `{SerpApi W} `{Unicode}.

Lemma mapFrom_length {A B} (f : A → Z → B) (i : Z) (l : list A) :
  length (mapFrom f i l) = length l.
Proof. revert i. induction l as [|x l IH]; intros i; simpl; [done|]. by rewrite IH. Qed.

Lemma mapFrom_positions {A} (f : A → Z → PAAFetchTree) (c i : Z)
    (l : list A) :
  (∀ x j, ft_position (f x j) = j + c) →
  ft_position <$> mapFrom f i l = seqZ (i + c) (Z.of_nat (length l)).
Proof.
  intros Hf. revert i. induction l as [|x l IH]; intros i; [done|].
  simpl mapFrom. rewrite fmap_cons, Hf, IH.
  rewrite (seqZ_cons (i + c) (Z.of_nat (length (x :: l)))) by (simpl; lia).
  f_equal. f_equal; simpl length; lia.
Qed.

Lemma mapFrom_Forall {A B} (P : B → Prop) (f : A → Z → B) (i : Z)
    (l : list A) :
  (∀ x j, P (f x j)) → Forall P (mapFrom f i l).
Proof.
  intros Hf. revert i. induction l as [|x l IH]; intros i; simpl;
    constructor; auto.
Qed.

(** One level costs one search, however it ends. *)
Lemma fetchSingleLevel_log (keyword region : jsstring) s r s' :
  fetchSingleLevel keyword region s = (r, s') →
  requests s'.2 = S (requests s.2).
Proof.
  unfold fetchSingleLevel. intros (r1 & s1 & Hreq & Hrest)%taskBind_inv.
  apply perform_log in Hreq.
  assert (Hs1 : requests s1.2 = S (requests s.2)).
  { rewrite Hreq, requests_app. unfold requests at 2. simpl. lia. }
  destruct r1 as [response|e|]; [|by destruct Hrest as [_ ->]..].
  destruct (negb (ok response)).
  { unfold taskThrow in Hrest. by injection Hrest as _ <-. }
  apply taskBind_inv in Hrest as (r2 & s2 & Hjson & Hrest).
  injection Hjson as <- <-.
  destruct (json response) as [data|e|]; [|by destruct Hrest as [_ ->]..].
  destruct (sr_error data) as [[|c e]|];
    first [ by apply taskRet_inv in Hrest as [_ ->]
          | unfold taskThrow in Hrest; by injection Hrest as _ <- ].
Qed.

Lemma fetchSingleLevel_Return (keyword region : jsstring) s questions s' :
  fetchSingleLevel keyword region s = (Return questions, s') →
  ft_position <$> questions = seqZ 0 (Z.of_nat (length questions))
  ∧ Forall (λ q, ft_children q = []) questions.
Proof.
  unfold fetchSingleLevel. intros (response & s1 & _ & Hrest)%taskBind_Return.
  destruct (negb (ok response)); [done|].
  apply taskBind_Return in Hrest as (data & s2 & _ & Hrest).
  destruct (sr_error data) as [[|c e]|]; try done;
    apply taskRet_inv in Hrest as [[= ->] _];
    (split; [rewrite (mapFrom_positions _ 0), mapFrom_length;
               [done|intros; simpl; lia]
            |by apply mapFrom_Forall]).
Qed.

Lemma expandQuestion_spec (b d : nat)
    (fetchChildren : jsstring → Task W (list PAAFetchTree))
    (index : Z) (q : PAAFetchTree) s r s' :
  fetcherOk b d fetchChildren →
  expandQuestion fetchChildren index q s = (r, s') →
  (requests s'.2 ≤ requests s.2 + b)%nat
  ∧ ∀ q', r = Return q' → ft_position q' = index ∧ shaped (S d) q'.
Proof.
  intros Hok. unfold expandQuestion, taskTry.
  destruct ((fetchChildren (ft_question q) ≫= _) s) as [r0 s0] eqn:Hrun.
  apply taskBind_inv in Hrun as (r1 & s1 & Hfetch & Hrest).
  destruct (Hok _ _ _ _ Hfetch) as [Hlog Hshape].
  destruct r1 as [children|e|].
  - apply taskRet_inv in Hrest as [-> ->]. intros [= <- <-].
    split; [done|]. intros q' [= <-]. split; [done|]. simpl. split.
    + rewrite length_take. lia.
    + by apply Forall_take, Hshape.
  - destruct Hrest as [-> ->]. intros [-> ->]%taskRet_inv.
    split; [done|]. intros q' [= <-]. split; [done|]. simpl.
    split; [lia|done].
  - destruct Hrest as [-> ->]. intros [= <- <-]. by split.
Qed.

Lemma forEachFrom_spec (b d : nat)
    (fetchChildren : jsstring → Task W (list PAAFetchTree))
    (i : Z) (l : list PAAFetchTree) s r s' :
  fetcherOk b d fetchChildren →
  forEachFrom (expandQuestion fetchChildren) i l s = (r, s') →
  (requests s'.2 ≤ requests s.2 + length l * b)%nat
  ∧ ∀ out, r = Return out →
      ft_position <$> out = seqZ i (Z.of_nat (length l))
      ∧ Forall (shaped (S d)) out.
Proof.
  intros Hok. revert i s r s'.
  induction l as [|q l IH]; intros i s r s' Hrun; simpl in Hrun.
  - apply taskRet_inv in Hrun as [-> ->]. split; [simpl; lia|].
    by intros out [= <-].
  - apply taskBind_inv in Hrun as (r1 & s1 & Hq & Hrest).
    destruct (expandQuestion_spec _ _ _ _ _ _ _ _ Hok Hq) as [Hlog1 Hq'].
    destruct r1 as [q'|e|];
      [|destruct Hrest as [-> ->]; split; [simpl; lia|done]..].
    apply taskBind_inv in Hrest as (r2 & s2 & Hl & Hrest).
    destruct (IH _ _ _ _ Hl) as [Hlog2 Hout].
    destruct r2 as [out|e|];
      [|destruct Hrest as [-> ->]; split; [simpl; lia|done]..].
    apply taskRet_inv in Hrest as [-> ->]. split; [simpl; lia|].
    intros ? [= <-]. destruct (Hq' q' eq_refl) as [Hpos Hshape].
    destruct (Hout out eq_refl) as [Hposs Hshapes].
    split; [|by constructor].
    rewrite fmap_cons, Hpos, Hposs.
    rewrite (seqZ_cons i (Z.of_nat (length (q :: l)))) by (simpl; lia).
    f_equal. f_equal; simpl length; lia.
Qed.

Lemma fetchSingleLevel_ok (region : jsstring) :
  fetcherOk 1 0 (λ question, fetchSingleLevel question region).
Proof.
  intros question s r s' Hrun. split.
  - apply fetchSingleLevel_log in Hrun. lia.
  - intros children ->. by apply fetchSingleLevel_Return in Hrun as [_ ?].
Qed.

(** What a fetch to the depth [d] asks for and returns. *)
Lemma fetchToDepth_spec (d : nat) (keyword region : jsstring) s r s' :
  fetchToDepth d keyword region s = (r, s') →
  (requests s'.2 ≤ requests s.2 + requestBound d)%nat
  ∧ ∀ questions, r = Return questions →
      ft_position <$> questions = seqZ 0 (Z.of_nat (length questions))
      ∧ Forall (shaped d) questions
      ∧ Forall (λ q, ft_children q = []) (drop 5 questions).
Proof.
  revert keyword s r s'. induction d as [|d IH]; intros keyword s r s' Hrun.
  - simpl in Hrun. apply taskBind_inv in Hrun as (r1 & s1 & Hfirst & Hrest).
    pose proof (fetchSingleLevel_log _ _ _ _ _ Hfirst) as Hlog.
    destruct r1 as [questions|e|];
      [|destruct Hrest as [-> ->]; split; [simpl; lia|done]..].
    apply taskRet_inv in Hrest as [-> ->]. split; [simpl; lia|].
    intros ? [= <-].
    apply fetchSingleLevel_Return in Hfirst as [Hpos Hnone].
    split; [done|]. split; [done|]. by apply Forall_drop.
  - assert (Hok : fetcherOk (requestBound d) d
                    match d with
                    | O => λ question, fetchSingleLevel question region
                    | S _ => λ question, fetchToDepth d question region
                    end).
    { destruct d as [|d'] eqn:Hd; [apply fetchSingleLevel_ok|].
      intros question s0 r0 s0' Hrun0.
      destruct (IH _ _ _ _ Hrun0) as [Hlog Hshape]. split; [done|].
      intros children ->. by destruct (Hshape children eq_refl) as (_ & ? & _). }
    cbn [fetchToDepth] in Hrun.
    apply taskBind_inv in Hrun as (r1 & s1 & Hfirst & Hrest).
    pose proof (fetchSingleLevel_log _ _ _ _ _ Hfirst) as Hlog.
    destruct r1 as [questions|e|];
      [|destruct Hrest as [-> ->]; split; [simpl; lia|done]..].
    apply fetchSingleLevel_Return in Hfirst as [Hpos Hnone].
    destruct questions as [|q0 questions0] eqn:Hqs.
    { apply taskRet_inv in Hrest as [-> ->]. split; [simpl; lia|].
      by intros ? [= <-]. }
    rewrite <- Hqs in *. clear Hqs q0 questions0.
    apply taskBind_inv in Hrest as (r2 & s2 & Hexp & Hrest).
    destruct (forEachFrom_spec _ _ _ _ _ _ _ _ Hok Hexp) as [Hlog2 Hout].
    assert (Hfive : (length (take 5 questions) ≤ 5)%nat)
      by (rewrite length_take; lia).
    assert (Hbound : (requests s2.2 ≤ requests s.2 + requestBound (S d))%nat).
    { simpl. nia. }
    destruct r2 as [expanded|e|];
      [|destruct Hrest as [-> ->]; split; [done|done]..].
    apply taskRet_inv in Hrest as [-> ->]. split; [done|].
    intros ? [= <-]. destruct (Hout expanded eq_refl) as [Hposs Hshapes].
    assert (Hlen : length expanded = length (take 5 questions)).
    { apply (f_equal length) in Hposs.
      rewrite length_fmap, length_seqZ in Hposs. lia. }
    set (remaining := mapFrom (λ q i, withChildren q (i + 5) []) 0
                        (drop 5 questions)).
    assert (Hrem : Forall (λ q, ft_children q = []) remaining)
      by (by apply mapFrom_Forall).
    split; [|split].
    + rewrite fmap_app, Hposs. subst remaining.
      rewrite (mapFrom_positions _ 5) by done.
      rewrite length_app, mapFrom_length, Hlen.
      rewrite length_take, length_drop.
      destruct (decide (length questions ≤ 5)%nat) as [Hle|Hgt].
      * replace (length questions - 5)%nat with 0%nat by lia.
        rewrite app_nil_r. f_equal. lia.
      * replace (5 `min` length questions)%nat with 5%nat by lia.
        rewrite Nat2Z.inj_add. rewrite seqZ_app by lia. done.
    + apply Forall_app. split; [done|].
      eapply Forall_impl; [exact Hrem|]. intros q Hq. simpl. rewrite Hq.
      split; [simpl; lia|done].
    + destruct (decide (length questions ≤ 5)%nat) as [Hle|Hgt].
      * assert (Hnil : remaining = []).
        { subst remaining. rewrite drop_ge by lia. done. }
        rewrite Hnil, app_nil_r. rewrite drop_ge; [done|].
        rewrite Hlen, length_take. lia.
      * rewrite drop_app_length'; [done|].
        rewrite Hlen, length_take. lia.
Qed.

End SerpFacts.

Section CountFacts.

Lemma sum_bound (f : PAAFetchTree → Z) (b : Z) (l : list PAAFetchTree) :
  Forall (λ q, 0 ≤ f q ≤ b) l →
  0 ≤ foldr Z.add 0 (f <$> l) ≤ Z.of_nat (length l) * b.
Proof.
  induction 1 as [|q l Hq _ IH]; [simpl; lia|].
  rewrite fmap_cons. cbn [foldr length]. nia.
Qed.

Lemma belowBound_nonneg (d : nat) : 0 ≤ belowBound d.
Proof. induction d; simpl; lia. Qed.

Lemma countBelow_shaped (d : nat) (q : PAAFetchTree) :
  shaped d q → 0 ≤ countBelow q ≤ belowBound d.
Proof.
  revert q. induction d as [|d IH]; intros [question type snippet url pos cs];
    simpl.
  - intros ->. simpl. lia.
  - intros [Hlen Hcs]. destruct cs as [|c cs]; [pose proof (belowBound_nonneg d); simpl; lia|].
    assert (Hsum : 0 ≤ foldr Z.add 0 (countBelow <$> c :: cs)
                   ≤ Z.of_nat (length (c :: cs)) * belowBound d).
    { apply sum_bound. eapply Forall_impl; [exact Hcs|]. apply IH. }
    pose proof (belowBound_nonneg d).
    rewrite fmap_cons in Hsum. cbn [foldr length] in Hsum, Hlen.
    cbn [countBelow ft_children belowBound].
    change (list_fmap _ _ countBelow cs) with (countBelow <$> cs).
    nia.
Qed.

Lemma countBelow_leaf (q : PAAFetchTree) :
  ft_children q = [] → countBelow q = 0.
Proof. destruct q as [? ? ? ? ? cs]. simpl. by intros ->. Qed.

Lemma countQuestions_bound (d : nat) (questions : list PAAFetchTree) :
  Forall (shaped d) questions →
  Forall (λ q, ft_children q = []) (drop 5 questions) →
  Z.of_nat (length questions) ≤ countQuestions questions
  ∧ countQuestions questions
    ≤ Z.of_nat (length questions) + 5 * belowBound d.
Proof.
  intros Hshape Hrest. unfold countQuestions.
  assert (Hzero : foldr Z.add 0 (countBelow <$> drop 5 questions) = 0).
  { induction Hrest as [|q l Hq _ IH]; [done|].
    rewrite fmap_cons. cbn [foldr]. rewrite IH, countBelow_leaf by done. lia. }
  assert (Hsplit : countBelow <$> questions
            = (countBelow <$> take 5 questions)
              ++ (countBelow <$> drop 5 questions)).
  { by rewrite <- fmap_app, take_drop. }
  rewrite Hsplit, foldr_app.
  rewrite Hzero.
  assert (Hsum : 0 ≤ foldr Z.add 0 (countBelow <$> take 5 questions)
                 ≤ Z.of_nat (length (take 5 questions)) * belowBound d).
  { apply sum_bound, Forall_take. eapply Forall_impl; [exact Hshape|].
    apply countBelow_shaped. }
  rewrite length_take in Hsum. pose proof (belowBound_nonneg d).
  assert (Z.of_nat (5 `min` length questions) * belowBound d
          ≤ 5 * belowBound d) by (apply Z.mul_le_mono_nonneg_r; lia).
  lia.
Qed.

End CountFacts.

(** X20: the questions [fetchPAAFromSerp] returns carry their index in
    the list as position; only the first five have children, no more than
    three each, which are as a fetch to the depth before returns them; a
    depth of 0 or less gives no children at all. *)
Theorem fetchPAAFromSerp_shape {W} `{SerpApi W} `{Unicode}
    (keyword region : jsstring) (depth : Z)
    (questions : list PAAFetchTree) s s' :
  fetchPAAFromSerp keyword region depth s = (Return questions, s') →
  ft_position <$> questions = seqZ 0 (Z.of_nat (length questions))
  ∧ Forall (shaped (Z.to_nat depth)) questions
  ∧ Forall (λ q, ft_children q = []) (drop 5 questions).
Proof.
  intros Hrun. by apply (fetchToDepth_spec _ _ _ _ _ _ Hrun).
Qed.

Lemma fetchPAAFromSerp_shape_witness :
  match fetchPAAFromSerp (H0:=asciiUnicode) (js "seo") (js "us") 2
          (steadyNet, []) with
  | (Return questions, _) =>
      ft_position <$> questions = [0; 1; 2; 3; 4]
      ∧ Forall (shaped 2) questions
  | _ => False
  end.
Proof.
  destruct (fetchPAAFromSerp (js "seo") (js "us") 2 (steadyNet, []))
    as [[questions| |] s'] eqn:Hrun; [|vm_compute in Hrun; discriminate..].
  destruct (fetchPAAFromSerp_shape (H0:=asciiUnicode) _ _ _ _ _ _ Hrun)
    as (Hpos & Hshape & _).
  split; [|exact Hshape]. rewrite Hpos.
  vm_compute in Hrun. injection Hrun as <- _. reflexivity.
Defined.

(** X21: a fetch to the depth [d] asks SerpAPI for at most
    [(5 ^ (d + 1) - 1) / 4] searches, however it ends: 1, 6 and 31 at the
    depths 0, 1 and 2.  [calculateAPICalls] gives that number at the
    depths 0 and 1; at depth 2 it gives 21, and a fetch that finds five
    questions at every search asks for all 31. *)
Theorem fetchPAAFromSerp_requests :
  (∀ W (net : SerpApi W) (platform : Unicode) keyword region depth s r s',
     fetchPAAFromSerp keyword region depth s = (r, s') →
     (requests s'.2 ≤ requests s.2 + requestBound (Z.to_nat depth))%nat)
  ∧ (∀ d, Z.of_nat (requestBound d) = (5 ^ (Z.of_nat d + 1) - 1) / 4)
  ∧ calculateAPICalls 0 = Z.of_nat (requestBound 0)
  ∧ calculateAPICalls 1 = Z.of_nat (requestBound 1)
  ∧ calculateAPICalls 2 = 21
  ∧ (∃ W (net : SerpApi W) (platform : Unicode) s r s',
       fetchPAAFromSerp (js "seo") (js "us") 2 s = (r, s')
       ∧ requests s'.2 = (requests s.2 + 31)%nat).
Proof.
  split; [|split; [|split; [done|split; [done|split; [done|]]]]].
  - intros W net platform keyword region depth s r s' Hrun.
    by apply (fetchToDepth_spec _ _ _ _ _ _ Hrun).
  - intros d.
    assert (Hd : 4 * Z.of_nat (requestBound d) + 1 = 5 ^ (Z.of_nat d + 1)).
    { induction d as [|d IH]; [done|].
      replace (Z.of_nat (S d) + 1) with (Z.succ (Z.of_nat d + 1)) by lia.
      rewrite Z.pow_succ_r by lia. simpl requestBound. lia. }
    rewrite <- Hd. replace (4 * Z.of_nat (requestBound d) + 1 - 1)
      with (Z.of_nat (requestBound d) * 4) by lia.
    by rewrite Z.div_mul.
  - exists SteadyNet, steadySerp, asciiUnicode, (steadyNet, []).
    destruct (fetchPAAFromSerp (js "seo") (js "us") 2 (steadyNet, []))
      as [r s'] eqn:Hrun.
    exists r, s'. split; [done|]. vm_compute in Hrun.
    by injection Hrun as _ <-.
Qed.

(** X22: [countQuestions] of what a fetch returns counts every question
    of the first level, and no more than [3 + 3 * 3 + ...] questions
    below each of the first five: at most 15 more at depth 1 and 60 more
    at depth 2. *)
Theorem countQuestions_fetched {W} `{SerpApi W} `{Unicode}
    (keyword region : jsstring) (depth : Z)
    (questions : list PAAFetchTree) s s' :
  fetchPAAFromSerp keyword region depth s = (Return questions, s') →
  Z.of_nat (length questions) ≤ countQuestions questions
  ∧ countQuestions questions
    ≤ Z.of_nat (length questions) + 5 * belowBound (Z.to_nat depth)
  ∧ (depth ≤ 0 → countQuestions questions = Z.of_nat (length questions))
  ∧ belowBound 1 = 3 ∧ belowBound 2 = 12.
Proof.
  intros Hrun.
  destruct (fetchToDepth_spec _ _ _ _ _ _ Hrun) as [_ Hshape].
  destruct (Hshape questions eq_refl) as (_ & Hshaped & Hrest).
  destruct (countQuestions_bound _ _ Hshaped Hrest) as [Hlow Hhigh].
  repeat split; try done.
  intros Hdepth. replace (Z.to_nat depth) with 0%nat in Hhigh by lia.
  simpl in Hhigh. lia.
Qed.

Lemma countQuestions_fetched_witness :
  match fetchPAAFromSerp (H0:=asciiUnicode) (js "seo") (js "us") 2
          (steadyNet, []) with
  | (Return questions, _) =>
      countQuestions questions = 65
      ∧ countQuestions questions ≤ 5 + 5 * 12
  | _ => False
  end.
Proof.
  destruct (fetchPAAFromSerp (js "seo") (js "us") 2 (steadyNet, []))
    as [[questions| |] s'] eqn:Hrun; [|vm_compute in Hrun; discriminate..].
  destruct (countQuestions_fetched (H0:=asciiUnicode) _ _ _ _ _ _ Hrun)
    as (_ & Hhigh & _).
  vm_compute in Hrun. injection Hrun as <- _.
  split; [reflexivity|exact Hhigh].
Defined.

(** ** Sending the notifications *)

Section ByUserFacts.

Lemma changesOfUser_snoc (u : jsstring) (l : list ChangeRow) (c : ChangeRow) :
  changesOfUser u (l ++ [c])
  = changesOfUser u l ++ (if sameString (row_user_id c) u then [c] else []).
Proof.
  unfold changesOfUser. rewrite List.filter_app. simpl.
  by destruct (sameString (row_user_id c) u).
Qed.

Lemma byUser_addChange (m : JsMap (list ChangeRow)) (l : list ChangeRow)
    (c : ChangeRow) :
  byUser m l → byUser (addChange m c) (l ++ [c]).
Proof.
  intros (Hnd & Hkeys & Hent). unfold addChange.
  set (key := row_user_id c).
  assert (Hsame : sameString (row_user_id c) key = true)
    by (by apply sameString_true).
  cbv zeta. destruct (mapGet m key) as [g0|] eqn:Hget.
  - rewrite Hget. apply mapGet_Some in Hget.
    destruct (Hent _ _ Hget) as (Hch0 & Hne0).
    split; [by apply mapSet_NoDup|]. split.
    + intros c' Hc'. rewrite mapSet_keys.
      assert (Hin : key ∈ m.*1)
        by (apply list_elem_of_fmap; by exists (key, g0)).
      destruct (decide (key ∈ m.*1)); [|done].
      apply elem_of_app in Hc' as [Hc'|Hc']; [by apply Hkeys|].
      apply list_elem_of_singleton in Hc'. by subst c'.
    + intros k g Hin.
      apply elem_of_mapSet in Hin as [[-> ->]|[Hne Hin]]; [| |done].
      * rewrite changesOfUser_snoc, Hsame, <- Hch0.
        split; [done|]. by destruct g0.
      * destruct (Hent _ _ Hin) as (Hch & Hne').
        split; [|done]. rewrite changesOfUser_snoc.
        rewrite (proj2 (sameString_false (row_user_id c) k)) by done.
        by rewrite app_nil_r.
  - apply mapGet_None in Hget.
    assert (Hnd1 : NoDup (mapSet m key []).*1) by (by apply mapSet_NoDup).
    rewrite (elem_of_mapGet _ _ _ Hnd1 (mapSet_elem_of m key [])).
    assert (Hnone : changesOfUser key l = []).
    { unfold changesOfUser. apply filter_none.
      intros c' Hc'. apply sameString_false. intros Heq. apply Hget.
      rewrite <- Heq. by apply Hkeys. }
    split; [by apply mapSet_NoDup|]. split.
    + intros c' Hc'. rewrite !mapSet_keys.
      destruct (decide (key ∈ m.*1)); [done|].
      destruct (decide (key ∈ m.*1 ++ [key])) as [_|Hn].
      2:{ exfalso. apply Hn, elem_of_app. right. by left. }
      apply elem_of_app in Hc' as [Hc'|Hc'].
      * apply elem_of_app. left. by apply Hkeys.
      * apply list_elem_of_singleton in Hc'. subst c'.
        apply elem_of_app. right. by left.
    + intros k g Hin.
      apply elem_of_mapSet in Hin as [[-> ->]|[Hne Hin]]; [| |done].
      * by rewrite changesOfUser_snoc, Hsame, Hnone.
      * apply elem_of_mapSet in Hin as [[-> ->]|[_ Hin]]; [done| |done].
        destruct (Hent _ _ Hin) as (Hch & Hne').
        split; [|done]. rewrite changesOfUser_snoc.
        rewrite (proj2 (sameString_false (row_user_id c) k)) by done.
        by rewrite app_nil_r.
Qed.

Lemma byUser_fold (m : JsMap (list ChangeRow)) (l l' : list ChangeRow) :
  byUser m l → byUser (fold_left addChange l' m) (l ++ l').
Proof.
  revert m l. induction l' as [|c l' IH]; intros m l Hm; simpl.
  - by rewrite app_nil_r.
  - rewrite (cons_middle c l l'), app_assoc. apply IH.
    by apply byUser_addChange.
Qed.

Lemma byUser_rows (rows : list ChangeRow) :
  byUser (fold_left addChange rows []) rows.
Proof.
  apply (byUser_fold [] [] rows).
  split; [apply NoDup_nil_2|].
  split; [by intros ? ?%elem_of_nil|by intros ? ? ?%elem_of_nil].
Qed.

End ByUserFacts.

Section NotifyFacts.
Context {W : Type} `{Notifier W}.

Lemma totalChanges_sum (l : list ChangeNotification) (a : Z) :
  fold_left (λ sum n, sum + Z.of_nat (length (cn_changes n))) l a
  = a + Z.of_nat (sum_list (length ∘ cn_changes <$> l)).
Proof.
  revert a. induction l as [|n l IH]; intros a; [simpl; lia|].
  rewrite fmap_cons. cbn [fold_left sum_list compose]. rewrite IH.
  unfold compose, id. lia.
Qed.

Lemma totalChanges_groupChanges (changes : list ChangeRow) :
  fold_left (λ sum n, sum + Z.of_nat (length (cn_changes n)))
    (groupChanges changes) 0
  = Z.of_nat (length changes).
Proof.
  rewrite totalChanges_sum.
  destruct (groupChanges_spec changes) as (_ & _ & _ & ->). lia.
Qed.

(** The mail of a user: one request, and the counter goes up when it
    does not throw. *)
Lemma mail_spec (sent : Z) (to : jsstring) (changes : list ChangeRow)
    s sent1 s1 :
  taskTry
    (_ ← sendEmailNotification to (groupChanges changes);
     taskRet (sent + 1))
    (λ _, taskRet sent) s = (Return sent1, s1) →
  ∃ threw, s1.2 = s.2 ++ [email_post to
                            (emailSubject (Z.of_nat (length changes)))
                            threw]
           ∧ sent1 = sent + (if threw then 0 else 1).
Proof.
  unfold taskTry.
  destruct ((_ ← sendEmailNotification to (groupChanges changes);
             taskRet (sent + 1)) s) as [r s2] eqn:Hrun.
  apply taskBind_inv in Hrun as (r1 & s3 & Hsend & Hrest).
  unfold sendEmailNotification in Hsend.
  rewrite totalChanges_groupChanges in Hsend.
  apply perform_log in Hsend.
  destruct r1 as [[]|e|].
  - apply taskRet_inv in Hrest as [-> ->]. intros [= <- <-].
    exists false. split; [done|lia].
  - destruct Hrest as [-> ->]. intros [[= ->] ->]%taskRet_inv.
    exists true. split; [done|lia].
  - destruct Hrest as [-> ->]. done.
Qed.

Lemma hook_spec (url : jsstring) (changes : list ChangeRow) s s1 :
  taskTry (sendWebhookNotification url (groupChanges changes))
    (λ _, taskRet ()) s = (Return (), s1) →
  ∃ threw, s1.2 = s.2 ++ [webhook_post url threw].
Proof.
  unfold taskTry.
  destruct (sendWebhookNotification url (groupChanges changes) s)
    as [r s2] eqn:Hrun.
  unfold sendWebhookNotification in Hrun. apply perform_log in Hrun.
  destruct r as [[]|e|].
  - intros [= <-]. by exists false.
  - intros [_ ->]%taskRet_inv. by exists true.
  - done.
Qed.

Lemma notifyUser_spec (sent : Z) (userId : jsstring)
    (changes : list ChangeRow) s sent' s' :
  changes ≠ [] →
  notifyUser sent (userId, changes) s = (Return sent', s') →
  ∃ eff found, s'.2 = s.2 ++ eff
    ∧ settingsRead eff = [(userId, found)]
    ∧ markedLists eff = (if found then [row_id <$> changes] else [])
    ∧ sent' = sent + Z.of_nat (length (List.filter (λ m, negb m.2)
                                         (emailPosts eff)))
    ∧ (length (emailPosts eff) ≤ if found then 1 else 0)%nat
    ∧ Forall (λ m, m.1.2 = emailSubject (Z.of_nat (length changes)))
        (emailPosts eff).
Proof.
  intros Hne. unfold notifyUser.
  intros (settings & s1 & Hread & Hrest)%taskBind_Return.
  apply perform_log in Hread.
  destruct settings as [settings|].
  2:{ apply taskRet_inv in Hrest as [[= <-] ->].
      exists [settings_read userId false], false.
      repeat split; [done|simpl; lia|simpl; lia|constructor]. }
  apply taskBind_Return in Hrest as (sent1 & s2 & Hmail & Hrest).
  apply taskBind_Return in Hrest as ([] & s3 & Hhook & Hrest).
  apply taskBind_Return in Hrest as ([] & s4 & Hmark & Hrest).
  apply taskRet_inv in Hrest as [[= ->] ->].
  assert (Hmails : ∃ mails, s2.2 = s1.2 ++ mails
            ∧ settingsRead mails = [] ∧ markedLists mails = []
            ∧ sent1 = sent + Z.of_nat (length (List.filter (λ m, negb m.2)
                                                 (emailPosts mails)))
            ∧ (length (emailPosts mails) ≤ 1)%nat
            ∧ Forall (λ m, m.1.2 = emailSubject (Z.of_nat (length changes)))
                (emailPosts mails)).
  { assert (Hquiet : taskRet sent s1 = (Return sent1, s2) →
              ∃ mails, s2.2 = s1.2 ++ mails
                ∧ settingsRead mails = [] ∧ markedLists mails = []
                ∧ sent1 = sent + Z.of_nat (length (List.filter
                                             (λ m, negb m.2)
                                             (emailPosts mails)))
                ∧ (length (emailPosts mails) ≤ 1)%nat
                ∧ Forall (λ m, m.1.2
                               = emailSubject (Z.of_nat (length changes)))
                    (emailPosts mails)).
    { intros [[= <-] ->]%taskRet_inv. exists [].
      rewrite app_nil_r. repeat split; [simpl; lia|simpl; lia|constructor]. }
    destruct (email_notifications settings); [|by apply Hquiet].
    destruct (email settings) as [[|c to]|]; [by apply Hquiet| |by apply Hquiet].
    apply mail_spec in Hmail as (threw & Hlog & ->).
    exists [email_post (c :: to) (emailSubject (Z.of_nat (length changes)))
              threw].
    repeat split; [done|by destruct threw|simpl; lia|].
    by repeat constructor. }
  destruct Hmails as (mails & Hlog2 & Hms & Hmm & -> & Hmlen & Hmsub).
  assert (Hhooks : ∃ hooks, s3.2 = s2.2 ++ hooks
            ∧ settingsRead hooks = [] ∧ markedLists hooks = []
            ∧ emailPosts hooks = []).
  { destruct (webhook_url settings) as [[|c url]|].
    1,3: apply taskRet_inv in Hhook as [_ ->]; exists [];
         by rewrite app_nil_r.
    apply hook_spec in Hhook as (threw & Hlog).
    by exists [webhook_post (c :: url) threw]. }
  destruct Hhooks as (hooks & Hlog3 & Hhs & Hhm & Hhe).
  destruct (row_id <$> changes) as [|id ids] eqn:Hids.
  { by destruct changes. }
  apply perform_log in Hmark. cbv beta iota in Hmark.
  exists (settings_read userId true :: mails ++ hooks
          ++ [marked_notified (id :: ids)]), true.
  unfold settingsRead, markedLists, emailPosts in *.
  rewrite Hmark, Hlog3, Hlog2, Hread. cbn [omap list_omap].
  rewrite !omap_app, Hms, Hmm, Hhs, Hhm, Hhe. cbn [omap list_omap].
  rewrite !app_nil_r. simpl.
  repeat split; [by rewrite <- !app_assoc|done|done].
Qed.

Lemma mapGet_head {V} (m : JsMap V) (key : jsstring) (v : V) :
  mapGet ((key, v) :: m) key = Some v.
Proof. simpl. by rewrite (proj2 (sameString_true key key)). Qed.

Lemma mapGet_tail {V} (m : JsMap V) (key k : jsstring) (v : V) :
  k ≠ key → mapGet ((key, v) :: m) k = mapGet m k.
Proof.
  intros Hne. simpl.
  by rewrite (proj2 (sameString_false key k)) by done.
Qed.

Lemma settingsRead_app (l1 l2 : list Effect) :
  settingsRead (l1 ++ l2) = settingsRead l1 ++ settingsRead l2.
Proof. apply omap_app. Qed.

Lemma markedLists_app (l1 l2 : list Effect) :
  markedLists (l1 ++ l2) = markedLists l1 ++ markedLists l2.
Proof. apply omap_app. Qed.

Lemma emailPosts_app (l1 l2 : list Effect) :
  emailPosts (l1 ++ l2) = emailPosts l1 ++ emailPosts l2.
Proof. apply omap_app. Qed.

Lemma notifyUsers_spec (entries : JsMap (list ChangeRow)) (sent : Z)
    s sent' s' :
  NoDup entries.*1 →
  Forall (λ e, e.2 ≠ []) entries →
  notifyUsers sent entries s = (Return sent', s') →
  ∃ eff, s'.2 = s.2 ++ eff ∧ notified entries eff sent sent'.
Proof.
  revert sent s sent' s'. induction entries as [|[userId changes] rest IH];
    intros sent s sent' s' Hnd Hne Hrun.
  - apply taskRet_inv in Hrun as [[= ->] ->]. exists [].
    rewrite app_nil_r. split; [done|].
    repeat split; [simpl; lia|simpl; lia|constructor].
  - rewrite fmap_cons in Hnd. apply NoDup_cons in Hnd as [Hfresh Hnd].
    apply Forall_cons in Hne as [Hne1 Hne].
    cbn [notifyUsers] in Hrun.
    apply taskBind_Return in Hrun as (sent1 & s1 & Huser & Hrest).
    apply notifyUser_spec in Huser
      as (eff1 & found & Hlog1 & Hs1 & Hm1 & Hsent1 & Hlen1 & Hsub1);
      [|done].
    destruct (IH _ _ _ _ Hnd Hne Hrest)
      as (eff2 & Hlog2 & Hs2 & Hm2 & Hsent2 & Hlen2 & Hsub2).
    exists (eff1 ++ eff2). split; [by rewrite Hlog2, Hlog1, app_assoc|].
    assert (Hother : ∀ r, r ∈ settingsRead eff2 → r.1 ≠ userId).
    { intros [u f] Hr. simpl. intros ->. apply Hfresh. rewrite <- Hs2.
      apply list_elem_of_fmap. by exists (userId, f). }
    unfold notified.
    rewrite settingsRead_app, markedLists_app, emailPosts_app, Hs1, Hm1.
    cbn [app].
    split; [by rewrite fmap_cons, Hs2|]. split; [|split; [|split]].
    + assert (Hrest2 :
        (λ r : jsstring * bool,
           row_id <$> default [] (mapGet ((userId, changes) :: rest) r.1))
        <$> List.filter snd (settingsRead eff2)
        = (λ r : jsstring * bool, row_id <$> default [] (mapGet rest r.1))
          <$> List.filter snd (settingsRead eff2)).
      { apply list_fmap_ext. intros i r Hi. cbv beta.
        rewrite mapGet_tail; [done|]. apply Hother.
        apply list_elem_of_lookup_2 in Hi.
        by apply list_elem_of_In, List.filter_In in Hi
          as [?%list_elem_of_In _]. }
      destruct found; cbn [List.filter snd].
      * rewrite fmap_cons. cbn [fst]. rewrite mapGet_head. cbn [default].
        by rewrite Hrest2, Hm2.
      * by rewrite Hrest2, Hm2.
    + rewrite List.filter_app, length_app. lia.
    + rewrite length_app. destruct found; cbn [List.filter snd length]; lia.
    + apply Forall_app. split.
      * destruct found.
        -- eapply Forall_impl; [exact Hsub1|]. intros m Hm.
           exists userId. split; [by left|]. by rewrite mapGet_head.
        -- destruct (emailPosts eff1); [constructor|simpl in Hlen1; lia].
      * eapply Forall_impl; [exact Hsub2|]. intros m (u & Hu & Hm).
        exists u. split; [by right|].
        rewrite mapGet_tail; [done|]. by apply (Hother (u, true)).
Qed.

Lemma sendChangeNotifications_spec (rows : list ChangeRow) w w1 log
    sent s' :
  selectUnnotified w = (Return (Some rows), w1) →
  sendChangeNotifications (w, log) = (Return sent, s') →
  ∃ effects, s'.2 = log ++ effects
    ∧ NoDup (settingsRead effects).*1
    ∧ (∀ userId, userId ∈ (settingsRead effects).*1
                 ↔ userId ∈ row_user_id <$> rows)
    ∧ markedLists effects
      = (λ r, row_id <$> changesOfUser r.1 rows)
        <$> List.filter snd (settingsRead effects)
    ∧ sent = Z.of_nat (length (List.filter (λ m, negb m.2)
                                 (emailPosts effects)))
    ∧ (length (emailPosts effects)
       ≤ length (List.filter snd (settingsRead effects)))%nat
    ∧ Forall (λ m, ∃ userId,
                  (userId, true) ∈ settingsRead effects
                  ∧ m.1.2 = emailSubject
                              (Z.of_nat (length (changesOfUser userId rows))))
        (emailPosts effects).
Proof.
  intros Hrows Hrun. unfold sendChangeNotifications in Hrun.
  apply taskBind_Return in Hrun as (found & s1 & Hsel & Hrun).
  assert (Hs1 : found = Some rows ∧ s1.2 = log).
  { unfold perform in Hsel. rewrite Hrows in Hsel.
    injection Hsel as <- <-. by rewrite app_nil_r. }
  destruct Hs1 as [-> Hlog1].
  destruct rows as [|row rows].
  { apply taskRet_inv in Hrun as [[= ->] ->]. exists [].
    rewrite app_nil_r. split; [done|]. split; [apply NoDup_nil_2|].
    split; [done|]. split; [done|]. split; [done|].
    split; [done|constructor]. }
  set (all := row :: rows) in *.
  destruct (byUser_rows all) as (Hnd & Hkeys & Hent).
  apply notifyUsers_spec in Hrun
    as (eff & Hlog & Hs & Hm & Hsent & Hlen & Hsub); [|done|].
  2:{ apply Forall_forall. intros [u cs] Hin. by destruct (Hent _ _ Hin). }
  assert (Hget : ∀ u, u ∈ (settingsRead eff).*1 →
            mapGet (fold_left addChange all []) u
            = Some (changesOfUser u all)).
  { intros u Hu. rewrite Hs in Hu.
    apply list_elem_of_fmap in Hu as ([u' cs] & -> & Hin).
    destruct (Hent _ _ Hin) as [Hcs _]. cbn [fst].
    rewrite <- Hcs. by apply elem_of_mapGet. }
  exists eff. split; [by rewrite Hlog, Hlog1|].
  split; [by rewrite Hs|]. split; [|split; [|split; [lia|split; [done|]]]].
  - intros u. rewrite Hs. split.
    + intros ([u' cs] & -> & Hin)%list_elem_of_fmap.
      destruct (Hent _ _ Hin) as [Hcs Hne]. cbn [fst].
      destruct cs as [|c cs]; [done|].
      assert (Hc : c ∈ changesOfUser u' all) by (rewrite <- Hcs; by left).
      apply list_elem_of_In, List.filter_In in Hc as [Hc Hu].
      apply sameString_true in Hu. subst u'.
      apply list_elem_of_fmap. exists c. by rewrite list_elem_of_In.
    + intros (c & -> & Hc)%list_elem_of_fmap. by apply Hkeys.
  - rewrite Hm. apply list_fmap_ext. intros i r Hi. cbv beta.
    rewrite Hget; [done|]. apply list_elem_of_lookup_2 in Hi.
    apply list_elem_of_In, List.filter_In in Hi as [Hi%list_elem_of_In _].
    apply list_elem_of_fmap. by exists r.
  - eapply Forall_impl; [exact Hsub|]. intros m (u & Hu & Hsubj).
    exists u. split; [done|]. rewrite Hget in Hsubj; [done|].
    apply list_elem_of_fmap. by exists (u, true).
Qed.

End NotifyFacts.

(** X23: when [sendChangeNotifications] returns, it has asked once for the
    settings of every user with a change among the rows of the query, and
    it has marked as notified the changes of the users whose settings it
    found, user by user, and no others: whether the mail or the webhook
    went through plays no part in it, and the changes of a user without
    settings stay as they are. *)
Theorem sendChangeNotifications_marks {W} `{Notifier W}
    (rows : list ChangeRow) w w1 log sent s' :
  selectUnnotified w = (Return (Some rows), w1) →
  sendChangeNotifications (w, log) = (Return sent, s') →
  ∃ effects, s'.2 = log ++ effects
    ∧ NoDup (settingsRead effects).*1
    ∧ (∀ userId, userId ∈ (settingsRead effects).*1
                 ↔ userId ∈ row_user_id <$> rows)
    ∧ markedLists effects
      = (λ r, row_id <$> changesOfUser r.1 rows)
        <$> List.filter snd (settingsRead effects).
Proof.
  intros Hrows Hrun.
  destruct (sendChangeNotifications_spec _ _ _ _ _ _ Hrows Hrun)
    as (effects & Hlog & Hnd & Husers & Hmarked & _).
  by exists effects.
Qed.

Lemma sendChangeNotifications_marks_witness :
  match sendChangeNotifications (exampleMailbox, []) with
  | (Return _, (_, effects)) =>
      settingsRead effects = [(js "ann", true); (js "bob", false)]
      ∧ emailPosts effects
        = [(js "ann@example.com", js "PAA Tracker: 2 changes detected",
            true)]
      ∧ markedLists effects = [[js "c1"; js "c3"]]
  | _ => False
  end.
Proof.
  destruct (sendChangeNotifications (exampleMailbox, []))
    as [[sent| |] [w effects]] eqn:Hrun;
    [|vm_compute in Hrun; discriminate Hrun..].
  destruct (sendChangeNotifications_marks (H:=mailboxNotifier)
              (mb_rows exampleMailbox)
              exampleMailbox exampleMailbox [] sent (w, effects)
              eq_refl Hrun)
    as (effects' & Hlog & _ & _ & Hmarked).
  simpl in Hlog. subst effects'.
  vm_compute in Hrun. injection Hrun as _ _ <-.
  split; [reflexivity|]. split; [reflexivity|]. exact Hmarked.
Defined.

(** X24: the number [sendChangeNotifications] returns is the number of
    its requests to the mail service that did not throw.  It sends no
    more requests than there are users whose settings it found, and the
    subject of each gives the number of the changes of such a user among
    the rows, the position changes included. *)
Theorem sendChangeNotifications_mails {W} `{Notifier W}
    (rows : list ChangeRow) w w1 log sent s' :
  selectUnnotified w = (Return (Some rows), w1) →
  sendChangeNotifications (w, log) = (Return sent, s') →
  ∃ effects, s'.2 = log ++ effects
    ∧ sent = Z.of_nat (length (List.filter (λ m, negb m.2)
                                 (emailPosts effects)))
    ∧ (length (emailPosts effects)
       ≤ length (List.filter snd (settingsRead effects)))%nat
    ∧ Forall (λ m, ∃ userId,
                  (userId, true) ∈ settingsRead effects
                  ∧ m.1.2 = emailSubject
                              (Z.of_nat (length (changesOfUser userId rows))))
        (emailPosts effects).
Proof.
  intros Hrows Hrun.
  destruct (sendChangeNotifications_spec _ _ _ _ _ _ Hrows Hrun)
    as (effects & Hlog & _ & _ & _ & Hsent & Hlen & Hsub).
  by exists effects.
Qed.

Lemma sendChangeNotifications_mails_witness :
  match sendChangeNotifications (exampleMailbox, []) with
  | (Return sent, (_, effects)) =>
      sent = 0
      ∧ sent = Z.of_nat (length (List.filter (λ m, negb m.2)
                                   (emailPosts effects)))
  | _ => False
  end.
Proof.
  destruct (sendChangeNotifications (exampleMailbox, []))
    as [[sent| |] [w effects]] eqn:Hrun;
    [|vm_compute in Hrun; discriminate Hrun..].
  destruct (sendChangeNotifications_mails (H:=mailboxNotifier)
              (mb_rows exampleMailbox)
              exampleMailbox exampleMailbox [] sent (w, effects)
              eq_refl Hrun)
    as (effects' & Hlog & Hsent & _).
  simpl in Hlog. subst effects'.
  split; [|exact Hsent].
  vm_compute in Hrun. by injection Hrun as <- _ _.
Defined.

(** ** Valid addresses *)

Section PatternFacts.

Lemma testPattern_literal (c : N) (s : jsstring) :
  testPattern (literal c) s = true ↔ s = [c].
Proof.
  destruct s as [|x [|y s]]; simpl; [done| |done].
  rewrite N.eqb_eq. split; [by intros ->|by intros [= ->]].
Qed.

Lemma testPattern_oneOrMore (inClass : N → bool) (s : jsstring) :
  testPattern (oneOrMore inClass) s = true
  ↔ s ≠ [] ∧ Forall (λ c, inClass c = true) s.
Proof.
  destruct s as [|x s]; [by split; [|intros [? _]]|].
  cbn [testPattern]. rewrite forallb_forall, Forall_forall.
  split; [intros Hall|intros [_ Hall]].
  - split; [done|]. intros c Hc. by apply Hall, list_elem_of_In.
  - intros c Hc. by apply Hall, list_elem_of_In.
Qed.

Lemma testPattern_andThen (p q : Pattern) (s : jsstring) :
  testPattern (andThen p q) s = true
  ↔ ∃ a b, s = a ++ b ∧ testPattern p a = true ∧ testPattern q b = true.
Proof.
  cbn [testPattern]. rewrite existsb_exists. split.
  - intros (i & _ & [Hp Hq]%andb_true_iff).
    exists (take i s), (drop i s). by rewrite take_drop.
  - intros (a & b & -> & Hp & Hq). exists (length a). split.
    + apply in_seq. rewrite length_app. lia.
    + by rewrite take_app_length, drop_app_length, Hp, Hq.
Qed.

Lemma notSpaceOrAt_spec (c : N) :
  notSpaceOrAt c = true ↔ isWhiteSpace c = false ∧ c ≠ 64%N.
Proof.
  unfold notSpaceOrAt. rewrite negb_true_iff, orb_false_iff, N.eqb_neq.
  done.
Qed.

Lemma notSpaceOrAt_Forall (s : jsstring) :
  Forall (λ c, notSpaceOrAt c = true) s
  ↔ Forall (λ c, isWhiteSpace c = false) s ∧ 64%N ∉ s.
Proof.
  rewrite !Forall_forall. split.
  - intros Hall. split.
    + intros c Hc. by apply notSpaceOrAt_spec, Hall.
    + intros Hin. by destruct (proj1 (notSpaceOrAt_spec _) (Hall _ Hin)).
  - intros [Hws Hat] c Hc. apply notSpaceOrAt_spec. split; [by apply Hws|].
    by intros ->.
Qed.

End PatternFacts.

(** X25: [isValidEmail] accepts exactly the texts without white space
    that hold one [@], with something before it, and after it a dot that
    is neither the first nor the last character of what follows the
    [@]. *)
Theorem isValidEmail_spec (email : jsstring) :
  isValidEmail email = true
  ↔ Forall (λ c, isWhiteSpace c = false) email
    ∧ ∃ name domain,
        email = name ++ 64%N :: domain
        ∧ name ≠ [] ∧ (64%N ∉ name) ∧ (64%N ∉ domain)
        ∧ ∃ i, domain !! i = Some 46%N
               ∧ (0 < i)%nat ∧ (S i < length domain)%nat.
Proof.
  unfold isValidEmail. rewrite testPattern_andThen. split.
  - intros (name & r1 & -> & Hname & H1).
    apply testPattern_andThen in H1 as (at' & r2 & -> & Hat & H2).
    apply testPattern_andThen in H2 as (host & r3 & -> & Hhost & H3).
    apply testPattern_andThen in H3 as (dot & tld & -> & Hdot & Htld).
    apply testPattern_literal in Hat as ->.
    apply testPattern_literal in Hdot as ->.
    apply testPattern_oneOrMore in Hname as [Hname1 Hname2].
    apply testPattern_oneOrMore in Hhost as [Hhost1 Hhost2].
    apply testPattern_oneOrMore in Htld as [Htld1 Htld2].
    apply notSpaceOrAt_Forall in Hname2 as [Hnamews Hnameat].
    apply notSpaceOrAt_Forall in Hhost2 as [Hhostws Hhostat].
    apply notSpaceOrAt_Forall in Htld2 as [Htldws Htldat].
    split.
    + repeat (apply Forall_app; split); try done; by repeat constructor.
    + exists name, (host ++ [46%N] ++ tld). split; [done|].
      split; [done|]. split; [done|]. split.
      * rewrite !elem_of_app, list_elem_of_singleton. intros [?|[?|?]]; done.
      * exists (length host). split; [|split].
        -- by rewrite lookup_app_r, Nat.sub_diag by lia.
        -- destruct host; [done|simpl; lia].
        -- rewrite !length_app. destruct tld; [done|simpl; lia].
  - intros (Hws & name & domain & -> & Hname & Hnameat & Hdomat
            & i & Hi & Hpos & Hlast).
    apply Forall_app in Hws as [Hnamews Hdomws].
    apply Forall_cons in Hdomws as [_ Hdomws].
    assert (Hsplit : domain = take i domain ++ [46%N] ++ drop (S i) domain).
    { rewrite <- (take_drop_middle _ _ _ Hi) at 1. done. }
    exists name, (64%N :: domain). split; [done|]. split.
    { apply testPattern_oneOrMore. split; [done|].
      by apply notSpaceOrAt_Forall. }
    apply testPattern_andThen. exists [64%N], domain. split; [done|].
    split; [by apply testPattern_literal|].
    apply testPattern_andThen.
    exists (take i domain), ([46%N] ++ drop (S i) domain).
    split; [done|]. split.
    { apply testPattern_oneOrMore. split.
      - intros Hnil. apply (f_equal length) in Hnil.
        rewrite length_take in Hnil. simpl in Hnil. lia.
      - apply notSpaceOrAt_Forall. split; [by apply Forall_take|].
        intros Hin. apply Hdomat. by apply (subseteq_take i domain). }
    apply testPattern_andThen. exists [46%N], (drop (S i) domain).
    split; [done|]. split; [by apply testPattern_literal|].
    apply testPattern_oneOrMore. split.
    + intros Hnil. apply (f_equal length) in Hnil.
      rewrite length_drop in Hnil. simpl in Hnil. lia.
    + apply notSpaceOrAt_Forall. split; [by apply Forall_drop|].
      intros Hin. apply Hdomat. by apply (subseteq_drop (S i) domain).
Qed.

(** ** The UULE parameter *)

Section Utf8Facts.

Local Ltac euclid := zify; Z.to_euclidean_division_equations; lia.

Lemma utf8_bytes (c : N) :
  (c < 0x110000)%N → Forall (λ b, (b <=? 0xFF)%N = true) (utf8 c).
Proof.
  intros Hc. unfold utf8.
  destruct (N.ltb_spec c 0x80), (N.ltb_spec c 0x800),
    (N.ltb_spec c 0x10000);
    repeat first [ apply Forall_cons; split | apply Forall_nil_2 ];
    apply N.leb_le; euclid.
Qed.

(** UTF-8 is a prefix code: the bytes of a code point tell where they
    end and which code point they stand for. *)
Lemma utf8_head (c d : N) (x y : list N) :
  (c < 0x110000)%N → (d < 0x110000)%N →
  utf8 c ++ x = utf8 d ++ y → c = d ∧ x = y.
Proof.
  intros Hc Hd. unfold utf8.
  destruct (N.ltb_spec c 0x80), (N.ltb_spec c 0x800),
    (N.ltb_spec c 0x10000), (N.ltb_spec d 0x80), (N.ltb_spec d 0x800),
    (N.ltb_spec d 0x10000); try lia; cbn [app]; intros Heq;
    pose proof (f_equal (hd 0%N) Heq) as Hhd; cbn [hd] in Hhd.
  (* the same number of bytes: they give the code point back *)
  1, 6, 11, 16: simplify_eq; split; [euclid|done].
  (* otherwise the first bytes differ *)
  all: exfalso; clear Heq; euclid.
Qed.

Lemma utf8_nonempty (c : N) : utf8 c ≠ [].
Proof.
  unfold utf8.
  by destruct (c <? 0x80)%N, (c <? 0x800)%N, (c <? 0x10000)%N.
Qed.

Lemma bufferFromUtf8_cons (c : N) (s : jsstring) :
  isSurrogate c = false →
  bufferFromUtf8 (c :: s) = utf8 c ++ bufferFromUtf8 s.
Proof. intros Hc. unfold bufferFromUtf8. by rewrite bind_cons, Hc. Qed.

Lemma bufferFromUtf8_bytes (s : jsstring) :
  wellFormed s → Forall (λ b, (b <=? 0xFF)%N = true) (bufferFromUtf8 s).
Proof.
  induction 1 as [|c s [Hsur Hc] _ IH]; [constructor|].
  rewrite bufferFromUtf8_cons by done.
  apply Forall_app. split; [by apply utf8_bytes|done].
Qed.

Lemma bufferFromUtf8_inj (s t : jsstring) :
  wellFormed s → wellFormed t →
  bufferFromUtf8 s = bufferFromUtf8 t → s = t.
Proof.
  intros Hs. revert t.
  induction Hs as [|c s [Hsur Hc] _ IH]; intros t Ht Heq.
  - destruct Ht as [|d t [Hsurd Hd] _]; [done|].
    rewrite bufferFromUtf8_cons in Heq by done.
    symmetry in Heq. apply app_eq_nil in Heq as [Heq _].
    by apply utf8_nonempty in Heq.
  - destruct Ht as [|d t [Hsurd Hd] Ht].
    + rewrite bufferFromUtf8_cons in Heq by done.
      apply app_eq_nil in Heq as [Heq _]. by apply utf8_nonempty in Heq.
    + rewrite !bufferFromUtf8_cons in Heq by done.
      apply utf8_head in Heq as [-> Heq]; [|done..].
      f_equal. by apply IH.
Qed.

End Utf8Facts.

(** X26: [encodeUULE] tells the places apart: two different texts of
    Unicode scalar values never get the same parameter. *)
Theorem encodeUULE_distinct (place1 place2 : jsstring) :
  wellFormed place1 → wellFormed place2 → place1 ≠ place2 →
  encodeUULE place1 ≠ encodeUULE place2.
Proof.
  intros H1 H2 Hne Heq. apply Hne. unfold encodeUULE in Heq.
  apply app_inv_head in Heq.
  apply base64_inj in Heq; [|by apply bufferFromUtf8_bytes..].
  by apply bufferFromUtf8_inj.
Qed.

Lemma encodeUULE_distinct_witness :
  encodeUULE (js "Mumbai, India") ≠ encodeUULE (js "Mumbai, Indiana").
Proof.
  apply encodeUULE_distinct.
  - repeat constructor.
  - repeat constructor.
  - discriminate.
Defined.
